(** * Curves and revolution surfaces of Computacao-Grafica-N2, in Rocq

    A shallow embedding of the curve and mesh code of Ficha 01:

    - [Bezier]          Questao01/js/bezier.js        (de Casteljau, sampling, degree elevation)
    - [Spline]          Questao01/js/spline.js        (knot vectors, Cox-de Boor, knot insertion)
    - [ControlPoints]   Questao01/js/controlPoints.js (findPointNear)
    - [Curve2D]         Questao02/js/main.js          (findPointAt and the duplicated B-spline code)
    - [Revolution]      Questao02/js/revolution.js    (RevolutionSurface)
    - [Manager]         Questao01/js/controlPoints.js (the class ControlPointsManager)
    - [BezierTools]     Questao01/js/bezier.js        (derivative, subdivision, Bernstein form)
    - [SplineTools]     Questao01/js/spline.js        (cubic segments, Bezier curves as B-splines)
    - [RevolutionTools] Questao02/js/revolution.js    (the normal of a face)
    - [ProfileTools]    Questao02/js/main.js          (validateAndAdjustProfile)
    - [ProfileSpline]   Questao02/js/main.js          (the B-spline profile)
    - [Bezier64]        Questao01/js/bezier.js        (the evaluators, degree elevation, binomial coefficients, over doubles)
    - [Curve2D64]       Questao02/js/main.js          (de Casteljau and the Bezier sampler, over doubles)
    - [Revolution64]    Questao02/js/revolution.js    (generate and calculateNormals, over doubles)

    Numbers.  A JavaScript number is a double, and the code is embedded
    over two kinds of numbers.

    The first embedding is exact.  The curve code uses only [+ - * /]
    and comparisons, and is embedded over the rationals [Qc] (canonical
    fractions, Leibniz equality, computable), so every function of the
    model runs.  A value that JavaScript would make non-finite or NaN (a
    division by zero, arithmetic on the [undefined] read past the end of
    an array) is the [None] of [num]; it propagates through arithmetic
    and makes every comparison false, as NaN does.  The picking and mesh
    code calls [Math.sqrt], [Math.cos], [Math.sin] and [Math.PI]; it is
    embedded over the real numbers [R].  What is stated over this
    embedding is what rounding leaves as it is: which branch is taken on
    the sizes of the lists, how many points come back, which object is
    copied, a value at an end of the parameter interval, a value given
    as the expression that the code computes.

    The second embedding is over binary64: the doubles of [SpecFloat],
    with 53 bits of precision and rounding to nearest, ties to even
    ([Float64]).  It runs too, and it carries what rounding decides: the
    number of rounds of the loop that adds a step to its parameter, the
    binomial coefficients, and the inputs on which a property of exact
    arithmetic does not hold in double precision.  The language leaves
    [Math.cos] and [Math.sin] to its host; [Revolution64] takes them as
    arguments.

    Loops.  A [for] loop over indices is a [map], [flat_map] or fold
    over [seq]; the [while] loops are defined by well-founded recursion
    on what decreases, so they are total by construction; the loops
    that step a parameter have a fuel, shown to be enough where a
    statement needs the result.

    The file has the model first, module by module, then the
    definitions that only the statements use, then the lemmas, then one
    theorem for each claim C1..C10, and at the end further properties
    of the code around the claims. *)

From Equations Require Import Equations.
From Stdlib Require Import QArith Qcanon ZArith List Bool Arith Lia.
From Stdlib Require Import Reals Lra Qreals Psatz.
From Stdlib Require String SpecFloat.
Import ListNotations.

Set Implicit Arguments.

(** ** JavaScript numbers over [Qc] *)

Module JSNum.
Local Open Scope Qc_scope.

Definition ofZ (z : Z) : Qc := Q2Qc (inject_Z z).
Definition ofNat (n : nat) : Qc := ofZ (Z.of_nat n).

Definition Qc_eqb (a b : Qc) : bool := if Qc_eq_dec a b then true else false.
Definition Qc_ltb (a b : Qc) : bool :=
  match a ?= b with Lt => true | _ => false end.
Definition Qc_leb (a b : Qc) : bool :=
  match a ?= b with Gt => false | _ => true end.
Definition Qc_abs (a : Qc) : Qc := if Qc_ltb a 0 then - a else a.
Definition Qc_min (a b : Qc) : Qc := if Qc_leb a b then a else b.
Definition Qc_max (a b : Qc) : Qc := if Qc_leb a b then b else a.

(** A number that may be NaN (or non-finite): [None]. *)
Definition num := option Qc.

Definition lift2 (f : Qc -> Qc -> Qc) (a b : num) : num :=
  match a, b with Some p, Some q => Some (f p q) | _, _ => None end.

Definition nadd := lift2 Qcplus.
Definition nsub := lift2 Qcminus.
Definition nmul := lift2 Qcmult.

(** [a / b]: a zero divisor gives a non-finite value. *)
Definition ndiv (a b : num) : num :=
  match a, b with
  | Some p, Some q => if Qc_eqb q 0 then None else Some (p / q)
  | _, _ => None
  end.

Definition nabs (a : num) : num := option_map Qc_abs a.

(** Comparisons are false as soon as one side is NaN. *)
Definition ncmp (f : Qc -> Qc -> bool) (a b : num) : bool :=
  match a, b with Some p, Some q => f p q | _, _ => false end.

Definition nlt := ncmp Qc_ltb.
Definition nle := ncmp Qc_leb.
Definition nge (a b : num) := nle b a.

(** [a !== 0]: true for NaN. *)
Definition nonzero (a : num) : bool :=
  match a with Some p => negb (Qc_eqb p 0) | None => true end.

(** [Math.min] and [Math.max]: NaN as soon as one argument is. *)
Definition nmin := lift2 Qc_min.
Definition nmax := lift2 Qc_max.

End JSNum.

(** ** bezier.js *)

Module Bezier.
Import JSNum.
Local Open Scope Qc_scope.

(** A control point [{x, y, weight}]; [weight] is [None] when the object
    has no such property.  Other properties ([id]) play no role in the
    curve code and are left out. *)
Record Point := mkPoint { x : Qc; y : Qc; weight : option Qc }.

(** An object [{x, y}] whose coordinates come out of a division. *)
Record XY := mkXY { rx : num; ry : num }.

Definition finiteXY (p : Point) : XY := mkXY (Some (x p)) (Some (y p)).
Definition nanXY : XY := mkXY None None.

(** Homogeneous coordinates [{wx, wy, w}]. *)
Record HPoint := mkH { wx : Qc; wy : Qc; w : Qc }.

(** [p.weight || 1]: a missing or zero weight counts as 1. *)
Definition weightOr1 (p : Point) : Qc :=
  match weight p with
  | Some v => if Qc_eqb v 0 then 1 else v
  | None => 1
  end.

Definition toHomogeneous (p : Point) : HPoint :=
  let w := weightOr1 p in mkH (x p * w) (y p * w) w.

(** One pass of the inner [for] loop of [deCasteljau]: the interpolation
    of every pair of neighbours, in homogeneous coordinates. *)
Fixpoint lerpRoundH (t : Qc) (currentPoints : list HPoint) : list HPoint :=
  match currentPoints with
  | p0 :: ((p1 :: _) as rest) =>
      mkH ((1 - t) * wx p0 + t * wx p1)
          ((1 - t) * wy p0 + t * wy p1)
          ((1 - t) * w p0 + t * w p1) :: lerpRoundH t rest
  | _ => []
  end.

(** [while (currentPoints.length > 1) currentPoints = newPoints] *)
Equations? deCasteljau_loop (t : Qc) (currentPoints : list HPoint)
  : list HPoint by wf (length currentPoints) lt :=
  deCasteljau_loop t currentPoints with le_lt_dec (length currentPoints) 1 := {
    | left _ => currentPoints
    | right _ => deCasteljau_loop t (lerpRoundH t currentPoints) }.
Proof.
  clear deCasteljau_loop.
  assert (H : forall l, length (lerpRoundH t l) = pred (length l)).
  { induction l as [|a [|b l'] IH]; simpl in *; auto. }
  rewrite H. lia.
Qed.

Definition deCasteljau (points : list Point) (t : Qc) : option XY :=
  match points with
  | [] => None
  | [p] => Some (finiteXY p)
  | _ =>
      match deCasteljau_loop t (map toHomogeneous points) with
      | final :: _ =>
          Some (mkXY (ndiv (Some (wx final)) (Some (w final)))
                     (ndiv (Some (wy final)) (Some (w final))))
      | [] => None
      end
  end.

(** One pass of the inner [for] loop of [deCasteljauSimple]; the new
    objects are [{x, y}], without weight. *)
Fixpoint lerpRound (t : Qc) (currentPoints : list Point) : list Point :=
  match currentPoints with
  | p0 :: ((p1 :: _) as rest) =>
      mkPoint ((1 - t) * x p0 + t * x p1)
              ((1 - t) * y p0 + t * y p1) None :: lerpRound t rest
  | _ => []
  end.

Equations? deCasteljauSimple_loop (t : Qc) (currentPoints : list Point)
  : list Point by wf (length currentPoints) lt :=
  deCasteljauSimple_loop t currentPoints
    with le_lt_dec (length currentPoints) 1 := {
    | left _ => currentPoints
    | right _ => deCasteljauSimple_loop t (lerpRound t currentPoints) }.
Proof.
  clear deCasteljauSimple_loop.
  assert (H : forall l, length (lerpRound t l) = pred (length l)).
  { induction l as [|a [|b l'] IH]; simpl in *; auto. }
  rewrite H. lia.
Qed.

Definition deCasteljauSimple (points : list Point) (t : Qc) : option Point :=
  match points with
  | [] => None
  | [p] => Some (mkPoint (x p) (y p) None)
  | _ =>
      match deCasteljauSimple_loop t points with
      | final :: _ => Some (mkPoint (x final) (y final) None)
      | [] => None
      end
  end.

(** [controlPoints.some(p => p.weight !== undefined && p.weight !== 1)] *)
Definition hasWeights (controlPoints : list Point) : bool :=
  existsb (fun p => match weight p with
                    | Some v => negb (Qc_eqb v 1)
                    | None => false
                    end) controlPoints.

(** The evaluator picked by [generateBezierCurve], its result seen as the
    object pushed on [curvePoints]. *)
Definition algorithm (controlPoints : list Point) (useWeights : bool)
  : list Point -> Qc -> option XY :=
  if hasWeights controlPoints && useWeights
  then deCasteljau
  else fun ps t => option_map finiteXY (deCasteljauSimple ps t).

(** The [for (let i = 0; i <= steps; i++)] loop of [generateBezierCurve]:
    [t = i / steps], and the point is pushed unless it is [null].  With
    [steps = 0] the only parameter is [0 / 0], NaN, and so is the one
    point pushed. *)
Definition sampleLoop (algorithm : list Point -> Qc -> option XY)
  (controlPoints : list Point) (steps : nat) : list XY :=
  flat_map
    (fun i =>
       match ndiv (Some (ofNat i)) (Some (ofNat steps)) with
       | Some t =>
           match algorithm controlPoints t with
           | Some point => [point]
           | None => []
           end
       | None => [nanXY]
       end)
    (seq 0 (steps + 1)).

Definition generateBezierCurve (controlPoints : list Point) (steps : nat)
  (useWeights : bool) : list XY :=
  if length controlPoints <? 2 then []
  else sampleLoop (algorithm controlPoints useWeights) controlPoints steps.

(** [elevateBezierDegree(points)]: the first and last objects are copies
    ([{...points[0]}]); the points between carry the weight of
    [points[i]]. *)
Definition elevateBezierDegree (points : list Point) : list Point :=
  if length points <? 2 then points
  else
    let n := (length points - 1)%nat in
    let dflt := mkPoint 0 0 None in
    [nth 0 points dflt]
    ++ map (fun i =>
              let alpha := ofNat i / ofNat (n + 1) in
              let a := nth (i - 1) points dflt in
              let b := nth i points dflt in
              mkPoint (alpha * x a + (1 - alpha) * x b)
                      (alpha * y a + (1 - alpha) * y b)
                      (weight b))
           (seq 1 n)
    ++ [nth n points dflt].

End Bezier.

(** ** spline.js *)

Module Spline.
Import JSNum.
Import Bezier (XY, mkXY, rx, ry).
Local Open Scope Qc_scope.

(** [generateKnotVector(n, degree)]: one knot pushed for each
    [i = 0 .. n + degree]. *)
Definition generateKnotVector (n degree : nat) : list Qc :=
  let m := (n + degree + 1)%nat in
  map (fun i =>
         if (i <=? degree)%nat then 0
         else if (n <=? i)%nat then ofZ (Z.of_nat n - Z.of_nat degree)
         else ofZ (Z.of_nat i - Z.of_nat degree))
      (seq 0 m).

(** [knots[i]]: [undefined] past the end, NaN in arithmetic. *)
Definition knot (knots : list Qc) (i : nat) : num := nth_error knots i.

(** The literal [1e-10]. *)
Definition eps : Qc := 1 / ofZ (10 ^ 10).

(** [bSplineBasis(i, degree, t, knots)], by recursion on [degree]. *)
Fixpoint bSplineBasis (i degree : nat) (t : num) (knots : list Qc) : num :=
  match degree with
  | O =>
      if (Z.of_nat i =? Z.of_nat (length knots) - Z.of_nat degree - 2)%Z
         && nlt (nabs (nsub t (knot knots (i + 1)))) (Some eps)
      then Some 1
      else if nge t (knot knots i) && nlt t (knot knots (i + 1))
           then Some 1 else Some 0
  | S degree' =>
      let denomLeft := nsub (knot knots (i + degree)) (knot knots i) in
      let left :=
        if nonzero denomLeft
        then nmul (ndiv (nsub t (knot knots i)) denomLeft)
                  (bSplineBasis i degree' t knots)
        else Some 0 in
      let denomRight :=
        nsub (knot knots (i + degree + 1)) (knot knots (i + 1)) in
      let right :=
        if nonzero denomRight
        then nmul (ndiv (nsub (knot knots (i + degree + 1)) t) denomRight)
                  (bSplineBasis (i + 1) degree' t knots)
        else Some 0 in
      nadd left right
  end.

(** [evaluateBSpline(controlPoints, t, degree, knots)]; the control
    points are objects [{x, y}], here with coordinates in [num] so that
    the points made by [insertKnot] can be evaluated too. *)
Definition evaluateBSpline (controlPoints : list XY) (t : num) (degree : nat)
  (knots : list Qc) : option XY :=
  match controlPoints with
  | [] => None
  | _ =>
      let n := length controlPoints in
      let tMin := knot knots degree in
      let tMax := knot knots n in
      let tClamped := nmax tMin (nmin tMax t) in
      Some (fold_left
              (fun acc ip =>
                 let basis := bSplineBasis (fst ip) degree tClamped knots in
                 mkXY (nadd (rx acc) (nmul basis (rx (snd ip))))
                      (nadd (ry acc) (nmul basis (ry (snd ip)))))
              (combine (seq 0 n) controlPoints)
              (mkXY (Some 0) (Some 0)))
  end.

(** The [while (k < knots.length - 1 && knots[k] < newKnot) k++] of
    [insertKnot]. *)
Equations? findSpan (knots : list Qc) (newKnot : Qc) (k : nat) : nat
  by wf (length knots - k)%nat lt :=
  findSpan knots newKnot k with lt_dec (S k) (length knots) := {
    | left _ with nlt (knot knots k) (Some newKnot) := {
        | true => findSpan knots newKnot (S k)
        | false => k }
    | right _ => k }.
Proof. lia. Qed.

(** The body of the [for] loop of [insertKnot] at index [i]; [None] when
    [controlPoints[i - 1]] is read at [i = 0], a [TypeError]. *)
Definition insertKnotPoint (controlPoints : list XY) (knots : list Qc)
  (degree : nat) (newKnot : Qc) (k i : nat) : option XY :=
  match nth_error controlPoints i with
  | None => None
  | Some pi =>
      if (Z.of_nat i <=? Z.of_nat k - Z.of_nat degree - 1)%Z then Some pi
      else if (Z.of_nat k - 1 <? Z.of_nat i)%Z then Some pi
      else
        match i with
        | O => None
        | S i' =>
            match nth_error controlPoints i' with
            | None => None
            | Some pm =>
                let alpha :=
                  ndiv (nsub (Some newKnot) (knot knots i))
                       (nsub (knot knots (i + degree)) (knot knots i)) in
                Some (mkXY
                        (nadd (nmul (nsub (Some 1) alpha) (rx pm))
                              (nmul alpha (rx pi)))
                        (nadd (nmul (nsub (Some 1) alpha) (ry pm))
                              (nmul alpha (ry pi))))
            end
        end
  end.

(** Collects the results of a loop body, failing as soon as one fails. *)
Fixpoint collect {A} (l : list (option A)) : option (list A) :=
  match l with
  | [] => Some []
  | None :: _ => None
  | Some a :: r =>
      match collect r with Some r' => Some (a :: r') | None => None end
  end.

(** [insertKnot(controlPoints, knots, degree, newKnot)], returning
    [{controlPoints, knots}]. *)
Definition insertKnot (controlPoints : list XY) (knots : list Qc)
  (degree : nat) (newKnot : Qc) : option (list XY * list Qc) :=
  let n := length controlPoints in
  let k := findSpan knots newKnot degree in
  match collect (map (insertKnotPoint controlPoints knots degree newKnot k)
                     (seq 0 n)) with
  | None => None
  | Some newControlPoints =>
      let newKnots := firstn k knots ++ newKnot :: skipn k knots in
      Some (newControlPoints, newKnots)
  end.

End Spline.

(** ** controlPoints.js *)

Module ControlPoints.
Import JSNum.
Import Bezier (Point, mkPoint, x, y, weight).
Local Open Scope Qc_scope.

(** [Math.sqrt(s) <= threshold] for [s >= 0], decided exactly: the
    threshold is not negative and [s <= threshold * threshold]. *)
Definition sqrt_le (s threshold : Qc) : bool :=
  Qc_leb 0 threshold && Qc_leb s (threshold * threshold).

(** The test of [findPointNear] on one point. *)
Definition isNear (p : Point) (x0 y0 threshold : Qc) : bool :=
  let dx := x p - x0 in
  let dy := y p - y0 in
  sqrt_le (dx * dx + dy * dy) threshold.

(** [for (let i = this.points.length - 1; i >= 0; i--)], with [m = i + 1]
    indices left to visit; [points[i]] is always in range. *)
Fixpoint findPointNear_loop (points : list Point) (x0 y0 threshold : Qc)
  (m : nat) : Z :=
  match m with
  | O => (-1)%Z
  | S i =>
      match nth_error points i with
      | Some p =>
          if isNear p x0 y0 threshold then Z.of_nat i
          else findPointNear_loop points x0 y0 threshold i
      | None => findPointNear_loop points x0 y0 threshold i
      end
  end.

Definition findPointNear (points : list Point) (x0 y0 threshold : Qc) : Z :=
  findPointNear_loop points x0 y0 threshold (length points).

End ControlPoints.

(** ** Questao02/js/main.js *)

Module Curve2D.
Import JSNum.
Local Open Scope Qc_scope.

(** A profile point [{x, y, id}]; [id] plays no role here. *)
Record Point := mkPoint { x : Qc; y : Qc }.

(** [ProfilePoints.findPointAt]: the test on one point,
    [Math.sqrt((p.x - x) ** 2 + (p.y - y) ** 2) <= threshold]. *)
Definition isAt (p : Point) (x0 y0 threshold : Qc) : bool :=
  ControlPoints.sqrt_le ((x p - x0) ^ 2 + (y p - y0) ^ 2) threshold.

(** [for (let i = 0; i < this.points.length; i++)], from index [i] on. *)
Fixpoint findPointAt_loop (rest : list Point) (x0 y0 threshold : Qc)
  (i : nat) : Z :=
  match rest with
  | [] => (-1)%Z
  | p :: rest' =>
      if isAt p x0 y0 threshold then Z.of_nat i
      else findPointAt_loop rest' x0 y0 threshold (S i)
  end.

Definition findPointAt (points : list Point) (x0 y0 threshold : Qc) : Z :=
  findPointAt_loop points x0 y0 threshold 0.

(** [generateKnotVector(n, degree)]: three loops. *)
Definition generateKnotVector (n degree : nat) : list Qc :=
  let numInternal := (Z.of_nat n - Z.of_nat degree)%Z in
  repeat 0 (degree + 1)
  ++ map (fun i => ofNat i) (seq 1 (Z.to_nat (numInternal - 1)))
  ++ repeat (ofZ numInternal) (degree + 1).

(** [bSplineBasis]: the same text as in spline.js. *)
Fixpoint bSplineBasis (i degree : nat) (t : num) (knots : list Qc) : num :=
  match degree with
  | O =>
      if (Z.of_nat i =? Z.of_nat (length knots) - Z.of_nat degree - 2)%Z
         && nlt (nabs (nsub t (Spline.knot knots (i + 1)))) (Some Spline.eps)
      then Some 1
      else if nge t (Spline.knot knots i) && nlt t (Spline.knot knots (i + 1))
           then Some 1 else Some 0
  | S degree' =>
      let denomLeft :=
        nsub (Spline.knot knots (i + degree)) (Spline.knot knots i) in
      let left :=
        if nonzero denomLeft
        then nmul (ndiv (nsub t (Spline.knot knots i)) denomLeft)
                  (bSplineBasis i degree' t knots)
        else Some 0 in
      let denomRight :=
        nsub (Spline.knot knots (i + degree + 1)) (Spline.knot knots (i + 1)) in
      let right :=
        if nonzero denomRight
        then nmul (ndiv (nsub (Spline.knot knots (i + degree + 1)) t) denomRight)
                  (bSplineBasis (i + 1) degree' t knots)
        else Some 0 in
      nadd left right
  end.

End Curve2D.

(** ** revolution.js *)

(** What [console.warn] is given. *)
Module Console.
Import String.
Definition warnProfile : string := "Perfil precisa de pelo menos 2 pontos".
End Console.

Module Revolution.
Import Console.
Local Open Scope R_scope.

(** A profile point [{x, y}], a vertex or normal [{x, y, z}], a face
    [[i0, i1, i2]]. *)
Record Vec2 := mkVec2 { px : R; py : R }.
Record Vec3 := mkVec3 { vx : R; vy : R; vz : R }.
Definition Face := (nat * nat * nat)%type.

(** The axis after [axis.toLowerCase()]: ['x'], ['y'], ['z'], or any
    other string. *)
Inductive Axis := AxisX | AxisY | AxisZ | AxisOther.

Record Parameters := mkParameters {
  axis : Axis; angle : R; subdivisions : nat; profilePointsCount : nat }.

(** The fields of a [RevolutionSurface]; [parameters] is [None] for
    the empty object. *)
Record RevolutionSurface := mkSurface {
  vertices : list Vec3;
  faces : list Face;
  normals : list Vec3;
  parameters : option Parameters }.

(** [new RevolutionSurface()] *)
Definition newSurface : RevolutionSurface := mkSurface [] [] [] None.

(** [clear()] *)
Definition clear (s : RevolutionSurface) : RevolutionSurface :=
  mkSurface [] [] [] None.

(** [rotatePoint(point, theta, axis)] *)
Definition rotatePoint (point : Vec2) (theta : R) (axis : Axis) : Vec3 :=
  let cos := cos theta in
  let sin := sin theta in
  match axis with
  | AxisY => mkVec3 (px point * cos) (py point) (px point * sin)
  | AxisX => mkVec3 (px point) (py point * cos) (py point * sin)
  | AxisZ => mkVec3 (px point * cos - py point * sin)
                    (px point * sin + py point * cos) 0
  | AxisOther => mkVec3 (px point) (py point) 0
  end.

(** [normals[idx].x += normal.x] and so on; [idx] is in range whenever
    [vertices[idx]] was. *)
Fixpoint addAt (idx : nat) (normal : Vec3) (normals : list Vec3) : list Vec3 :=
  match normals, idx with
  | [], _ => []
  | n :: rest, O =>
      mkVec3 (vx n + vx normal) (vy n + vy normal) (vz n + vz normal) :: rest
  | n :: rest, S idx' => n :: addAt idx' normal rest
  end.

(** The body of [for (const face of this.faces)]; [None] is the
    [TypeError] of reading a coordinate of [undefined]. *)
Definition accumulateFace (vertices normals : list Vec3) (face : Face)
  : option (list Vec3) :=
  let '(i0, i1, i2) := face in
  match nth_error vertices i0, nth_error vertices i1, nth_error vertices i2 with
  | Some v0, Some v1, Some v2 =>
      let edge1 := mkVec3 (vx v1 - vx v0) (vy v1 - vy v0) (vz v1 - vz v0) in
      let edge2 := mkVec3 (vx v2 - vx v0) (vy v2 - vy v0) (vz v2 - vz v0) in
      let normal :=
        mkVec3 (vy edge1 * vz edge2 - vz edge1 * vy edge2)
               (vz edge1 * vx edge2 - vx edge1 * vz edge2)
               (vx edge1 * vy edge2 - vy edge1 * vx edge2) in
      Some (addAt i2 normal (addAt i1 normal (addAt i0 normal normals)))
  | _, _, _ => None
  end.

(** The first two steps of [calculateNormals]: the normals start at zero
    and every face adds its normal to its three vertices. *)
Fixpoint accumulateFaces (vertices normals : list Vec3) (faces : list Face)
  : option (list Vec3) :=
  match faces with
  | [] => Some normals
  | face :: rest =>
      match accumulateFace vertices normals face with
      | Some normals' => accumulateFaces vertices normals' rest
      | None => None
      end
  end.

Definition accumulatedNormals (vertices : list Vec3) (faces : list Face)
  : option (list Vec3) :=
  accumulateFaces vertices (map (fun _ => mkVec3 0 0 0) vertices) faces.

(** The last step: each normal is divided by its length when that is
    positive. *)
Definition normalize (n : Vec3) : Vec3 :=
  let length := sqrt (vx n * vx n + vy n * vy n + vz n * vz n) in
  if Rlt_dec 0 length
  then mkVec3 (vx n / length) (vy n / length) (vz n / length)
  else n.

(** [calculateNormals()] *)
Definition calculateNormals (s : RevolutionSurface) : option RevolutionSurface :=
  match accumulatedNormals (vertices s) (faces s) with
  | Some acc =>
      Some (mkSurface (vertices s) (faces s) (map normalize acc) (parameters s))
  | None => None
  end.

(** The vertices pushed by [generate]: ring [i] is the profile rotated
    by [i * angleStep]. *)
Definition generateVertices (profilePoints : list Vec2) (axis : Axis)
  (angleStep : R) (subdivisions : nat) : list Vec3 :=
  flat_map
    (fun i =>
       let theta := INR i * angleStep in
       map (fun point => rotatePoint point theta axis) profilePoints)
    (seq 0 (subdivisions + 1)).

(** The faces pushed by [generate]: two triangles for each cell. *)
Definition generateFaces (pointsPerRing subdivisions : nat) : list Face :=
  flat_map
    (fun i =>
       flat_map
         (fun j =>
            let current := (i * pointsPerRing + j)%nat in
            let next := (current + pointsPerRing)%nat in
            [(current, next, (current + 1)%nat);
             ((current + 1)%nat, next, (next + 1)%nat)])
         (seq 0 (pointsPerRing - 1)))
    (seq 0 subdivisions).


(** [generate(profilePoints, axis, angle, subdivisions)] on the surface
    [s]: the surface after the call and what was written on the console;
    [None] if the call throws.  With [subdivisions = 0] JavaScript makes
    the angle step non-finite; the model is meant for [subdivisions >= 1]. *)
Definition generate (s : RevolutionSurface) (profilePoints : list Vec2)
  (axis : Axis) (angle : R) (subdivisions : nat)
  : option (RevolutionSurface * list String.string) :=
  if (length profilePoints <? 2)%nat then Some (s, [warnProfile])
  else
    let s1 := clear s in
    let parameters :=
      Some (mkParameters axis angle subdivisions (length profilePoints)) in
    let angleRad := angle * PI / 180 in
    let angleStep := angleRad / INR subdivisions in
    let vertices :=
      vertices s1 ++ generateVertices profilePoints axis angleStep subdivisions in
    let pointsPerRing := length profilePoints in
    let faces := faces s1 ++ generateFaces pointsPerRing subdivisions in
    match calculateNormals (mkSurface vertices faces (normals s1) parameters) with
    | Some s2 => Some (s2, [])
    | None => None
    end.

(** [createRevolutionSurface(profilePoints, options)] with all three
    options given. *)
Definition createRevolutionSurface (profilePoints : list Vec2) (axis : Axis)
  (angle : R) (subdivisions : nat)
  : option (RevolutionSurface * list String.string) :=
  generate newSurface profilePoints axis angle subdivisions.

(** [getStats()] *)
Definition getStats (s : RevolutionSurface) : nat * nat * nat :=
  (length (vertices s), length (faces s), length (faces s)).

End Revolution.

(** ** controlPoints.js: the class [ControlPointsManager] *)

Module Manager.
Import JSNum.
Import Bezier (Point, mkPoint, x, y, weight, weightOr1).
Local Open Scope Qc_scope.

(** The fields of a manager.  The [id] of a point, made of the clock
    and of a random number, is left out; indices are integers. *)
Record Manager := mkManager {
  points : list Point;
  selectedPointIndex : Z;
  isDragging : bool;
  hoverPointIndex : Z }.

(** [new ControlPointsManager()] *)
Definition newManager : Manager := mkManager [] (-1) false (-1).

(** [index >= 0 && index < this.points.length] *)
Definition inRange (m : Manager) (index : Z) : bool :=
  (0 <=? index)%Z && (index <? Z.of_nat (length (points m)))%Z.

(** [addPoint(x, y, weight)]: the manager after the call and the index
    returned. *)
Definition addPoint (m : Manager) (x0 y0 weight0 : Qc) : Manager * Z :=
  let points' := points m ++ [mkPoint x0 y0 (Some weight0)] in
  (mkManager points' (selectedPointIndex m) (isDragging m) (hoverPointIndex m),
   (Z.of_nat (length points') - 1)%Z).

(** [array.splice(index, 1)] for an index in range. *)
Definition splice1 {A} (index : nat) (l : list A) : list A :=
  firstn index l ++ skipn (S index) l.

(** [removePoint(index)] *)
Definition removePoint (m : Manager) (index : Z) : Manager * bool :=
  if inRange m index then
    let points' := splice1 (Z.to_nat index) (points m) in
    let selected' :=
      if (selectedPointIndex m =? index)%Z then (-1)%Z
      else if (index <? selectedPointIndex m)%Z
           then (selectedPointIndex m - 1)%Z
           else selectedPointIndex m in
    (mkManager points' selected' (isDragging m) (hoverPointIndex m), true)
  else (m, false).

(** [removeLastPoint()] *)
Definition removeLastPoint (m : Manager) : Manager * bool :=
  if (0 <? length (points m))%nat then
    let points' := removelast (points m) in
    let selected' :=
      if (Z.of_nat (length points') <=? selectedPointIndex m)%Z then (-1)%Z
      else selectedPointIndex m in
    (mkManager points' selected' (isDragging m) (hoverPointIndex m), true)
  else (m, false).

(** [clearPoints()] *)
Definition clearPoints (m : Manager) : Manager := mkManager [] (-1) false (-1).

(** Assignment to the fields of [points[index]]. *)
Fixpoint updateAt {A} (index : nat) (f : A -> A) (l : list A) : list A :=
  match l, index with
  | [], _ => []
  | a :: r, O => f a :: r
  | a :: r, S index' => a :: updateAt index' f r
  end.

(** [movePoint(index, x, y)] *)
Definition movePoint (m : Manager) (index : Z) (x0 y0 : Qc) : Manager * bool :=
  if inRange m index then
    (mkManager (updateAt (Z.to_nat index)
                         (fun p => mkPoint x0 y0 (weight p)) (points m))
               (selectedPointIndex m) (isDragging m) (hoverPointIndex m), true)
  else (m, false).

(** [updateWeight(index, weight)], with [Math.max(0.1, weight)]. *)
Definition updateWeight (m : Manager) (index : Z) (weight0 : Qc)
  : Manager * bool :=
  if inRange m index then
    (mkManager (updateAt (Z.to_nat index)
                         (fun p => mkPoint (x p) (y p)
                                           (Some (Qc_max (1 / ofZ 10) weight0)))
                         (points m))
               (selectedPointIndex m) (isDragging m) (hoverPointIndex m), true)
  else (m, false).

(** [getPoint(index)]: [None] is [null]. *)
Definition getPoint (m : Manager) (index : Z) : option Point :=
  if inRange m index then nth_error (points m) (Z.to_nat index) else None.

(** [getAllPoints()] *)
Definition getAllPoints (m : Manager) : list Point := points m.

(** [setAllPoints(points)], with [p.weight || 1.0]. *)
Definition setAllPoints (m : Manager) (newPoints : list Point) : Manager :=
  mkManager (map (fun p => mkPoint (x p) (y p) (Some (weightOr1 p))) newPoints)
            (-1) false (hoverPointIndex m).

(** [getPointCount()] *)
Definition getPointCount (m : Manager) : Z := Z.of_nat (length (points m)).

(** [findPointNear(x, y, threshold)] *)
Definition findPointNear (m : Manager) (x0 y0 threshold : Qc) : Z :=
  ControlPoints.findPointNear (points m) x0 y0 threshold.

(** [selectPoint(index)] *)
Definition selectPoint (m : Manager) (index : Z) : Manager :=
  if (index =? -1)%Z || inRange m index
  then mkManager (points m) index (isDragging m) (hoverPointIndex m)
  else m.

(** [startDragging(index)] *)
Definition startDragging (m : Manager) (index : Z) : Manager :=
  if inRange m index
  then mkManager (points m) index true (hoverPointIndex m)
  else m.

(** [stopDragging()] *)
Definition stopDragging (m : Manager) : Manager :=
  mkManager (points m) (selectedPointIndex m) false (hoverPointIndex m).

(** [setHoverPoint(index)] *)
Definition setHoverPoint (m : Manager) (index : Z) : Manager :=
  mkManager (points m) (selectedPointIndex m) (isDragging m) index.

(** [getCenter()]: [None] is [null]; the sums run over the points in
    order and the division is by a length that is not zero. *)
Definition getCenter (m : Manager) : option Point :=
  match points m with
  | [] => None
  | _ =>
      let sumX := fold_left (fun sum p => sum + x p) (points m) 0 in
      let sumY := fold_left (fun sum p => sum + y p) (points m) 0 in
      Some (mkPoint (sumX / ofNat (length (points m)))
                    (sumY / ofNat (length (points m))) None)
  end.

(** A number that may be [Infinity] or [-Infinity], for the bounds of
    [getBoundingBox]. *)
Inductive ext := NegInf | Fin (q : Qc) | PosInf.

(** [Math.min(a, x)] and [Math.max(a, x)] for a finite [x]. *)
Definition extMin (a : ext) (q : Qc) : ext :=
  match a with
  | NegInf => NegInf
  | Fin p => Fin (Qc_min p q)
  | PosInf => Fin q
  end.

Definition extMax (a : ext) (q : Qc) : ext :=
  match a with
  | NegInf => Fin q
  | Fin p => Fin (Qc_max p q)
  | PosInf => PosInf
  end.

Record Box := mkBox { minX : ext; minY : ext; maxX : ext; maxY : ext }.

(** [getBoundingBox()] *)
Definition getBoundingBox (m : Manager) : option Box :=
  match points m with
  | [] => None
  | _ =>
      Some (fold_left
              (fun b p => mkBox (extMin (minX b) (x p)) (extMin (minY b) (y p))
                                (extMax (maxX b) (x p)) (extMax (maxY b) (y p)))
              (points m) (mkBox PosInf PosInf NegInf NegInf))
  end.

(** [transformAllPoints(transform)]: the new point is [{...p, x, y}]. *)
Definition transformAllPoints (m : Manager) (transform : Point -> Point)
  : Manager :=
  mkManager (map (fun p => mkPoint (x (transform p)) (y (transform p))
                                   (weight p)) (points m))
            (selectedPointIndex m) (isDragging m) (hoverPointIndex m).

(** [scalePoints(scale, center)]; [center] is [None] when the argument
    is left out or [null]. *)
Definition scalePoints (m : Manager) (scale : Qc) (center : option Point)
  : Manager :=
  let c := match center with Some c => Some c | None => getCenter m end in
  match c with
  | None => m
  | Some c =>
      transformAllPoints m
        (fun p => mkPoint (x c + (x p - x c) * scale)
                          (y c + (y p - y c) * scale) None)
  end.

(** [translatePoints(dx, dy)] *)
Definition translatePoints (m : Manager) (dx dy : Qc) : Manager :=
  transformAllPoints m (fun p => mkPoint (x p + dx) (y p + dy) None).

End Manager.

(** ** bezier.js: degree, derivative, subdivision and the Bernstein form *)

Module BezierTools.
Import JSNum Bezier.
Local Open Scope Qc_scope.

(** [getBezierDegree(controlPoints)] *)
Definition getBezierDegree (controlPoints : list Point) : Z :=
  Z.max 0 (Z.of_nat (length controlPoints) - 1).

(** The [for] loop of [bezierDerivative]: the control points of the
    derivative, objects [{x, y}]. *)
Definition derivativePoints (points : list Point) : list Point :=
  let n := (length points - 1)%nat in
  let dflt := mkPoint 0 0 None in
  map (fun i =>
         mkPoint (ofNat n * (x (nth (i + 1) points dflt) - x (nth i points dflt)))
                 (ofNat n * (y (nth (i + 1) points dflt) - y (nth i points dflt)))
                 None)
      (seq 0 n).

(** One pass of the inner [for] loop of [splitBezier]; the new object
    has the weight of [p0]. *)
Fixpoint splitRound (t : Qc) (currentPoints : list Point) : list Point :=
  match currentPoints with
  | p0 :: ((p1 :: _) as rest) =>
      mkPoint ((1 - t) * x p0 + t * x p1)
              ((1 - t) * y p0 + t * y p1) (weight p0) :: splitRound t rest
  | _ => []
  end.

(** The [while] loop of [splitBezier], on [left], [right] and
    [currentPoints]; [newPoints] is not empty inside the loop, so that
    the defaults of [hd] and [last] are never used. *)
Equations? splitBezier_loop (t : Qc) (lefts rights currentPoints : list Point)
  : list Point * list Point * list Point by wf (length currentPoints) lt :=
  splitBezier_loop t lefts rights currentPoints
    with le_lt_dec (length currentPoints) 1 := {
    | left _ => (lefts, rights, currentPoints)
    | right _ =>
        splitBezier_loop t
          (lefts ++ [hd (mkPoint 0 0 None) (splitRound t currentPoints)])
          (last (splitRound t currentPoints) (mkPoint 0 0 None) :: rights)
          (splitRound t currentPoints) }.
Proof.
  clear splitBezier_loop.
  assert (H : forall l, length (splitRound t l) = pred (length l)).
  { induction l as [|a [|b l'] IH]; simpl in *; auto. }
  rewrite H. lia.
Qed.

(** [splitBezier(points, t)], returning [{left, right}]. *)
Definition splitBezier (points : list Point) (t : Qc)
  : list Point * list Point :=
  match points with
  | [] => ([], [])
  | p :: _ =>
      let '(lefts, rights, currentPoints) := splitBezier_loop t [p] [] points in
      (lefts, hd (mkPoint 0 0 None) currentPoints :: rights)
  end.

(** [binomialCoefficient(n, k)] on integers. *)
Definition binomialCoefficient (n k : Z) : Qc :=
  if (k <? 0)%Z || (n <? k)%Z then 0
  else if (k =? 0)%Z || (k =? n)%Z then 1
  else
    fold_left
      (fun coeff i => coeff * (ofZ (n - k + Z.of_nat i) / ofNat i))
      (seq 1 (Z.to_nat k)) 1.

(** [Math.pow(q, e)] for an integer exponent: a negative power of 0 is
    not finite. *)
Definition pow (q : Qc) (e : Z) : num :=
  if (0 <=? e)%Z then Some (q ^ Z.to_nat e)
  else if Qc_eqb q 0 then None
       else Some (1 / q ^ Z.to_nat (- e)).

(** [bernsteinPolynomial(n, i, t)] *)
Definition bernsteinPolynomial (n i : Z) (t : Qc) : num :=
  nmul (nmul (Some (binomialCoefficient n i)) (pow t i)) (pow (1 - t) (n - i)).

(** [bezierBernstein(points, t)] *)
Definition bezierBernstein (points : list Point) (t : Qc) : option XY :=
  match points with
  | [] => None
  | _ =>
      let n := (Z.of_nat (length points) - 1)%Z in
      Some (fold_left
              (fun acc ip =>
                 let b := bernsteinPolynomial n (Z.of_nat (fst ip)) t in
                 mkXY (nadd (rx acc) (nmul b (Some (x (snd ip)))))
                      (nadd (ry acc) (nmul b (Some (y (snd ip))))))
              (combine (seq 0 (length points)) points)
              (mkXY (Some 0) (Some 0)))
  end.

End BezierTools.

(** ** spline.js: the cubic segment and the conversion of a Bezier curve *)

Module SplineTools.
Import JSNum.
Import Bezier (Point, mkPoint, x, y, weight).
Local Open Scope Qc_scope.

(** [evaluateCubicSegment(segment, t)]; [None] is the [TypeError] of
    reading a coordinate of an entry that the segment does not have. *)
Definition evaluateCubicSegment (segment : list Point) (t : Qc)
  : option Point :=
  match segment with
  | s0 :: s1 :: s2 :: s3 :: _ =>
      let t2 := t * t in
      let t3 := t2 * t in
      let b0 := (1 - t) * (1 - t) * (1 - t) / ofZ 6 in
      let b1 := (ofZ 3 * t3 - ofZ 6 * t2 + ofZ 4) / ofZ 6 in
      let b2 := (- ofZ 3 * t3 + ofZ 3 * t2 + ofZ 3 * t + 1) / ofZ 6 in
      let b3 := t3 / ofZ 6 in
      Some (mkPoint (b0 * x s0 + b1 * x s1 + b2 * x s2 + b3 * x s3)
                    (b0 * y s0 + b1 * y s1 + b2 * y s2 + b3 * y s3) None)
  | _ => None
  end.

(** The segment of index [i] of [generateCubicBSpline]: the four
    entries [controlPoints[i] .. controlPoints[i + 3]]. *)
Definition cubicSegment (controlPoints : list Point) (i : nat) : list Point :=
  firstn 4 (skipn i controlPoints).

(** [bezierToBSpline(bezierPoints)], returning
    [{controlPoints, degree, knots}]. *)
Definition bezierToBSpline (bezierPoints : list Point)
  : list Point * Z * list Qc :=
  let n := Z.of_nat (length bezierPoints) in
  let degree := (n - 1)%Z in
  let zeros := map (fun _ => 0) (seq 0 (Z.to_nat (degree + 1))) in
  let ones := map (fun _ => 1) (seq 0 (Z.to_nat (degree + 1))) in
  (bezierPoints, degree, zeros ++ ones).

End SplineTools.

(** ** revolution.js: the normal of one face, and the data of the mesh *)

Module RevolutionTools.
Import Revolution.
Local Open Scope R_scope.


(** [getData()] *)
Definition getData (s : RevolutionSurface)
  : list Vec3 * list Face * list Vec3 * option Parameters :=
  (vertices s, faces s, normals s, parameters s).

End RevolutionTools.

(** ** Questao02/js/main.js: the profile given to the revolution *)

Module ProfileTools.
Import JSNum Curve2D.
Import Revolution (Axis, AxisX, AxisY, AxisZ, AxisOther).
Local Open Scope Qc_scope.




End ProfileTools.

(** ** Questao02/js/main.js: the B-spline profile *)

Module ProfileSpline.
Import JSNum.
Import Bezier (XY, mkXY, rx, ry).
Local Open Scope Qc_scope.

(** [evaluateBSpline(controlPoints, t, degree, knots)], the same text
    as in spline.js, here on profile points. *)
Definition evaluateBSpline (controlPoints : list Curve2D.Point) (t : num)
  (degree : nat) (knots : list Qc) : option XY :=
  match controlPoints with
  | [] => None
  | _ =>
      let n := length controlPoints in
      let tMin := Spline.knot knots degree in
      let tMax := Spline.knot knots n in
      let tClamped := nmax tMin (nmin tMax t) in
      Some (fold_left
              (fun acc ip =>
                 let basis :=
                   Curve2D.bSplineBasis (fst ip) degree tClamped knots in
                 mkXY (nadd (rx acc) (nmul basis (Some (Curve2D.x (snd ip)))))
                      (nadd (ry acc) (nmul basis (Some (Curve2D.y (snd ip))))))
              (combine (seq 0 n) controlPoints)
              (mkXY (Some 0) (Some 0)))
  end.

(** [for (let t = tMin; t <= tMax; t += step)], with [fuel] rounds at
    most; the second component tells whether the loop has come to its
    end. *)
Fixpoint sampleFrom (controlPoints : list Curve2D.Point) (degree : nat)
  (knots : list Qc) (tMax step : Qc) (fuel : nat) (t : Qc) : list XY * bool :=
  if Qc_leb t tMax then
    match fuel with
    | O => ([], false)
    | S fuel' =>
        let (rest, done) :=
          sampleFrom controlPoints degree knots tMax step fuel' (t + step) in
        (match evaluateBSpline controlPoints (Some t) degree knots with
         | Some point => point :: rest
         | None => rest
         end, done)
    end
  else ([], true).

(** [generateBSplineCurve(controlPoints, degree, resolution)]: the
    points returned, and whether [console.warn] was called.  A bound
    that is not a number makes the test [t <= tMax] false.  On the knot
    vector built here [tMin] and [tMax] are numbers and [tMin < tMax]:
    with a positive [resolution] the loop ends within [resolution + 2]
    rounds; with [resolution = 0] the step is not finite, the loop
    pushes the point at [tMin] and stops. *)
Definition generateBSplineCurve (controlPoints : list Curve2D.Point)
  (degree resolution : nat) : list XY * bool :=
  if length controlPoints <? degree + 1 then ([], true)
  else
    let n := length controlPoints in
    let knots := Curve2D.generateKnotVector n degree in
    let finalPoint :=
      match evaluateBSpline controlPoints (Spline.knot knots n) degree knots with
      | Some point => [point]
      | None => []
      end in
    match Spline.knot knots degree, Spline.knot knots n with
    | Some tMin, Some tMax =>
        match resolution with
        | O =>
            ((if Qc_leb tMin tMax
              then match evaluateBSpline controlPoints (Some tMin) degree knots with
                   | Some point => [point]
                   | None => []
                   end
              else []) ++ finalPoint, false)
        | _ =>
            let step := (tMax - tMin) / ofNat resolution in
            (fst (sampleFrom controlPoints degree knots tMax step
                             (resolution + 2) tMin) ++ finalPoint, false)
        end
    | _, _ => (finalPoint, false)
    end.

End ProfileSpline.

(* ================================================================== *)
(** * The same code over binary64 *)
(* ================================================================== *)

(** ** JavaScript numbers as doubles *)

Module Float64.
Import SpecFloat.

(** A double: a signed zero, an infinity, NaN, or [(-1)^s * m * 2^e]. *)
Definition float := spec_float.

Definition prec : Z := 53.
Definition emax : Z := 1024.

(** The double nearest to [m * 2^e]. *)
Definition scaled (m e : Z) : float := binary_normalize prec emax m e false.
Definition ofZ (z : Z) : float := scaled z 0.
Definition ofNat (n : nat) : float := ofZ (Z.of_nat n).

Definition nan : float := S754_nan.

(** [+ - * /] and [Math.sqrt], each rounded to nearest, ties to even. *)
Definition fadd : float -> float -> float := SFadd prec emax.
Definition fsub : float -> float -> float := SFsub prec emax.
Definition fmul : float -> float -> float := SFmul prec emax.
Definition fdiv : float -> float -> float := SFdiv prec emax.
Definition fsqrt : float -> float := SFsqrt prec emax.

(** [a <= b] and [a < b]: false as soon as one side is NaN. *)
Definition fle : float -> float -> bool := SFleb.
Definition flt : float -> float -> bool := SFltb.

(** What [a || b] tests: a number is falsy when it is 0, -0 or NaN. *)
Definition truthy (a : float) : bool :=
  match a with
  | S754_zero _ | S754_nan => false
  | _ => true
  end.

(** The same double, bit for bit (one NaN). *)
Definition same (a b : float) : bool :=
  match a, b with
  | S754_zero s, S754_zero s' => Bool.eqb s s'
  | S754_infinity s, S754_infinity s' => Bool.eqb s s'
  | S754_nan, S754_nan => true
  | S754_finite s m e, S754_finite s' m' e' =>
      Bool.eqb s s' && Pos.eqb m m' && Z.eqb e e'
  | _, _ => false
  end.


(** [(1 - t) * a + t * b], the interpolation of every de Casteljau
    round. *)
Definition lerp (t a b : float) : float :=
  fadd (fmul (fsub (ofZ 1) t) a) (fmul t b).

End Float64.

(** ** bezier.js over doubles *)

Module Bezier64.
Import Float64.

Record Point := mkPoint { x : float; y : float; weight : option float }.
Record XY := mkXY { rx : float; ry : float }.
Record HPoint := mkH { wx : float; wy : float; w : float }.

Definition xyOf (p : Point) : XY := mkXY (x p) (y p).

(** [p.weight || 1] *)
Definition weightOr1 (p : Point) : float :=
  match weight p with
  | Some v => if truthy v then v else ofZ 1
  | None => ofZ 1
  end.

Definition toHomogeneous (p : Point) : HPoint :=
  let w := weightOr1 p in mkH (fmul (x p) w) (fmul (y p) w) w.

Fixpoint lerpRoundH (t : float) (currentPoints : list HPoint) : list HPoint :=
  match currentPoints with
  | p0 :: ((p1 :: _) as rest) =>
      mkH (lerp t (wx p0) (wx p1)) (lerp t (wy p0) (wy p1))
          (lerp t (w p0) (w p1)) :: lerpRoundH t rest
  | _ => []
  end.

Equations? deCasteljau_loop (t : float) (currentPoints : list HPoint)
  : list HPoint by wf (length currentPoints) lt :=
  deCasteljau_loop t currentPoints with le_lt_dec (length currentPoints) 1 := {
    | left _ => currentPoints
    | right _ => deCasteljau_loop t (lerpRoundH t currentPoints) }.
Proof.
  clear deCasteljau_loop.
  assert (H : forall l, length (lerpRoundH t l) = pred (length l)).
  { induction l as [|a [|b l'] IH]; simpl in *; auto. }
  rewrite H. lia.
Qed.

(** [deCasteljau(points, t)] *)
Definition deCasteljau (points : list Point) (t : float) : option XY :=
  match points with
  | [] => None
  | [p] => Some (xyOf p)
  | _ =>
      match deCasteljau_loop t (map toHomogeneous points) with
      | final :: _ =>
          Some (mkXY (fdiv (wx final) (w final)) (fdiv (wy final) (w final)))
      | [] => None
      end
  end.

Fixpoint lerpRound (t : float) (currentPoints : list XY) : list XY :=
  match currentPoints with
  | p0 :: ((p1 :: _) as rest) =>
      mkXY (lerp t (rx p0) (rx p1)) (lerp t (ry p0) (ry p1))
      :: lerpRound t rest
  | _ => []
  end.

Equations? deCasteljauSimple_loop (t : float) (currentPoints : list XY)
  : list XY by wf (length currentPoints) lt :=
  deCasteljauSimple_loop t currentPoints
    with le_lt_dec (length currentPoints) 1 := {
    | left _ => currentPoints
    | right _ => deCasteljauSimple_loop t (lerpRound t currentPoints) }.
Proof.
  clear deCasteljauSimple_loop.
  assert (H : forall l, length (lerpRound t l) = pred (length l)).
  { induction l as [|a [|b l'] IH]; simpl in *; auto. }
  rewrite H. lia.
Qed.

(** [deCasteljauSimple(points, t)]; only [x] and [y] of the points are
    read. *)
Definition deCasteljauSimple (points : list Point) (t : float) : option XY :=
  match points with
  | [] => None
  | [p] => Some (xyOf p)
  | _ => hd_error (deCasteljauSimple_loop t (map xyOf points))
  end.

(** [elevateBezierDegree(points)] *)
Definition elevateBezierDegree (points : list Point) : list Point :=
  if length points <? 2 then points
  else
    let n := (length points - 1)%nat in
    let dflt := mkPoint nan nan None in
    [nth 0 points dflt]
    ++ map (fun i =>
              let alpha := fdiv (ofNat i) (ofNat (n + 1)) in
              let a := nth (i - 1) points dflt in
              let b := nth i points dflt in
              mkPoint
                (fadd (fmul alpha (x a)) (fmul (fsub (ofZ 1) alpha) (x b)))
                (fadd (fmul alpha (y a)) (fmul (fsub (ofZ 1) alpha) (y b)))
                (weight b))
           (seq 1 n)
    ++ [nth n points dflt].

(** The [for] loop of [bezierDerivative]: the control points of the
    derivative, objects [{x, y}]. *)
Definition derivativePoints (points : list Point) : list Point :=
  let n := (length points - 1)%nat in
  let dflt := mkPoint nan nan None in
  map (fun i =>
         mkPoint
           (fmul (ofNat n)
                 (fsub (x (nth (i + 1) points dflt)) (x (nth i points dflt))))
           (fmul (ofNat n)
                 (fsub (y (nth (i + 1) points dflt)) (y (nth i points dflt))))
           None)
      (seq 0 n).

(** [bezierDerivative(points, t)] *)
Definition bezierDerivative (points : list Point) (t : float) : option XY :=
  if length points <? 2 then Some (mkXY (ofZ 0) (ofZ 0))
  else deCasteljauSimple (derivativePoints points) t.

(** [binomialCoefficient(n, k)] on integers: the running product
    [coeff *= (n - k + i) / i] for [i = 1 .. k]. *)
Definition binomialCoefficient (n k : Z) : float :=
  if (k <? 0)%Z || (n <? k)%Z then ofZ 0
  else if (k =? 0)%Z || (k =? n)%Z then ofZ 1
  else
    fold_left (fun coeff i => fmul coeff (fdiv (ofZ (n - k + i)) (ofZ i)))
              (map Z.of_nat (seq 1 (Z.to_nat k))) (ofZ 1).

End Bezier64.

(** ** Questao02/js/main.js over doubles *)

Module Curve2D64.
Import Float64.

Record Point := mkPoint { x : float; y : float }.

Fixpoint lerpRound (t : float) (points : list Point) : list Point :=
  match points with
  | p0 :: ((p1 :: _) as rest) =>
      mkPoint (lerp t (x p0) (x p1)) (lerp t (y p0) (y p1))
      :: lerpRound t rest
  | _ => []
  end.

Equations? deCasteljau_loop (t : float) (points : list Point)
  : list Point by wf (length points) lt :=
  deCasteljau_loop t points with le_lt_dec (length points) 1 := {
    | left _ => points
    | right _ => deCasteljau_loop t (lerpRound t points) }.
Proof.
  clear deCasteljau_loop.
  assert (H : forall l, length (lerpRound t l) = pred (length l)).
  { induction l as [|a [|b l'] IH]; simpl in *; auto. }
  rewrite H. lia.
Qed.

(** [deCasteljau(controlPoints, t)] *)
Definition deCasteljau (controlPoints : list Point) (t : float)
  : option Point :=
  match controlPoints with
  | [] => None
  | [p] => Some p
  | _ => hd_error (deCasteljau_loop t controlPoints)
  end.

(** [for (let t = 0; t <= 1; t += step)] from the parameter [t] on, with
    [fuel] rounds at most: [None] when the fuel does not reach the end
    of the loop. *)
Fixpoint sampleFrom (controlPoints : list Point) (step : float) (fuel : nat)
  (t : float) : option (list Point) :=
  if fle t (ofZ 1) then
    match fuel with
    | O => None
    | S fuel' =>
        match sampleFrom controlPoints step fuel' (fadd t step) with
        | Some rest =>
            Some (match deCasteljau controlPoints t with
                  | Some point => point :: rest
                  | None => rest
                  end)
        | None => None
        end
    end
  else Some [].

(** [generateBezierCurve(controlPoints, resolution)], the loop given
    [fuel] rounds. *)
Definition generateBezierCurve (fuel : nat) (controlPoints : list Point)
  (resolution : nat) : option (list Point) :=
  if length controlPoints <? 2 then Some []
  else
    let step := fdiv (ofZ 1) (ofNat resolution) in
    match sampleFrom controlPoints step fuel (ofZ 0) with
    | Some curvePoints =>
        Some (curvePoints
              ++ match deCasteljau controlPoints (ofZ 1) with
                 | Some finalPoint => [finalPoint]
                 | None => []
                 end)
    | None => None
    end.

End Curve2D64.

(** ** revolution.js over doubles *)

Module Revolution64.
Import Float64.

Record Vec2 := mkVec2 { px : float; py : float }.
Record Vec3 := mkVec3 { vx : float; vy : float; vz : float }.

(** [Math.PI] *)
Definition PI : float := scaled 7074237752028440 (-51).

Section Host.

(** [Math.cos] and [Math.sin], which the language leaves to its host. *)
Variables cos sin : float -> float.

(** [rotatePoint(point, theta, axis)] *)
Definition rotatePoint (point : Vec2) (theta : float) (axis : Revolution.Axis)
  : Vec3 :=
  let cos := cos theta in
  let sin := sin theta in
  match axis with
  | Revolution.AxisY =>
      mkVec3 (fmul (px point) cos) (py point) (fmul (px point) sin)
  | Revolution.AxisX =>
      mkVec3 (px point) (fmul (py point) cos) (fmul (py point) sin)
  | Revolution.AxisZ =>
      mkVec3 (fsub (fmul (px point) cos) (fmul (py point) sin))
             (fadd (fmul (px point) sin) (fmul (py point) cos)) (ofZ 0)
  | Revolution.AxisOther => mkVec3 (px point) (py point) (ofZ 0)
  end.

Definition generateVertices (profilePoints : list Vec2)
  (axis : Revolution.Axis) (angleStep : float) (subdivisions : nat)
  : list Vec3 :=
  flat_map
    (fun i =>
       let theta := fmul (ofNat i) angleStep in
       map (fun point => rotatePoint point theta axis) profilePoints)
    (seq 0 (subdivisions + 1)).

End Host.

Fixpoint addAt (idx : nat) (normal : Vec3) (normals : list Vec3) : list Vec3 :=
  match normals, idx with
  | [], _ => []
  | n :: rest, O =>
      mkVec3 (fadd (vx n) (vx normal)) (fadd (vy n) (vy normal))
             (fadd (vz n) (vz normal)) :: rest
  | n :: rest, S idx' => n :: addAt idx' normal rest
  end.

Definition accumulateFace (vertices normals : list Vec3)
  (face : Revolution.Face) : option (list Vec3) :=
  let '(i0, i1, i2) := face in
  match nth_error vertices i0, nth_error vertices i1, nth_error vertices i2 with
  | Some v0, Some v1, Some v2 =>
      let edge1 := mkVec3 (fsub (vx v1) (vx v0)) (fsub (vy v1) (vy v0))
                          (fsub (vz v1) (vz v0)) in
      let edge2 := mkVec3 (fsub (vx v2) (vx v0)) (fsub (vy v2) (vy v0))
                          (fsub (vz v2) (vz v0)) in
      let normal :=
        mkVec3
          (fsub (fmul (vy edge1) (vz edge2)) (fmul (vz edge1) (vy edge2)))
          (fsub (fmul (vz edge1) (vx edge2)) (fmul (vx edge1) (vz edge2)))
          (fsub (fmul (vx edge1) (vy edge2)) (fmul (vy edge1) (vx edge2))) in
      Some (addAt i2 normal (addAt i1 normal (addAt i0 normal normals)))
  | _, _, _ => None
  end.

Fixpoint accumulateFaces (vertices normals : list Vec3)
  (faces : list Revolution.Face) : option (list Vec3) :=
  match faces with
  | [] => Some normals
  | face :: rest =>
      match accumulateFace vertices normals face with
      | Some normals' => accumulateFaces vertices normals' rest
      | None => None
      end
  end.

Definition accumulatedNormals (vertices : list Vec3)
  (faces : list Revolution.Face) : option (list Vec3) :=
  accumulateFaces vertices
                  (map (fun _ => mkVec3 (ofZ 0) (ofZ 0) (ofZ 0)) vertices)
                  faces.

(** [Math.sqrt(n.x * n.x + n.y * n.y + n.z * n.z)] *)
Definition computedLength (n : Vec3) : float :=
  fsqrt (fadd (fadd (fmul (vx n) (vx n)) (fmul (vy n) (vy n)))
              (fmul (vz n) (vz n))).

Definition normalize (n : Vec3) : Vec3 :=
  let length := computedLength n in
  if flt (ofZ 0) length
  then mkVec3 (fdiv (vx n) length) (fdiv (vy n) length) (fdiv (vz n) length)
  else n.

(** The vertices, faces and normals that [generate] leaves on a new
    surface; [None] if [calculateNormals] throws. *)
Record Mesh := mkMesh {
  vertices : list Vec3;
  faces : list Revolution.Face;
  normals : list Vec3 }.

Definition generate (cos sin : float -> float) (profilePoints : list Vec2)
  (axis : Revolution.Axis) (angle : float) (subdivisions : nat)
  : option Mesh :=
  if length profilePoints <? 2 then Some (mkMesh [] [] []) else
  let angleRad := fdiv (fmul angle PI) (ofZ 180) in
  let angleStep := fdiv angleRad (ofNat subdivisions) in
  let vertices :=
    generateVertices cos sin profilePoints axis angleStep subdivisions in
  let faces :=
    Revolution.generateFaces (length profilePoints) subdivisions in
  match accumulatedNormals vertices faces with
  | Some accumulated => Some (mkMesh vertices faces (map normalize accumulated))
  | None => None
  end.

End Revolution64.

(* ================================================================== *)
(** * Vocabulary of the statements *)
(* ================================================================== *)

(** Definitions that the statements and proofs use and that are not
    in the source: projections, decidable equalities, the structural
    form of degree elevation, the sum of the basis functions, and the
    invariants of a mesh. *)

Section BezierTerms.
Import JSNum Bezier.
Local Open Scope Qc_scope.

(** The coordinates of a point, without its weight. *)
Definition xyOf (p : Point) : Qc * Qc := (x p, y p).

(** A point in homogeneous coordinates, with weight 1. *)
Definition lift1 (p : Point) : HPoint := mkH (x p) (y p) 1.

(** The interpolation of two points, as [lerpRound] builds it. *)
Definition lerp (t : Qc) (p0 p1 : Point) : Point :=
  mkPoint ((1 - t) * x p0 + t * x p1) ((1 - t) * y p0 + t * y p1) None.

(** The point [alpha * a + (1 - alpha) * b] of [elevateBezierDegree]. *)
Definition blend (alpha : Qc) (a b : Point) : Point :=
  mkPoint (alpha * x a + (1 - alpha) * x b)
          (alpha * y a + (1 - alpha) * y b) (weight b).

(** The elevated points from index [k] on, by recursion on the points
    that remain; [pm] is the point before them. *)
Fixpoint elevGo (k : nat) (N : Qc) (pm : Point) (l : list Point) : list Point :=
  match l with
  | [] => [pm]
  | p :: r => blend (ofNat k / N) pm p :: elevGo (S k) N p r
  end.

End BezierTerms.

Section SplineTerms.
Import JSNum.
Import Bezier (XY, mkXY, rx, ry).
Local Open Scope Qc_scope.

(** Decidable equality on the values of the model, to compare the
    results of evaluations. *)
Definition num_eqb (a b : num) : bool :=
  match a, b with
  | Some p, Some q => Qc_eqb p q
  | None, None => true
  | _, _ => false
  end.

Definition xy_eqb (p q : XY) : bool :=
  num_eqb (rx p) (rx q) && num_eqb (ry p) (ry q).

(** Equality of lists, element by element. *)
Fixpoint list_eqb {A} (eqb : A -> A -> bool) (l1 l2 : list A) : bool :=
  match l1, l2 with
  | [], [] => true
  | a :: r1, b :: r2 => eqb a b && list_eqb eqb r1 r2
  | _, _ => false
  end.

(** [sum over i in 0..n-1 of basis(i, degree, t, knots)], for either
    copy of the basis function. *)
Definition basisSum (basis : nat -> nat -> num -> list Qc -> num)
  (n degree : nat) (t : num) (knots : list Qc) : num :=
  fold_left (fun acc i => nadd acc (basis i degree t knots)) (seq 0 n) (Some 0).

(** Equality of the results of [evaluateBSpline] and of [insertKnot]. *)
Definition opt_xy_eqb (a b : option XY) : bool :=
  match a, b with
  | Some p, Some q => xy_eqb p q
  | None, None => true
  | _, _ => false
  end.

Definition refined_eqb (a b : option (list XY * list Qc)) : bool :=
  match a, b with
  | Some (c1, k1), Some (c2, k2) =>
      list_eqb xy_eqb c1 c2 && list_eqb Qc_eqb k1 k2
  | None, None => true
  | _, _ => false
  end.

(** The check that, at [t = knots[n]], the end of the domain, the last
    knot is [n - degree] and the basis functions sum to 0. *)
Definition lastKnotCheck (degree n : nat) : bool :=
  let knots := Spline.generateKnotVector n degree in
  num_eqb (Spline.knot knots n) (Some (ofZ (Z.of_nat n - Z.of_nat degree)))
  && num_eqb (basisSum Spline.bSplineBasis n degree (Spline.knot knots n) knots)
             (Some 0).

(** The check that the basis functions sum to 1 at every quarter
    [j / 4] from the first knot of the domain up to, and without, the
    last one. *)
Definition gridCheck (degree n : nat) : bool :=
  let knots := Spline.generateKnotVector n degree in
  forallb (fun j =>
             num_eqb (basisSum Spline.bSplineBasis n degree
                               (Some (ofNat j / ofNat 4)) knots)
                     (Some 1))
          (seq 0 (4 * (n - degree))).

End SplineTerms.

Section Curve2DTerms.
Import JSNum.
Local Open Scope Qc_scope.

(** What [if (point) curvePoints.push(point)] adds. *)
Definition optList {A} (o : option A) : list A :=
  match o with Some a => [a] | None => [] end.

End Curve2DTerms.

Section RevolutionTerms.
Import Revolution.
Local Open Scope R_scope.

(** Every index of a face is the index of a vertex. *)
Definition faceInRange (count : nat) (face : Face) : Prop :=
  let '(i0, i1, i2) := face in
  (i0 < count)%nat /\ (i1 < count)%nat /\ (i2 < count)%nat.


End RevolutionTerms.

Section ExampleTerms.
Import JSNum.
Local Open Scope Qc_scope.

(** Concrete points for the examples: a control point without weight,
    one with a weight, a computed point, a profile point. *)
Definition pt (a b : Z) : Bezier.Point :=
  Bezier.mkPoint (ofZ a) (ofZ b) None.

Definition wpt (a b : Z) (w : Qc) : Bezier.Point :=
  Bezier.mkPoint (ofZ a) (ofZ b) (Some w).

Definition xy (a b : Qc) : Bezier.XY := Bezier.mkXY (Some a) (Some b).

Definition pt2 (a b : Z) : Curve2D.Point := Curve2D.mkPoint (ofZ a) (ofZ b).

End ExampleTerms.

Section ManagerTerms.
Import JSNum Manager.
Local Open Scope Qc_scope.

(** The selection is nothing (-1) or the index of a point. *)
Definition selectedValid (m : Manager) : Prop :=
  selectedPointIndex m = (-1)%Z
  \/ (0 <= selectedPointIndex m < Z.of_nat (length (points m)))%Z.

(** The index a point has after [removePoint(index)], when it is not the
    point removed. *)
Definition shiftedIndex (index j : Z) : Z :=
  if (index <? j)%Z then (j - 1)%Z else j.

End ManagerTerms.

Section GeometryTerms.
Import JSNum Manager.
Import Bezier (Point, mkPoint, x, y, weight).
Local Open Scope Qc_scope.

(** The smallest and largest value of a coordinate, as
    [getBoundingBox] folds them. *)
Definition minOf (f : Point -> Qc) (l : list Point) (start : ext) : ext :=
  fold_left (fun a p => extMin a (f p)) l start.

Definition maxOf (f : Point -> Qc) (l : list Point) (start : ext) : ext :=
  fold_left (fun a p => extMax a (f p)) l start.

(** Every point of a list has its coordinates between the bounds. *)
Definition insideBox (a b c d : Qc) (l : list Point) : Prop :=
  forall p, In p l -> (a <= x p /\ x p <= c) /\ (b <= y p /\ y p <= d).

End GeometryTerms.

Section BezierToolsTerms.
Import JSNum Bezier.
Local Open Scope Qc_scope.

(** A point without its weight, as the evaluators return it. *)
Definition strip (p : Point) : Point := mkPoint (x p) (y p) None.

(** The binomial coefficients, by the rule of Pascal. *)
Fixpoint binom (n k : nat) : nat :=
  match n, k with
  | _, O => 1
  | O, S _ => 0
  | S n', S k' => binom n' k' + binom n' k
  end.

(** The Bernstein polynomial of degree [n] and index [i], and the sum
    of the values [f] of the points weighted by the polynomials of
    index [i], [i + 1], ... *)
Definition bern (n i : nat) (t : Qc) : Qc :=
  ofNat (binom n i) * t ^ i * (1 - t) ^ (n - i).

Fixpoint bernSum (f : Point -> Qc) (n i : nat) (t : Qc) (l : list Point) : Qc :=
  match l with
  | [] => 0
  | p :: r => bern n i t * f p + bernSum f n (S i) t r
  end.

End BezierToolsTerms.

Section SplineToolsTerms.
Import JSNum.
Import Bezier (Point, mkPoint, x, y, weight, finiteXY).
Local Open Scope Qc_scope.

(** The value of the knot of index [i] of [generateKnotVector(n, degree)],
    as an integer. *)
Definition knotValue (n degree i : nat) : Z :=
  if (i <=? degree)%nat then 0%Z
  else if (n <=? i)%nat then (Z.of_nat n - Z.of_nat degree)%Z
       else (Z.of_nat i - Z.of_nat degree)%Z.

(** The check that on the knot vector of [generateKnotVector(n, degree)]
    the basis functions at the first knot of the domain are 1 for the
    index 0 and 0 for the others, and at the last knot of the domain
    are all 0. *)
Definition endsCheck (degree n : nat) : bool :=
  let knots := Spline.generateKnotVector n degree in
  forallb (fun i =>
             num_eqb (Spline.bSplineBasis i degree (Some 0) knots)
                     (Some (if (i =? 0)%nat then 1 else 0))
             && num_eqb (Spline.bSplineBasis i degree
                           (Some (ofZ (Z.of_nat n - Z.of_nat degree))) knots)
                        (Some 0))
          (seq 0 n).

End SplineToolsTerms.

Section RevolutionToolsTerms.
Import Revolution.
Local Open Scope R_scope.



End RevolutionToolsTerms.

Section ProfileSplineTerms.
Import JSNum.
Import Bezier (XY, mkXY).
Local Open Scope Qc_scope.

(** A profile point as a computed point, and as a control point
    without weight. *)
Definition toXY (p : Curve2D.Point) : XY :=
  mkXY (Some (Curve2D.x p)) (Some (Curve2D.y p)).

Definition toPoint (p : Curve2D.Point) : Bezier.Point :=
  Bezier.mkPoint (Curve2D.x p) (Curve2D.y p) None.

End ProfileSplineTerms.

Section Float64Terms.
Import Float64.

(** Concrete points over doubles. *)
Definition pt64 (a b : Z) : Bezier64.Point :=
  Bezier64.mkPoint (ofZ a) (ofZ b) None.

Definition wpt64 (a b : Z) (w : float) : Bezier64.Point :=
  Bezier64.mkPoint (ofZ a) (ofZ b) (Some w).

Definition xy64 (a b : float) : Bezier64.XY := Bezier64.mkXY a b.

Definition profile64 (a b : Z) : Curve2D64.Point :=
  Curve2D64.mkPoint (ofZ a) (ofZ b).

(** The value of [t] after [i] rounds of [t += step]. *)
Fixpoint accumulatedFrom (step t : float) (i : nat) : float :=
  match i with
  | O => t
  | S j => accumulatedFrom step (fadd t step) j
  end.

Definition accumulated (step : float) (i : nat) : float :=
  accumulatedFrom step (ofZ 0) i.







(** The weight that the rounds of [deCasteljau] compute from two weights
    1 at [t = i / steps]: it is 1 again on this grid. *)
Definition unitWeightCheck (steps : nat) : bool :=
  forallb (fun i =>
             same (lerp (fdiv (ofNat i) (ofNat steps)) (ofZ 1) (ofZ 1))
                  (ofZ 1))
          (seq 0 (steps + 1)).

(** A double: the mantissa and the exponent of a finite number are
    those of binary64. *)
Definition double (a : float) : bool := SpecFloat.valid_binary prec emax a.

(** A double that is finite and is not -0. *)
Definition regular (a : float) : bool :=
  match a with
  | SpecFloat.S754_zero s => negb s
  | SpecFloat.S754_finite _ m e => SpecFloat.bounded prec emax m e
  | _ => false
  end.

(** Points whose coordinates are regular doubles. *)
Definition regularXY (q : Bezier64.XY) : Prop :=
  regular (Bezier64.rx q) = true /\ regular (Bezier64.ry q) = true.

Definition regularH (h : Bezier64.HPoint) : Prop :=
  regular (Bezier64.wx h) = true /\ regular (Bezier64.wy h) = true /\
  regular (Bezier64.w h) = true.

Definition regularProfile (p : Curve2D64.Point) : Prop :=
  regular (Curve2D64.x p) = true /\ regular (Curve2D64.y p) = true.

(** [{x: final.wx / final.w, y: final.wy / final.w}] *)
Definition unproject64 (final : Bezier64.HPoint) : Bezier64.XY :=
  Bezier64.mkXY (fdiv (Bezier64.wx final) (Bezier64.w final))
                (fdiv (Bezier64.wy final) (Bezier64.w final)).

(** A point in homogeneous coordinates, with the weight 1. *)
Definition lift64 (q : Bezier64.XY) : Bezier64.HPoint :=
  Bezier64.mkH (Bezier64.rx q) (Bezier64.ry q) (ofZ 1).

(** A control point of weight 1 whose coordinates are doubles. *)
Definition unitDouble (p : Bezier64.Point) : Prop :=
  Bezier64.weight p = Some (ofZ 1) /\
  double (Bezier64.x p) = true /\ double (Bezier64.y p) = true.

(** [binomialCoefficient(n, k)] is the double of the binomial
    coefficient, for every [k] from 0 to [n]. *)
Definition binomialCheck (n : nat) : bool :=
  forallb (fun k =>
             same (Bezier64.binomialCoefficient (Z.of_nat n) (Z.of_nat k))
                  (ofZ (Z.of_nat (binom n k))))
          (seq 0 (n + 1)).

End Float64Terms.

(* ================================================================== *)
(** * Properties *)
(* ================================================================== *)

(** ** Facts about the numbers *)

Section NumFacts.
Import JSNum.
Local Open Scope Qc_scope.

Lemma Qc_eqb_eq (a b : Qc) : Qc_eqb a b = true <-> a = b.
Proof. unfold Qc_eqb. destruct (Qc_eq_dec a b); split; congruence. Qed.

Lemma Qc_eqb_refl (a : Qc) : Qc_eqb a a = true.
Proof. now apply Qc_eqb_eq. Qed.

Lemma ndiv_one (a : Qc) : ndiv (Some a) (Some 1) = Some a.
Proof.
  unfold ndiv. destruct (Qc_eqb 1 0) eqn:E.
  - apply Qc_eqb_eq in E. discriminate E.
  - f_equal. field. discriminate.
Qed.

End NumFacts.

(** ** de Casteljau *)

Section BezierFacts.
Import JSNum Bezier.
Local Open Scope Qc_scope.

Lemma lerpRound_length t l : length (lerpRound t l) = pred (length l).
Proof. induction l as [|a [|b l'] IH]; simpl in *; auto. Qed.


Lemma simple_loop_short t l :
  (length l <= 1)%nat -> deCasteljauSimple_loop t l = l.
Proof.
  intros H. rewrite deCasteljauSimple_loop_equation_1.
  destruct (le_lt_dec (length l) 1); simpl; [reflexivity | lia].
Qed.

Lemma simple_loop_long t l :
  (1 < length l)%nat ->
  deCasteljauSimple_loop t l = deCasteljauSimple_loop t (lerpRound t l).
Proof.
  intros H. rewrite deCasteljauSimple_loop_equation_1.
  destruct (le_lt_dec (length l) 1); simpl; [lia | reflexivity].
Qed.

Lemma rational_loop_short t l :
  (length l <= 1)%nat -> deCasteljau_loop t l = l.
Proof.
  intros H. rewrite deCasteljau_loop_equation_1.
  destruct (le_lt_dec (length l) 1); simpl; [reflexivity | lia].
Qed.

Lemma rational_loop_long t l :
  (1 < length l)%nat ->
  deCasteljau_loop t l = deCasteljau_loop t (lerpRoundH t l).
Proof.
  intros H. rewrite deCasteljau_loop_equation_1.
  destruct (le_lt_dec (length l) 1); simpl; [lia | reflexivity].
Qed.

(** Both loops stop on a list of the same emptiness, of length at most 1. *)
Lemma simple_loop_exit t l :
  length (deCasteljauSimple_loop t l) = Nat.min 1 (length l).
Proof.
  remember (length l) as n eqn:Hn. revert l Hn.
  induction n as [n IH] using lt_wf_ind. intros l Hn.
  destruct (le_lt_dec (length l) 1) as [Hs|Hl].
  - rewrite simple_loop_short by exact Hs. lia.
  - rewrite simple_loop_long by exact Hl.
    rewrite (IH (pred n)) with (l := lerpRound t l).
    + lia.
    + lia.
    + rewrite lerpRound_length. lia.
Qed.


(** Induction along the rounds of the loops. *)
Lemma simple_rounds_ind t (P : list Point -> Prop) :
  (forall l, (length l <= 1)%nat -> P l) ->
  (forall l, (1 < length l)%nat -> P (lerpRound t l) -> P l) ->
  forall l, P l.
Proof.
  intros Hs Hl l.
  remember (length l) as n eqn:Hn. revert l Hn.
  induction n as [n IH] using lt_wf_ind. intros l Hn.
  destruct (le_lt_dec (length l) 1) as [H|H].
  - apply Hs, H.
  - apply Hl; [exact H|].
    apply (IH (pred n)); [lia | rewrite lerpRound_length; lia].
Qed.

(** At [t = 0] a round keeps the first point, at [t = 1] the last. *)
Lemma lerpRound_0_head l d :
  (1 < length l)%nat -> xyOf (hd d (lerpRound 0 l)) = xyOf (hd d l).
Proof.
  destruct l as [|p0 [|p1 r]]; simpl; try lia. intros _.
  unfold xyOf; simpl. f_equal; ring.
Qed.

Lemma lerpRound_1_last l d :
  (1 < length l)%nat -> xyOf (last (lerpRound 1 l) d) = xyOf (last l d).
Proof.
  induction l as [|p0 [|p1 r] IH]; try (simpl; lia). intros _.
  destruct r as [|p2 r'].
  - unfold xyOf; simpl. f_equal; ring.
  - change (lerpRound 1 (p0 :: p1 :: p2 :: r'))
      with (mkPoint ((1 - 1) * x p0 + 1 * x p1)
                    ((1 - 1) * y p0 + 1 * y p1) None
            :: lerpRound 1 (p1 :: p2 :: r')).
    assert (Hne : lerpRound 1 (p1 :: p2 :: r') <> []).
    { simpl. discriminate. }
    destruct (lerpRound 1 (p1 :: p2 :: r')) as [|q qs] eqn:E; [congruence|].
    change (xyOf (last (q :: qs) d) = xyOf (last (p1 :: p2 :: r') d)).
    apply IH. simpl. lia.
Qed.

Lemma simple_loop_0_head l d :
  xyOf (hd d (deCasteljauSimple_loop 0 l)) = xyOf (hd d l).
Proof.
  revert l. apply (simple_rounds_ind 0).
  - intros l H. now rewrite simple_loop_short.
  - intros l H IH. rewrite simple_loop_long by exact H.
    rewrite IH. now apply lerpRound_0_head.
Qed.

Lemma simple_loop_1_last l d :
  xyOf (last (deCasteljauSimple_loop 1 l) d) = xyOf (last l d).
Proof.
  revert l. apply (simple_rounds_ind 1).
  - intros l H. now rewrite simple_loop_short.
  - intros l H IH. rewrite simple_loop_long by exact H.
    rewrite IH. now apply lerpRound_1_last.
Qed.

Lemma last_default {A} (l : list A) d d' : l <> [] -> last l d = last l d'.
Proof.
  induction l as [|a [|b r] IH]; intros H; [congruence | reflexivity |].
  change (last (b :: r) d = last (b :: r) d'). apply IH. discriminate.
Qed.

Lemma last_of_map {A B} (f : A -> B) (l : list A) d :
  last (map f l) (f d) = f (last l d).
Proof.
  induction l as [|a [|b r] IH]; simpl in *; auto.
Qed.

(** A list of length one is its head, and its last element. *)
Lemma singleton_hd_last {A} (l : list A) d :
  length l = 1%nat -> l = [hd d l] /\ last l d = hd d l.
Proof. destruct l as [|a [|b r]]; simpl; try discriminate. auto. Qed.

Lemma deCasteljauSimple_at_0 p ps :
  deCasteljauSimple (p :: ps) 0 = Some (mkPoint (x p) (y p) None).
Proof.
  destruct ps as [|q r]; [reflexivity|].
  unfold deCasteljauSimple.
  pose proof (simple_loop_exit 0 (p :: q :: r)) as Hlen.
  pose proof (simple_loop_0_head (p :: q :: r) p) as Hhd.
  destruct (deCasteljauSimple_loop 0 (p :: q :: r)) as [|f fs];
    [simpl in Hlen; lia|].
  simpl in Hhd. unfold xyOf in Hhd. injection Hhd as -> ->. reflexivity.
Qed.

Lemma deCasteljauSimple_at_1 p ps :
  deCasteljauSimple (p :: ps) 1
  = Some (mkPoint (x (last (p :: ps) p)) (y (last (p :: ps) p)) None).
Proof.
  destruct ps as [|q r]; [reflexivity|].
  unfold deCasteljauSimple.
  pose proof (simple_loop_exit 1 (p :: q :: r)) as Hlen.
  pose proof (simple_loop_1_last (p :: q :: r) p) as Hla.
  destruct (deCasteljauSimple_loop 1 (p :: q :: r)) as [|f fs] eqn:E;
    [simpl in Hlen; lia|].
  destruct (singleton_hd_last (f :: fs) p) as [_ Hs];
    [simpl in *; lia|].
  rewrite Hs in Hla. simpl hd in Hla.
  unfold xyOf in Hla. injection Hla as -> ->. reflexivity.
Qed.

(** *** Unit weights *)

Lemma toHomogeneous_unit p : weightOr1 p = 1 -> toHomogeneous p = lift1 p.
Proof.
  intros H. unfold toHomogeneous, lift1. rewrite H.
  f_equal; ring.
Qed.

Lemma lerpRoundH_lift1 t l :
  lerpRoundH t (map lift1 l) = map lift1 (lerpRound t l).
Proof.
  induction l as [|a [|b r] IH]; try reflexivity.
  change (lerpRoundH t (map lift1 (a :: b :: r)))
    with (mkH ((1 - t) * x a + t * x b) ((1 - t) * y a + t * y b)
              ((1 - t) * 1 + t * 1)
          :: lerpRoundH t (map lift1 (b :: r))).
  rewrite IH. simpl. unfold lift1 at 2. simpl. f_equal. f_equal. ring.
Qed.

Lemma rational_loop_lift1 t l :
  deCasteljau_loop t (map lift1 l) = map lift1 (deCasteljauSimple_loop t l).
Proof.
  revert l. apply (simple_rounds_ind t).
  - intros l H. rewrite simple_loop_short by exact H.
    apply rational_loop_short. now rewrite length_map.
  - intros l H IH. rewrite simple_loop_long by exact H.
    rewrite rational_loop_long by now rewrite length_map.
    now rewrite lerpRoundH_lift1.
Qed.

Lemma deCasteljau_unit_weights points t :
  Forall (fun p => weightOr1 p = 1) points ->
  deCasteljau points t = option_map finiteXY (deCasteljauSimple points t).
Proof.
  intros Hw.
  destruct points as [|p [|q r]]; try reflexivity.
  unfold deCasteljau, deCasteljauSimple.
  assert (E : map toHomogeneous (p :: q :: r) = map lift1 (p :: q :: r)).
  { apply map_ext_in. intros a Ha. apply toHomogeneous_unit.
    rewrite Forall_forall in Hw. now apply Hw. }
  rewrite E, rational_loop_lift1.
  destruct (deCasteljauSimple_loop t (p :: q :: r)) as [|f fs]; [reflexivity|].
  simpl map. cbn [lift1 wx wy w]. rewrite !ndiv_one. reflexivity.
Qed.

Lemma weight_1_weightOr1 p : weight p = Some 1 -> weightOr1 p = 1.
Proof. intros H. unfold weightOr1. rewrite H. reflexivity. Qed.

Lemma hasWeights_unit points :
  Forall (fun p => weight p = Some 1) points -> hasWeights points = false.
Proof.
  induction 1 as [|p l Hp _ IH]; [reflexivity|].
  simpl. rewrite Hp, IH. reflexivity.
Qed.

(** *** Sampling *)

Lemma ofNat_nonzero n : (1 <= n)%nat -> ofNat n <> 0.
Proof.
  intros Hn E. unfold ofNat, ofZ in E.
  apply Q2Qc_eq_iff in E. unfold Qeq in E. simpl in E. lia.
Qed.






(** *** Degree elevation *)

Lemma lerpRound_cons t p0 p1 r :
  lerpRound t (p0 :: p1 :: r) = lerp t p0 p1 :: lerpRound t (p1 :: r).
Proof. reflexivity. Qed.

Lemma elevGo_length k N pm l : length (elevGo k N pm l) = S (length l).
Proof. revert k pm. induction l; intros; simpl; auto. Qed.

Lemma point_eq (a b : Point) :
  x a = x b -> y a = y b -> weight a = weight b -> a = b.
Proof. destruct a, b; simpl; intros; subst; reflexivity. Qed.

Lemma ofNat_S k : ofNat (S k) = ofNat k + 1.
Proof.
  unfold ofNat, ofZ, Qcplus. apply Q2Qc_eq_iff.
  cbn [this Q2Qc]. rewrite !Qred_correct.
  rewrite Nat2Z.inj_succ. unfold Qeq, inject_Z. simpl. lia.
Qed.

Lemma ofNat_0 : ofNat 0 = 0.
Proof. apply Qc_is_canon. reflexivity. Qed.

Lemma skipn_nth_cons {A} (l : list A) d : forall k,
  (k < length l)%nat -> skipn k l = nth k l d :: skipn (S k) l.
Proof.
  induction l as [|a l IH]; intros k H; [simpl in H; lia|].
  destruct k as [|k]; [reflexivity|].
  change (skipn k l = nth k l d :: skipn (S k) l).
  apply IH. simpl in H. lia.
Qed.

(** The loop of [elevateBezierDegree] from index [k] on, with the last
    point pushed after it, is [elevGo]. *)
Lemma elevate_loop_elevGo N d full : forall m k,
  (1 <= k)%nat -> (k + m = length full)%nat ->
  map (fun i => blend (ofNat i / N) (nth (i - 1) full d) (nth i full d))
      (seq k m)
  ++ [nth (length full - 1) full d]
  = elevGo k N (nth (k - 1) full d) (skipn k full).
Proof.
  induction m as [|m IH]; intros k Hk Hlen.
  - rewrite skipn_all2 by lia. simpl.
    replace (length full - 1)%nat with (k - 1)%nat by lia. reflexivity.
  - rewrite (@skipn_nth_cons _ full d k) by lia. cbn [seq map app elevGo]. f_equal.
    rewrite IH by lia. f_equal. f_equal. lia.
Qed.

Lemma elevateBezierDegree_elevGo p0 r :
  r <> [] ->
  elevateBezierDegree (p0 :: r)
  = p0 :: elevGo 1 (ofNat (S (length r))) p0 r.
Proof.
  intros Hr.
  assert (Hlen : (2 <= length (p0 :: r))%nat).
  { destruct r; [congruence | simpl; lia]. }
  pose proof (@elevate_loop_elevGo (ofNat (length (p0 :: r) - 1 + 1))
                (mkPoint 0 0 None) (p0 :: r) (length (p0 :: r) - 1) 1
                (le_n 1)) as H.
  unfold elevateBezierDegree.
  destruct (Nat.ltb_spec (length (p0 :: r)) 2) as [Hlt|_]; [lia|].
  change ([nth 0 (p0 :: r) (mkPoint 0 0 None)]) with [p0].
  change ([p0] ++ ?l) with (p0 :: l). f_equal.
  etransitivity; [apply H; lia|].
  replace (length (p0 :: r) - 1 + 1)%nat with (S (length r))
    by (simpl; lia).
  reflexivity.
Qed.

Lemma elevateBezierDegree_length points :
  (2 <= length points)%nat ->
  length (elevateBezierDegree points) = S (length points).
Proof.
  intros H. destruct points as [|p r]; [simpl in H; lia|].
  rewrite elevateBezierDegree_elevGo
    by (destruct r; [simpl in H; lia | discriminate]).
  simpl. now rewrite elevGo_length.
Qed.

End BezierFacts.

(** ** B-splines *)

Section SplineFacts.
Import JSNum.
Import Bezier (XY, mkXY, rx, ry).
Local Open Scope Qc_scope.

Lemma num_eqb_eq a b : num_eqb a b = true -> a = b.
Proof.
  destruct a, b; simpl; intros H; try discriminate; auto.
  apply Qc_eqb_eq in H. now subst.
Qed.

Lemma xy_eqb_eq p q : xy_eqb p q = true -> p = q.
Proof.
  destruct p, q. unfold xy_eqb. simpl. intros H.
  apply andb_true_iff in H as [H1 H2].
  apply num_eqb_eq in H1, H2. now subst.
Qed.

Lemma list_eqb_eq {A} (eqb : A -> A -> bool) :
  (forall a b, eqb a b = true -> a = b) ->
  forall l1 l2, list_eqb eqb l1 l2 = true -> l1 = l2.
Proof.
  intros Heq. induction l1 as [|a r1 IH]; intros [|b r2] H; simpl in H;
    try discriminate; auto.
  apply andb_true_iff in H as [H1 H2].
  apply Heq in H1. apply IH in H2. now subst.
Qed.

(** The two copies of the basis function are the same function. *)
Lemma bSplineBasis_copies degree : forall i t knots,
  Curve2D.bSplineBasis i degree t knots = Spline.bSplineBasis i degree t knots.
Proof.
  induction degree as [|d IH]; intros i t knots; [reflexivity|].
  cbn [Curve2D.bSplineBasis Spline.bSplineBasis]. now rewrite !IH.
Qed.

Lemma basisSum_copies n degree t knots :
  basisSum Curve2D.bSplineBasis n degree t knots
  = basisSum Spline.bSplineBasis n degree t knots.
Proof.
  unfold basisSum. generalize (Some 0) as acc. generalize (seq 0 n) as l.
  induction l as [|i l IH]; intros acc; [reflexivity|].
  simpl. now rewrite bSplineBasis_copies, IH.
Qed.

(** *** The knot vectors *)

Lemma map_seq_const {B} (f : nat -> B) (c : B) : forall k s,
  (forall i, (s <= i < s + k)%nat -> f i = c) ->
  map f (seq s k) = repeat c k.
Proof.
  induction k as [|k IH]; intros s H; [reflexivity|].
  simpl. rewrite H by lia. f_equal. apply IH. intros i Hi. apply H. lia.
Qed.

Lemma map_seq_shifted {B} (f g : nat -> B) (d : nat) : forall k s,
  (forall i, (s <= i < s + k)%nat -> f (i + d)%nat = g i) ->
  map f (seq (s + d) k) = map g (seq s k).
Proof.
  induction k as [|k IH]; intros s H; [reflexivity|].
  simpl. rewrite H by lia. f_equal. apply (IH (S s)). intros i Hi. apply H. lia.
Qed.

Lemma generateKnotVector_split n degree :
  (degree + 1 <= n)%nat ->
  Spline.generateKnotVector n degree
  = repeat 0 (degree + 1)
    ++ map (fun i => ofNat i) (seq 1 (n - degree - 1))
    ++ repeat (ofZ (Z.of_nat n - Z.of_nat degree)) (degree + 1).
Proof.
  intros H. unfold Spline.generateKnotVector.
  replace (n + degree + 1)%nat
    with ((degree + 1) + ((n - degree - 1) + (degree + 1)))%nat by lia.
  rewrite (seq_app (degree + 1) ((n - degree - 1) + (degree + 1)) 0),
    (seq_app (n - degree - 1) (degree + 1)), !map_app.
  f_equal; [|f_equal].
  - apply map_seq_const. intros i Hi.
    destruct (Nat.leb_spec i degree); [reflexivity | lia].
  - replace (0 + (degree + 1))%nat with (1 + degree)%nat by lia.
    apply map_seq_shifted. intros i Hi.
    destruct (Nat.leb_spec (i + degree) degree); [lia|].
    destruct (Nat.leb_spec n (i + degree)); [lia|].
    unfold ofNat. f_equal. lia.
  - apply map_seq_const. intros i Hi.
    destruct (Nat.leb_spec i degree); [lia|].
    destruct (Nat.leb_spec n i); [reflexivity | lia].
Qed.

Lemma knot_vectors_equal n degree :
  (degree + 1 <= n)%nat ->
  Spline.generateKnotVector n degree = Curve2D.generateKnotVector n degree.
Proof.
  intros H. rewrite generateKnotVector_split by exact H.
  unfold Curve2D.generateKnotVector.
  replace (Z.to_nat (Z.of_nat n - Z.of_nat degree - 1)) with (n - degree - 1)%nat
    by lia.
  reflexivity.
Qed.

Lemma generateKnotVector_length n degree :
  length (Spline.generateKnotVector n degree) = (n + degree + 1)%nat.
Proof. unfold Spline.generateKnotVector. now rewrite length_map, length_seq. Qed.

(** *** Knot insertion *)

Lemma opt_xy_eqb_eq a b : opt_xy_eqb a b = true -> a = b.
Proof.
  destruct a, b; simpl; intros H; try discriminate; auto.
  f_equal. now apply xy_eqb_eq.
Qed.

Lemma refined_eqb_eq a b : refined_eqb a b = true -> a = b.
Proof.
  destruct a as [[c1 k1]|], b as [[c2 k2]|]; simpl; intros H;
    try discriminate; auto.
  apply andb_true_iff in H as [H1 H2].
  apply (list_eqb_eq xy_eqb xy_eqb_eq) in H1.
  apply (list_eqb_eq Qc_eqb (fun a b => proj1 (Qc_eqb_eq a b))) in H2.
  now subst.
Qed.

Lemma collect_length {A} (l : list (option A)) r :
  Spline.collect l = Some r -> length r = length l.
Proof.
  revert r. induction l as [|[a|] l IH]; intros r H; simpl in H.
  - now inversion H.
  - destruct (Spline.collect l) as [r'|]; [|discriminate].
    inversion H; subst. simpl. f_equal. now apply IH.
  - discriminate.
Qed.

(** Whenever [insertKnot] returns, it returns as many control points as
    it was given, with one knot more. *)
Lemma insertKnot_sizes controlPoints knots degree newKnot newPoints newKnots :
  Spline.insertKnot controlPoints knots degree newKnot
  = Some (newPoints, newKnots) ->
  length newPoints = length controlPoints /\
  length newKnots = S (length knots).
Proof.
  unfold Spline.insertKnot. intros H.
  destruct (Spline.collect _) as [r|] eqn:E; [|discriminate].
  inversion H; subst. split.
  - apply collect_length in E. now rewrite length_map, length_seq in E.
  - pose proof (f_equal (@length _)
                  (firstn_skipn (Spline.findSpan knots newKnot degree) knots))
      as F.
    rewrite length_app in F. rewrite length_app. simpl length. lia.
Qed.

(** *** The basis functions at the last knot *)

(** Both checks hold for every degree 1..5 and every [n] from
    [degree + 1] to 12, by evaluation. *)

Lemma lastKnotCheck_all :
  forallb (fun degree =>
             forallb (lastKnotCheck degree) (seq (degree + 1) (12 - degree)))
          (seq 1 5) = true.
Proof. vm_compute. reflexivity. Qed.

Lemma lastKnotCheck_range degree n :
  (1 <= degree <= 5)%nat -> (degree + 1 <= n <= 12)%nat ->
  lastKnotCheck degree n = true.
Proof.
  intros Hd Hn. pose proof lastKnotCheck_all as H.
  rewrite forallb_forall in H.
  specialize (H degree). rewrite forallb_forall in H.
  apply H; apply in_seq; lia.
Qed.

Lemma gridCheck_all :
  forallb (fun degree =>
             forallb (gridCheck degree) (seq (degree + 1) (12 - degree)))
          (seq 1 5) = true.
Proof. vm_compute. reflexivity. Qed.

(** With the basis functions all 0 there, [evaluateBSpline] at the last
    knot is at the origin, not at the last control point. *)
Example evaluateBSpline_at_last_knot :
  Spline.evaluateBSpline [mkXY (Some 1) (Some 1); mkXY (Some (ofZ 2)) (Some (ofZ 3))]
                         (Some 1) 1 (Spline.generateKnotVector 2 1)
  = Some (mkXY (Some 0) (Some 0)).
Proof. apply opt_xy_eqb_eq. vm_compute. reflexivity. Qed.

Lemma partition_of_unity_on_grid degree n j :
  (1 <= degree <= 5)%nat -> (degree + 1 <= n <= 12)%nat ->
  (j < 4 * (n - degree))%nat ->
  basisSum Spline.bSplineBasis n degree (Some (ofNat j / ofNat 4))
           (Spline.generateKnotVector n degree) = Some 1.
Proof.
  intros Hd Hn Hj. pose proof gridCheck_all as H.
  rewrite forallb_forall in H.
  specialize (H degree). rewrite forallb_forall in H.
  assert (G : gridCheck degree n = true) by (apply H; apply in_seq; lia).
  unfold gridCheck in G. rewrite forallb_forall in G.
  apply num_eqb_eq. apply G. apply in_seq. lia.
Qed.

End SplineFacts.

(** ** Picking a point *)

Section PickingFacts.
Import JSNum.
Local Open Scope Qc_scope.

(** [findPointNear] scans from the top: it returns the highest index of a
    point that passes the test, or -1 when none does. *)
Lemma findPointNear_loop_spec points x0 y0 threshold : forall m,
  let r := ControlPoints.findPointNear_loop points x0 y0 threshold m in
  (r = (-1)%Z /\
   forall j q, (j < m)%nat -> nth_error points j = Some q ->
               ControlPoints.isNear q x0 y0 threshold = false)
  \/
  (exists i p, r = Z.of_nat i /\ (i < m)%nat /\ nth_error points i = Some p /\
               ControlPoints.isNear p x0 y0 threshold = true /\
               forall j q, (i < j < m)%nat -> nth_error points j = Some q ->
                           ControlPoints.isNear q x0 y0 threshold = false).
Proof.
  induction m as [|m IH]; simpl.
  - left. split; [reflexivity|]. intros j q Hj. lia.
  - destruct (nth_error points m) as [p|] eqn:Hp.
    + destruct (ControlPoints.isNear p x0 y0 threshold) eqn:Hn.
      * right. exists m, p. repeat split; auto. intros j q Hj. lia.
      * destruct IH as [[Hr Hall]|[i [p' [Hr [Hi [Hp' [Hn' Hall]]]]]]].
        -- left. split; [exact Hr|]. intros j q Hj Hq.
           destruct (Nat.eq_dec j m) as [->|Hne].
           ++ congruence.
           ++ apply (Hall j); [lia | exact Hq].
        -- right. exists i, p'. repeat split; auto.
           intros j q Hj Hq.
           destruct (Nat.eq_dec j m) as [->|Hne].
           ++ congruence.
           ++ apply (Hall j); [lia | exact Hq].
    + destruct IH as [[Hr Hall]|[i [p' [Hr [Hi [Hp' [Hn' Hall]]]]]]].
      * left. split; [exact Hr|]. intros j q Hj Hq.
        destruct (Nat.eq_dec j m) as [->|Hne].
        -- congruence.
        -- apply (Hall j); [lia | exact Hq].
      * right. exists i, p'. repeat split; auto.
        intros j q Hj Hq.
        destruct (Nat.eq_dec j m) as [->|Hne].
        -- congruence.
        -- apply (Hall j); [lia | exact Hq].
Qed.

(** [findPointAt] scans from the bottom: it returns the lowest index of a
    point that passes the test, or -1 when none does. *)
Lemma findPointAt_loop_spec x0 y0 threshold : forall rest i,
  let r := Curve2D.findPointAt_loop rest x0 y0 threshold i in
  (r = (-1)%Z /\
   forall j q, nth_error rest j = Some q ->
               Curve2D.isAt q x0 y0 threshold = false)
  \/
  (exists k p, r = Z.of_nat (i + k) /\ nth_error rest k = Some p /\
               Curve2D.isAt p x0 y0 threshold = true /\
               forall j q, (j < k)%nat -> nth_error rest j = Some q ->
                           Curve2D.isAt q x0 y0 threshold = false).
Proof.
  induction rest as [|p rest IH]; intros i; simpl.
  - left. split; [reflexivity|]. intros [|j] q Hq; discriminate.
  - destruct (Curve2D.isAt p x0 y0 threshold) eqn:Hn.
    + right. exists 0%nat, p. rewrite Nat.add_0_r.
      repeat split; auto. intros j q Hj. lia.
    + destruct (IH (S i)) as [[Hr Hall]|[k [p' [Hr [Hp' [Hn' Hall]]]]]].
      * left. split; [exact Hr|]. intros [|j] q Hq.
        -- simpl in Hq. congruence.
        -- apply (Hall j). exact Hq.
      * right. exists (S k), p'. repeat split; auto.
        -- rewrite Hr. f_equal. lia.
        -- intros [|j] q Hj Hq.
           ++ simpl in Hq. congruence.
           ++ apply (Hall j); [lia | exact Hq].
Qed.

(** The test [sqrt_le] is the comparison with the real square root. *)
Lemma Qc_leb_le (a b : Qc) : Qc_leb a b = true <-> a <= b.
Proof.
  unfold Qc_leb. rewrite Qcle_alt.
  destruct (a ?= b); split; intros; congruence.
Qed.

Lemma Q2R_Qcmult (a b : Qc) : Q2R (a * b)%Qc = (Q2R a * Q2R b)%R.
Proof.
  unfold Qcmult. cbn [this Q2Qc]. rewrite (Qeq_eqR _ _ (Qred_correct _)).
  apply Q2R_mult.
Qed.

Lemma sqrt_le_real (s threshold : Qc) :
  0 <= s ->
  ControlPoints.sqrt_le s threshold = true
  <-> (sqrt (Q2R s) <= Q2R threshold)%R.
Proof.
  intros Hs. unfold ControlPoints.sqrt_le.
  rewrite andb_true_iff, !Qc_leb_le.
  assert (HS : (0 <= Q2R s)%R).
  { apply Qle_Rle in Hs. change (Q2R (this 0)) with (Q2R 0%Q) in Hs.
    unfold Q2R in Hs at 1. simpl in Hs. lra. }
  split.
  - intros [H0 H1]. apply Qle_Rle in H0, H1.
    rewrite Q2R_Qcmult in H1.
    assert (HT : (0 <= Q2R threshold)%R).
    { unfold Q2R in H0 at 1. simpl in H0. lra. }
    rewrite <- (sqrt_square (Q2R threshold)) by exact HT.
    apply sqrt_le_1; nra.
  - intros H. pose proof (sqrt_pos (Q2R s)) as Hp.
    assert (HT : (0 <= Q2R threshold)%R) by lra.
    split.
    + apply Rle_Qle. unfold Q2R at 1. simpl. lra.
    + apply Rle_Qle. rewrite Q2R_Qcmult.
      rewrite <- (sqrt_sqrt (Q2R s)) by exact HS. nra.
Qed.

End PickingFacts.

(** ** The order of the integers among the rationals *)

Section IntegerFacts.
Import JSNum.
Local Open Scope Qc_scope.

Lemma ofZ_le a b : (a <= b)%Z <-> ofZ a <= ofZ b.
Proof.
  unfold ofZ, Qcle. cbn [this Q2Qc]. rewrite !Qred_correct.
  unfold Qle. simpl. lia.
Qed.

Lemma ofNat_le i j : (i <= j)%nat <-> ofNat i <= ofNat j.
Proof. unfold ofNat. rewrite <- ofZ_le. lia. Qed.

Lemma ofNat_pos n : (1 <= n)%nat -> 0 < ofNat n.
Proof.
  intros H. assert (L0 : ofNat 0 <= ofNat n) by (apply ofNat_le; lia).
  apply Qcle_lt_or_eq in L0 as L.
  rewrite ofNat_0 in *. destruct L as [L|L]; [exact L|].
  symmetry in L. now apply ofNat_nonzero in L.
Qed.

End IntegerFacts.

(** ** The revolution surface *)

Section RevolutionFacts.
Import Revolution.
Local Open Scope R_scope.

Lemma flat_map_length_const {A B} (f : A -> list B) (c : nat) (l : list A) :
  (forall a, In a l -> length (f a) = c) ->
  length (flat_map f l) = (length l * c)%nat.
Proof.
  induction l as [|a l IH]; intros H; [reflexivity|].
  simpl. rewrite length_app, H by (now left).
  rewrite IH by (intros; apply H; now right). reflexivity.
Qed.

Lemma generateVertices_length profile axis angleStep subdivisions :
  length (generateVertices profile axis angleStep subdivisions)
  = ((subdivisions + 1) * length profile)%nat.
Proof.
  unfold generateVertices.
  rewrite (@flat_map_length_const _ _ _ (length profile)).
  - now rewrite length_seq.
  - intros i _. now rewrite length_map.
Qed.


Lemma generateFaces_in_range pointsPerRing subdivisions :
  Forall (faceInRange ((subdivisions + 1) * pointsPerRing))
         (generateFaces pointsPerRing subdivisions).
Proof.
  apply Forall_forall. intros face Hin.
  unfold generateFaces in Hin.
  apply in_flat_map in Hin as [i [Hi Hin]].
  apply in_flat_map in Hin as [j [Hj Hin]].
  apply in_seq in Hi, Hj.
  assert (Hcell : (i * pointsPerRing + j + pointsPerRing + 1
                   < (subdivisions + 1) * pointsPerRing)%nat) by nia.
  destruct Hin as [<-|[<-|[]]]; unfold faceInRange; lia.
Qed.

Lemma addAt_length idx normal normals :
  length (addAt idx normal normals) = length normals.
Proof.
  revert idx. induction normals as [|n rest IH]; intros [|idx]; simpl; auto.
Qed.

Lemma accumulateFace_in_range verts normals face :
  faceInRange (length verts) face ->
  exists normals', accumulateFace verts normals face = Some normals' /\
                   length normals' = length normals.
Proof.
  destruct face as [[i0 i1] i2]. intros [H0 [H1 H2]].
  unfold accumulateFace.
  destruct (nth_error verts i0) as [v0|] eqn:E0;
    [|apply nth_error_None in E0; lia].
  destruct (nth_error verts i1) as [v1|] eqn:E1;
    [|apply nth_error_None in E1; lia].
  destruct (nth_error verts i2) as [v2|] eqn:E2;
    [|apply nth_error_None in E2; lia].
  eexists. split; [reflexivity|]. now rewrite !addAt_length.
Qed.

Lemma accumulateFaces_in_range verts : forall fs normals,
  Forall (faceInRange (length verts)) fs ->
  exists normals', accumulateFaces verts normals fs = Some normals' /\
                   length normals' = length normals.
Proof.
  induction fs as [|face rest IH]; intros normals H.
  - exists normals. split; reflexivity.
  - inversion H as [|? ? Hf Hr]; subst.
    destruct (@accumulateFace_in_range verts normals face Hf) as [n1 [E1 L1]].
    destruct (IH n1 Hr) as [n2 [E2 L2]].
    exists n2. simpl. rewrite E1. split; [exact E2 | congruence].
Qed.

(** What a call of [generate] on a profile of two points or more leaves
    in the surface. *)
Lemma generate_success s profile axis angle subdivisions :
  (2 <= length profile)%nat ->
  exists s' acc,
    generate s profile axis angle subdivisions = Some (s', []) /\
    vertices s'
    = generateVertices profile axis (angle * PI / 180 / INR subdivisions)
                       subdivisions /\
    faces s' = generateFaces (length profile) subdivisions /\
    accumulatedNormals (vertices s') (faces s') = Some acc /\
    normals s' = map normalize acc /\
    length acc = length (vertices s').
Proof.
  intros Hlen. unfold generate.
  destruct (Nat.ltb_spec (length profile) 2) as [Hlt|_]; [lia|].
  cbn [clear vertices faces normals app].
  set (vs := generateVertices profile axis _ subdivisions).
  set (fs := generateFaces (length profile) subdivisions).
  assert (Hr : Forall (faceInRange (length vs)) fs).
  { subst vs fs. rewrite generateVertices_length.
    apply generateFaces_in_range. }
  destruct (@accumulateFaces_in_range vs fs
              (map (fun _ => mkVec3 0 0 0) vs) Hr) as [acc [Eacc Lacc]].
  rewrite length_map in Lacc.
  unfold calculateNormals. cbn [vertices faces parameters].
  unfold accumulatedNormals. rewrite Eacc.
  eexists. exists acc. cbn [vertices faces normals].
  repeat split; auto.
Qed.

Lemma generate_short_profile s profile axis angle subdivisions :
  (length profile < 2)%nat ->
  generate s profile axis angle subdivisions = Some (s, [Console.warnProfile]).
Proof.
  intros H. unfold generate.
  destruct (Nat.ltb_spec (length profile) 2); [reflexivity | lia].
Qed.


End RevolutionFacts.

(** ** Doubles, and the sampler of Questao 02 *)

Section Float64Facts.
Import Float64.


Lemma c64_loop_short t l :
  (length l <= 1)%nat -> Curve2D64.deCasteljau_loop t l = l.
Proof.
  intros H. rewrite Curve2D64.deCasteljau_loop_equation_1.
  destruct (le_lt_dec (length l) 1); simpl; [reflexivity | lia].
Qed.

Lemma c64_loop_long t l :
  (1 < length l)%nat ->
  Curve2D64.deCasteljau_loop t l
  = Curve2D64.deCasteljau_loop t (Curve2D64.lerpRound t l).
Proof.
  intros H. rewrite Curve2D64.deCasteljau_loop_equation_1.
  destruct (le_lt_dec (length l) 1); simpl; [lia | reflexivity].
Qed.





Lemma same_eq a b : same a b = true -> a = b.
Proof.
  destruct a as [s| s| |s m e], b as [s'| s'| |s' m' e']; simpl;
    try discriminate; try reflexivity.
  - intros H. apply Bool.eqb_prop in H. now subst.
  - intros H. apply Bool.eqb_prop in H. now subst.
  - intros H. apply andb_true_iff in H as [H He].
    apply andb_true_iff in H as [Hs Hm].
    apply Bool.eqb_prop in Hs. apply Pos.eqb_eq in Hm. apply Z.eqb_eq in He.
    now subst.
Qed.

End Float64Facts.

(** ** Arithmetic of doubles *)

Section Float64Arith.
Import SpecFloat Float64.

Lemma regular_double a : regular a = true -> double a = true.
Proof. destruct a; simpl; auto; discriminate. Qed.

Lemma digits2_pos_iter (m p : positive) :
  Z.pos (digits2_pos (Pos.iter xO m p)) = (Z.pos (digits2_pos m) + Z.pos p)%Z.
Proof.
  induction p as [|p IH] using Pos.peano_ind.
  - simpl. lia.
  - rewrite Pos.iter_succ.
    change (digits2_pos (xO (Pos.iter xO m p)))
      with (Pos.succ (digits2_pos (Pos.iter xO m p))).
    rewrite Pos2Z.inj_succ, IH. lia.
Qed.

Lemma shr_iter p : forall m,
  iter_pos shr_1 p
    {| shr_m := Z.pos (Pos.iter xO m p); shr_r := false; shr_s := false |}
  = {| shr_m := Z.pos m; shr_r := false; shr_s := false |}.
Proof.
  induction p as [p IH|p IH|]; intros m.
  - cbn [iter_pos Pos.iter shr_1 orb]. now rewrite !IH.
  - cbn [iter_pos Pos.iter]. now rewrite !IH.
  - reflexivity.
Qed.

(** Rounding a number that is a double already. *)
Lemma round_canonical s m e :
  bounded prec emax m e = true ->
  binary_round_aux prec emax s (Z.pos m) e loc_Exact = S754_finite s m e.
Proof.
  intros B. unfold bounded, canonical_mantissa in B.
  apply andb_true_iff in B as [C L]. apply Z.eqb_eq in C.
  unfold binary_round_aux, shr_fexp. cbn [Zdigits2]. rewrite C, Z.sub_diag.
  cbn [shr shr_record_of_loc shr_m loc_of_shr_record round_nearest_even
       Zdigits2].
  rewrite C, Z.sub_diag. cbn [shr shr_m]. now rewrite L.
Qed.

(** Rounding a double written with [p] more bits, all zero. *)
Lemma round_shifted s m e p :
  bounded prec emax m e = true ->
  binary_round_aux prec emax s (Z.pos (Pos.iter xO m p)) (e - Z.pos p) loc_Exact
  = S754_finite s m e.
Proof.
  intros B. unfold bounded, canonical_mantissa in B.
  apply andb_true_iff in B as [C L]. apply Z.eqb_eq in C.
  unfold binary_round_aux. unfold shr_fexp at 1.
  cbn [Zdigits2]. rewrite digits2_pos_iter.
  replace (Z.pos (digits2_pos m) + Z.pos p + (e - Z.pos p))%Z
    with (Z.pos (digits2_pos m) + e)%Z by lia.
  rewrite C.
  replace (e - (e - Z.pos p))%Z with (Z.pos p) by lia.
  cbn [shr shr_record_of_loc]. rewrite shr_iter.
  cbn [shr_m loc_of_shr_record round_nearest_even].
  replace (e - Z.pos p + Z.pos p)%Z with e by lia.
  unfold shr_fexp. cbn [Zdigits2]. rewrite C, Z.sub_diag.
  cbn [shr shr_record_of_loc shr_m]. now rewrite L.
Qed.

Lemma fmul_1_l a : double a = true -> fmul (ofZ 1) a = a.
Proof.
  destruct a as [s| s| |s m e]; try reflexivity.
  cbn [double valid_binary]. intros B.
  change (ofZ 1) with (S754_finite false 4503599627370496 (-52)).
  unfold fmul, SFmul. cbn [xorb].
  change (Pos.mul 4503599627370496 m) with (Pos.iter xO m 52).
  replace (-52 + e)%Z with (e - 52)%Z by lia.
  now apply round_shifted.
Qed.

Lemma fmul_1_r a : double a = true -> fmul a (ofZ 1) = a.
Proof.
  intros H. rewrite <- (fmul_1_l a H) at 2.
  destruct a as [s| s| |s m e]; try reflexivity.
  - destruct s; reflexivity.
  - destruct s; reflexivity.
  - change (ofZ 1) with (S754_finite false 4503599627370496 (-52)).
    unfold fmul, SFmul. rewrite Pos.mul_comm, Z.add_comm, xorb_false_r.
    reflexivity.
Qed.

Lemma div_eucl_shifted (m : positive) (k : positive) :
  (52 <= Z.pos k)%Z ->
  Z.div_eucl (Z.shiftl (Z.pos m) (Z.pos k)) 4503599627370496
  = (Z.shiftl (Z.pos m) (Z.pos k - 52), 0%Z).
Proof.
  intros Hk.
  assert (E : Z.shiftl (Z.pos m) (Z.pos k)
              = (Z.shiftl (Z.pos m) (Z.pos k - 52) * 4503599627370496)%Z).
  { rewrite !Z.shiftl_mul_pow2 by lia.
    replace (Z.pos k) with (Z.pos k - 52 + 52)%Z at 1 by lia.
    rewrite Z.pow_add_r by lia.
    change (2 ^ 52)%Z with 4503599627370496%Z. ring. }
  rewrite E.
  pose proof (Z_div_mult (Z.shiftl (Z.pos m) (Z.pos k - 52)) 4503599627370496
                ltac:(lia)) as D.
  pose proof (Z_mod_mult (Z.shiftl (Z.pos m) (Z.pos k - 52))
                4503599627370496) as M.
  unfold Z.div, Z.modulo in D, M.
  destruct (Z.div_eucl _ _) as [q r]. now subst.
Qed.

Lemma fdiv_1_r a : double a = true -> fdiv a (ofZ 1) = a.
Proof.
  destruct a as [s| s| |s m e]; try reflexivity.
  - intros _. destruct s; reflexivity.
  - intros _. destruct s; reflexivity.
  - cbn [double valid_binary]. intros B. pose proof B as B'.
    unfold bounded, canonical_mantissa in B.
    apply andb_true_iff in B as [C L]. apply Z.eqb_eq in C.
    change (ofZ 1) with (S754_finite false 4503599627370496 (-52)).
    unfold fdiv, SFdiv. rewrite xorb_false_r.
    unfold SFdiv_core_binary. cbn [Zdigits2].
    change (Z.pos (digits2_pos 4503599627370496)) with 53%Z.
    set (d := Z.pos (digits2_pos m)) in *.
    assert (Hd : (0 < d)%Z) by (subst d; lia).
    unfold fexp, emin, prec, emax in C |- *.
    destruct (Z.eq_dec e (3 - 1024 - 53)) as [He|He].
    + (* the smallest exponent *)
      replace (Z.max (d + e - (53 + -52) - 53) (3 - 1024 - 53)) with e by lia.
      replace (Z.min e (e - -52)) with e by lia.
      replace (e - -52 - e)%Z with 52%Z by lia.
      cbv iota.
      rewrite (@div_eucl_shifted m 52) by lia.
      change (Z.shiftl (Z.pos m) (52 - 52)) with (Z.pos m).
      change (new_location 4503599627370496 0) with loc_Exact.
      now apply round_canonical.
    + replace (Z.max (d + e - (53 + -52) - 53) (3 - 1024 - 53))
        with (e - 1)%Z by lia.
      replace (Z.min (e - 1) (e - -52)) with (e - 1)%Z by lia.
      replace (e - -52 - (e - 1))%Z with 53%Z by lia.
      cbv iota.
      rewrite (@div_eucl_shifted m 53) by lia.
      change (Z.shiftl (Z.pos m) (53 - 52)) with (Z.pos (Pos.iter xO m 1)).
      change (new_location 4503599627370496 0) with loc_Exact.
      now apply round_shifted.
Qed.

Lemma fmul_0_l a :
  regular a = true -> exists s, fmul (ofZ 0) a = S754_zero s.
Proof.
  destruct a as [s| s| |s m e]; try discriminate; intros _; eexists;
    reflexivity.
Qed.

Lemma fadd_zero_r a s : regular a = true -> fadd a (S754_zero s) = a.
Proof.
  destruct a as [sa| sa| |sa m e]; try discriminate.
  - destruct sa; [discriminate|]. intros _. destruct s; reflexivity.
  - intros _. reflexivity.
Qed.

Lemma fadd_zero_l a s : regular a = true -> fadd (S754_zero s) a = a.
Proof.
  destruct a as [sa| sa| |sa m e]; try discriminate.
  - destruct sa; [discriminate|]. intros _. destruct s; reflexivity.
  - intros _. reflexivity.
Qed.

(** At [t = 0] a round keeps the first of two numbers, and at [t = 1]
    the second. *)
Lemma lerp_0 a b :
  regular a = true -> regular b = true -> lerp (ofZ 0) a b = a.
Proof.
  intros Ha Hb. unfold lerp.
  change (fsub (ofZ 1) (ofZ 0)) with (ofZ 1).
  rewrite fmul_1_l by now apply regular_double.
  destruct (fmul_0_l b Hb) as [s ->]. now apply fadd_zero_r.
Qed.

Lemma lerp_1 a b :
  regular a = true -> regular b = true -> lerp (ofZ 1) a b = b.
Proof.
  intros Ha Hb. unfold lerp.
  change (fsub (ofZ 1) (ofZ 1)) with (ofZ 0).
  rewrite fmul_1_l by now apply regular_double.
  destruct (fmul_0_l a Ha) as [s ->]. now apply fadd_zero_l.
Qed.

End Float64Arith.

(** ** Loops of rounds *)

Section Rounds.
Variable A : Type.
Variables round loop : list A -> list A.
Hypothesis loop_short : forall l, (length l <= 1)%nat -> loop l = l.
Hypothesis loop_long : forall l, (1 < length l)%nat -> loop l = loop (round l).

Lemma Forall_removelast (P : A -> Prop) l :
  Forall P l -> Forall P (removelast l).
Proof.
  induction l as [|a [|b r] IH]; intros H; try constructor.
  - now inversion H.
  - apply IH. now inversion H.
Qed.

Lemma Forall_tl (P : A -> Prop) l : Forall P l -> Forall P (tl l).
Proof. intros H. destruct l; [constructor | now inversion H]. Qed.

Lemma removelast_length (l : list A) : length (removelast l) = pred (length l).
Proof.
  induction l as [|a [|b r] IH]; try reflexivity.
  change (removelast (a :: b :: r)) with (a :: removelast (b :: r)).
  cbn [length pred] in *. now rewrite IH.
Qed.

(** A loop whose rounds drop the last element ends on the first one. *)
Lemma loop_keeps_first (P : A -> Prop) d :
  (forall l, Forall P l -> round l = removelast l) ->
  forall l, Forall P l -> l <> [] -> loop l = [hd d l].
Proof.
  intros R l. remember (length l) as n eqn:Hn. revert l Hn.
  induction n as [n IH] using lt_wf_ind. intros l Hn HP Hne.
  destruct l as [|a [|b r]]; [congruence | now rewrite loop_short |].
  rewrite loop_long by (simpl; lia). rewrite (R _ HP).
  rewrite (IH (pred n)) with (l := removelast (a :: b :: r)).
  - reflexivity.
  - subst n. simpl. lia.
  - now rewrite removelast_length, Hn.
  - now apply Forall_removelast.
  - discriminate.
Qed.

(** A loop whose rounds drop the first element ends on the last one. *)
Lemma loop_keeps_last (P : A -> Prop) d :
  (forall l, Forall P l -> round l = tl l) ->
  forall l, Forall P l -> l <> [] -> loop l = [last l d].
Proof.
  intros R l. remember (length l) as n eqn:Hn. revert l Hn.
  induction n as [n IH] using lt_wf_ind. intros l Hn HP Hne.
  destruct l as [|a [|b r]]; [congruence | now rewrite loop_short |].
  rewrite loop_long by (simpl; lia). rewrite (R _ HP).
  rewrite (IH (pred n)) with (l := tl (a :: b :: r)).
  - reflexivity.
  - subst n. simpl. lia.
  - subst n. reflexivity.
  - now apply Forall_tl.
  - discriminate.
Qed.

End Rounds.

Section LoopsAgree.
Variables A B : Type.
Variable g : A -> B.
Variables (round1 loop1 : list A -> list A) (round2 loop2 : list B -> list B).
Hypothesis short1 : forall l, (length l <= 1)%nat -> loop1 l = l.
Hypothesis long1 : forall l, (1 < length l)%nat -> loop1 l = loop1 (round1 l).
Hypothesis short2 : forall l, (length l <= 1)%nat -> loop2 l = l.
Hypothesis long2 : forall l, (1 < length l)%nat -> loop2 l = loop2 (round2 l).
Hypothesis shorter : forall l, length (round1 l) = pred (length l).
Hypothesis rounds : forall l, round2 (map g l) = map g (round1 l).

(** Two loops whose rounds agree through [g] end on lists that agree
    through [g]. *)
Lemma loops_agree l : loop2 (map g l) = map g (loop1 l).
Proof.
  remember (length l) as n eqn:Hn. revert l Hn.
  induction n as [n IH] using lt_wf_ind. intros l Hn.
  destruct (le_lt_dec (length l) 1) as [H|H].
  - rewrite short1 by exact H. apply short2. now rewrite length_map.
  - rewrite long1 by exact H. rewrite long2 by now rewrite length_map.
    rewrite rounds. apply (IH (pred n)); [lia | now rewrite shorter, Hn].
Qed.

End LoopsAgree.

Section Float64Curves.
Import Float64.

Lemma b64_lerpRound_length t l :
  length (Bezier64.lerpRound t l) = pred (length l).
Proof. induction l as [|a [|b l'] IH]; simpl in *; auto. Qed.

Lemma b64_simple_short t l :
  (length l <= 1)%nat -> Bezier64.deCasteljauSimple_loop t l = l.
Proof.
  intros H. rewrite Bezier64.deCasteljauSimple_loop_equation_1.
  destruct (le_lt_dec (length l) 1); simpl; [reflexivity | lia].
Qed.

Lemma b64_simple_long t l :
  (1 < length l)%nat ->
  Bezier64.deCasteljauSimple_loop t l
  = Bezier64.deCasteljauSimple_loop t (Bezier64.lerpRound t l).
Proof.
  intros H. rewrite Bezier64.deCasteljauSimple_loop_equation_1.
  destruct (le_lt_dec (length l) 1); simpl; [lia | reflexivity].
Qed.

Lemma b64_rational_short t l :
  (length l <= 1)%nat -> Bezier64.deCasteljau_loop t l = l.
Proof.
  intros H. rewrite Bezier64.deCasteljau_loop_equation_1.
  destruct (le_lt_dec (length l) 1); simpl; [reflexivity | lia].
Qed.

Lemma b64_rational_long t l :
  (1 < length l)%nat ->
  Bezier64.deCasteljau_loop t l
  = Bezier64.deCasteljau_loop t (Bezier64.lerpRoundH t l).
Proof.
  intros H. rewrite Bezier64.deCasteljau_loop_equation_1.
  destruct (le_lt_dec (length l) 1); simpl; [lia | reflexivity].
Qed.

(** *** The rounds at the two ends of the parameter interval *)

Lemma b64_round_0 l :
  Forall regularXY l -> Bezier64.lerpRound (ofZ 0) l = removelast l.
Proof.
  induction l as [|a [|b r] IH]; intros H; try reflexivity.
  inversion H as [|? ? [Ax Ay] H']. subst.
  inversion H' as [|? ? [Bx By] _]. subst.
  change (Bezier64.lerpRound (ofZ 0) (a :: b :: r))
    with (Bezier64.mkXY (lerp (ofZ 0) (Bezier64.rx a) (Bezier64.rx b))
                        (lerp (ofZ 0) (Bezier64.ry a) (Bezier64.ry b))
          :: Bezier64.lerpRound (ofZ 0) (b :: r)).
  rewrite !lerp_0, (IH H') by assumption. now destruct a.
Qed.

Lemma b64_round_1 l :
  Forall regularXY l -> Bezier64.lerpRound (ofZ 1) l = tl l.
Proof.
  induction l as [|a [|b r] IH]; intros H; try reflexivity.
  inversion H as [|? ? [Ax Ay] H']. subst.
  inversion H' as [|? ? [Bx By] _]. subst.
  change (Bezier64.lerpRound (ofZ 1) (a :: b :: r))
    with (Bezier64.mkXY (lerp (ofZ 1) (Bezier64.rx a) (Bezier64.rx b))
                        (lerp (ofZ 1) (Bezier64.ry a) (Bezier64.ry b))
          :: Bezier64.lerpRound (ofZ 1) (b :: r)).
  rewrite !lerp_1, (IH H') by assumption. now destruct b.
Qed.

Lemma b64_roundH_0 l :
  Forall regularH l -> Bezier64.lerpRoundH (ofZ 0) l = removelast l.
Proof.
  induction l as [|a [|b r] IH]; intros H; try reflexivity.
  inversion H as [|? ? [Ax [Ay Aw]] H']. subst.
  inversion H' as [|? ? [Bx [By Bw]] _]. subst.
  change (Bezier64.lerpRoundH (ofZ 0) (a :: b :: r))
    with (Bezier64.mkH (lerp (ofZ 0) (Bezier64.wx a) (Bezier64.wx b))
                       (lerp (ofZ 0) (Bezier64.wy a) (Bezier64.wy b))
                       (lerp (ofZ 0) (Bezier64.w a) (Bezier64.w b))
          :: Bezier64.lerpRoundH (ofZ 0) (b :: r)).
  rewrite !lerp_0, (IH H') by assumption. now destruct a.
Qed.

Lemma b64_roundH_1 l :
  Forall regularH l -> Bezier64.lerpRoundH (ofZ 1) l = tl l.
Proof.
  induction l as [|a [|b r] IH]; intros H; try reflexivity.
  inversion H as [|? ? [Ax [Ay Aw]] H']. subst.
  inversion H' as [|? ? [Bx [By Bw]] _]. subst.
  change (Bezier64.lerpRoundH (ofZ 1) (a :: b :: r))
    with (Bezier64.mkH (lerp (ofZ 1) (Bezier64.wx a) (Bezier64.wx b))
                       (lerp (ofZ 1) (Bezier64.wy a) (Bezier64.wy b))
                       (lerp (ofZ 1) (Bezier64.w a) (Bezier64.w b))
          :: Bezier64.lerpRoundH (ofZ 1) (b :: r)).
  rewrite !lerp_1, (IH H') by assumption. now destruct b.
Qed.

Lemma c64_round_0 l :
  Forall regularProfile l -> Curve2D64.lerpRound (ofZ 0) l = removelast l.
Proof.
  induction l as [|a [|b r] IH]; intros H; try reflexivity.
  inversion H as [|? ? [Ax Ay] H']. subst.
  inversion H' as [|? ? [Bx By] _]. subst.
  change (Curve2D64.lerpRound (ofZ 0) (a :: b :: r))
    with (Curve2D64.mkPoint (lerp (ofZ 0) (Curve2D64.x a) (Curve2D64.x b))
                            (lerp (ofZ 0) (Curve2D64.y a) (Curve2D64.y b))
          :: Curve2D64.lerpRound (ofZ 0) (b :: r)).
  rewrite !lerp_0, (IH H') by assumption. now destruct a.
Qed.

Lemma c64_round_1 l :
  Forall regularProfile l -> Curve2D64.lerpRound (ofZ 1) l = tl l.
Proof.
  induction l as [|a [|b r] IH]; intros H; try reflexivity.
  inversion H as [|? ? [Ax Ay] H']. subst.
  inversion H' as [|? ? [Bx By] _]. subst.
  change (Curve2D64.lerpRound (ofZ 1) (a :: b :: r))
    with (Curve2D64.mkPoint (lerp (ofZ 1) (Curve2D64.x a) (Curve2D64.x b))
                            (lerp (ofZ 1) (Curve2D64.y a) (Curve2D64.y b))
          :: Curve2D64.lerpRound (ofZ 1) (b :: r)).
  rewrite !lerp_1, (IH H') by assumption. now destruct b.
Qed.

(** *** The evaluators at the two ends *)

Lemma b64_simple_ends points d :
  points <> [] -> Forall regularXY (map Bezier64.xyOf points) ->
  Bezier64.deCasteljauSimple points (ofZ 0)
  = Some (Bezier64.xyOf (hd d points)) /\
  Bezier64.deCasteljauSimple points (ofZ 1)
  = Some (Bezier64.xyOf (last points d)).
Proof.
  intros Hne HP. destruct points as [|p [|q r]]; [congruence | now split |].
  unfold Bezier64.deCasteljauSimple.
  rewrite (@loop_keeps_first _ _ _ (b64_simple_short (ofZ 0))
             (b64_simple_long (ofZ 0)) regularXY (Bezier64.xyOf d)
             b64_round_0 _ HP) by discriminate.
  rewrite (@loop_keeps_last _ _ _ (b64_simple_short (ofZ 1))
             (b64_simple_long (ofZ 1)) regularXY (Bezier64.xyOf d)
             b64_round_1 _ HP) by discriminate.
  split; [reflexivity|]. cbn [hd_error]. f_equal.
  apply (last_of_map Bezier64.xyOf).
Qed.

Lemma c64_ends profile d :
  profile <> [] -> Forall regularProfile profile ->
  Curve2D64.deCasteljau profile (ofZ 0) = Some (hd d profile) /\
  Curve2D64.deCasteljau profile (ofZ 1) = Some (last profile d).
Proof.
  intros Hne HP. destruct profile as [|p [|q r]]; [congruence | now split |].
  unfold Curve2D64.deCasteljau.
  rewrite (@loop_keeps_first _ _ _ (c64_loop_short (ofZ 0))
             (c64_loop_long (ofZ 0)) regularProfile d
             c64_round_0 _ HP) by discriminate.
  rewrite (@loop_keeps_last _ _ _ (c64_loop_short (ofZ 1))
             (c64_loop_long (ofZ 1)) regularProfile d
             c64_round_1 _ HP) by discriminate.
  split; reflexivity.
Qed.

Lemma b64_rational_ends points d :
  (2 <= length points)%nat ->
  Forall regularH (map Bezier64.toHomogeneous points) ->
  Bezier64.deCasteljau points (ofZ 0)
  = Some (unproject64 (Bezier64.toHomogeneous (hd d points))) /\
  Bezier64.deCasteljau points (ofZ 1)
  = Some (unproject64 (Bezier64.toHomogeneous (last points d))).
Proof.
  intros Hlen HP. destruct points as [|p [|q r]]; try (simpl in Hlen; lia).
  unfold Bezier64.deCasteljau.
  rewrite (@loop_keeps_first _ _ _ (b64_rational_short (ofZ 0))
             (b64_rational_long (ofZ 0)) regularH (Bezier64.toHomogeneous d)
             b64_roundH_0 _ HP) by discriminate.
  rewrite (@loop_keeps_last _ _ _ (b64_rational_short (ofZ 1))
             (b64_rational_long (ofZ 1)) regularH (Bezier64.toHomogeneous d)
             b64_roundH_1 _ HP) by discriminate.
  split; [reflexivity|].
  now rewrite (last_of_map Bezier64.toHomogeneous).
Qed.

(** *** Weights 1 *)

Lemma unit_homogeneous p :
  Bezier64.weightOr1 p = ofZ 1 ->
  double (Bezier64.x p) = true -> double (Bezier64.y p) = true ->
  Bezier64.toHomogeneous p = lift64 (Bezier64.xyOf p).
Proof.
  intros W X Y. unfold Bezier64.toHomogeneous, lift64. rewrite W.
  cbn [Bezier64.xyOf Bezier64.rx Bezier64.ry].
  now rewrite !fmul_1_r.
Qed.

Lemma unitDouble_homogeneous p :
  unitDouble p -> Bezier64.toHomogeneous p = lift64 (Bezier64.xyOf p).
Proof.
  intros [W [X Y]]. apply unit_homogeneous; try assumption.
  unfold Bezier64.weightOr1. now rewrite W.
Qed.

Lemma unproject64_lift q :
  double (Bezier64.rx q) = true -> double (Bezier64.ry q) = true ->
  unproject64 (lift64 q) = q.
Proof.
  intros X Y. unfold unproject64, lift64.
  cbn [Bezier64.wx Bezier64.wy Bezier64.w].
  rewrite !fdiv_1_r by assumption. now destruct q.
Qed.

Lemma b64_roundH_lift t l :
  lerp t (ofZ 1) (ofZ 1) = ofZ 1 ->
  Bezier64.lerpRoundH t (map lift64 l) = map lift64 (Bezier64.lerpRound t l).
Proof.
  intros H. induction l as [|a [|b r] IH]; try reflexivity.
  change (Bezier64.lerpRoundH t (map lift64 (a :: b :: r)))
    with (Bezier64.mkH (lerp t (Bezier64.rx a) (Bezier64.rx b))
                       (lerp t (Bezier64.ry a) (Bezier64.ry b))
                       (lerp t (ofZ 1) (ofZ 1))
          :: Bezier64.lerpRoundH t (map lift64 (b :: r))).
  rewrite H, IH. reflexivity.
Qed.

Lemma b64_unit_weights points t q :
  Forall unitDouble points ->
  lerp t (ofZ 1) (ofZ 1) = ofZ 1 ->
  Bezier64.deCasteljauSimple points t = Some q ->
  double (Bezier64.rx q) = true -> double (Bezier64.ry q) = true ->
  Bezier64.deCasteljau points t = Some q.
Proof.
  intros HU Ht Hq X Y. destruct points as [|p [|p' r]]; try exact Hq.
  unfold Bezier64.deCasteljau, Bezier64.deCasteljauSimple in *.
  assert (E : map Bezier64.toHomogeneous (p :: p' :: r)
              = map lift64 (map Bezier64.xyOf (p :: p' :: r))).
  { rewrite map_map. apply map_ext_in. intros a Ha.
    apply unitDouble_homogeneous. rewrite Forall_forall in HU. now apply HU. }
  rewrite E.
  rewrite (@loops_agree _ _ lift64 _ _ _ _
             (b64_simple_short t) (b64_simple_long t)
             (b64_rational_short t) (b64_rational_long t)
             (b64_lerpRound_length t)
             (fun l => @b64_roundH_lift t l Ht)).
  destruct (Bezier64.deCasteljauSimple_loop t
              (map Bezier64.xyOf (p :: p' :: r))) as [|f fs];
    [discriminate Hq|].
  cbn [hd_error] in Hq. injection Hq as ->. cbn [map].
  change (Bezier64.mkXY (fdiv (Bezier64.wx (lift64 q)) (Bezier64.w (lift64 q)))
                        (fdiv (Bezier64.wy (lift64 q)) (Bezier64.w (lift64 q))))
    with (unproject64 (lift64 q)).
  now rewrite unproject64_lift.
Qed.

Lemma unit_weight_on_grid steps i :
  (1 <= steps <= 100)%nat -> (i <= steps)%nat ->
  lerp (fdiv (ofNat i) (ofNat steps)) (ofZ 1) (ofZ 1) = ofZ 1.
Proof.
  intros Hs Hi.
  assert (G : forallb unitWeightCheck (seq 1 100) = true)
    by (vm_compute; reflexivity).
  rewrite forallb_forall in G. specialize (G steps ltac:(apply in_seq; lia)).
  unfold unitWeightCheck in G. rewrite forallb_forall in G.
  apply same_eq. apply G. apply in_seq. lia.
Qed.

(** *** Degree elevation *)


Lemma nth_pred_last {A} (l : list A) d d' :
  l <> [] -> nth (length l - 1) l d = last l d'.
Proof.
  induction l as [|a [|b r] IH]; intros H; [congruence | reflexivity |].
  change (last (a :: b :: r) d') with (last (b :: r) d').
  rewrite <- IH by discriminate.
  cbn [length Nat.sub]. rewrite Nat.sub_0_r. reflexivity.
Qed.

Lemma nth_removelast {A} (l : list A) i d :
  (i < length l - 1)%nat -> nth i (removelast l) d = nth i l d.
Proof.
  revert i. induction l as [|a [|b r] IH]; intros i H;
    try (simpl in H; lia).
  change (removelast (a :: b :: r)) with (a :: removelast (b :: r)).
  destruct i as [|i]; [reflexivity|].
  cbn [nth]. apply IH. simpl in *. lia.
Qed.

Lemma last_map_seq {A} (f : nat -> A) m d :
  last (map f (seq 0 (S m))) d = f m.
Proof. rewrite seq_S, map_app. cbn [map]. apply last_last. Qed.


End Float64Curves.

(* ================================================================== *)
(** * The claims *)
(* ================================================================== *)

Section Claims.
Import JSNum.
Local Open Scope Qc_scope.

(** Scenario A of the specification: the control points (0,0),
    (50,100), (100,0) sampled in 2 steps give (0,0), (50,50), (100,0). *)
Example scenario_A :
  Bezier.generateBezierCurve [pt 0 0; pt 50 100; pt 100 0] 2 false
  = [xy 0 0; xy (ofZ 50) (ofZ 50); xy (ofZ 100) 0].
Proof. apply (list_eqb_eq xy_eqb xy_eqb_eq). vm_compute. reflexivity. Qed.

(** C2, as the code has it, in double precision.  The control points
    have coordinates that are regular doubles: finite, and not -0.  For
    every non-empty list of them, [deCasteljauSimple] and the evaluator
    of Questao 02 return at [t = 0] the first control point and at
    [t = 1] the last one.  The rational evaluator [deCasteljau] returns
    the point itself for a list of one point.  For two points or more
    whose homogeneous coordinates [x * w], [y * w] and [w] are regular
    doubles, [w] being [weight || 1], it returns at [t = 0] the
    quotients [(x * w) / w] and [(y * w) / w] of the first control point
    and at [t = 1] those of the last one; these are [x] and [y] when [w]
    is 1. *)
Theorem bezier_endpoint_interpolation
  (points : list Bezier64.Point) (profile : list Curve2D64.Point)
  (d : Bezier64.Point) (d2 : Curve2D64.Point) :
  points <> [] -> profile <> [] ->
  Forall regularXY (map Bezier64.xyOf points) ->
  Forall regularProfile profile ->
  let first := hd d points in
  let final := last points d in
  Bezier64.deCasteljauSimple points (Float64.ofZ 0)
  = Some (Bezier64.xyOf first) /\
  Bezier64.deCasteljauSimple points (Float64.ofZ 1)
  = Some (Bezier64.xyOf final) /\
  Curve2D64.deCasteljau profile (Float64.ofZ 0) = Some (hd d2 profile) /\
  Curve2D64.deCasteljau profile (Float64.ofZ 1) = Some (last profile d2) /\
  (length points = 1%nat ->
   forall t, Bezier64.deCasteljau points t = Some (Bezier64.xyOf first)) /\
  ((2 <= length points)%nat ->
   Forall regularH (map Bezier64.toHomogeneous points) ->
   Bezier64.deCasteljau points (Float64.ofZ 0)
   = Some (unproject64 (Bezier64.toHomogeneous first)) /\
   Bezier64.deCasteljau points (Float64.ofZ 1)
   = Some (unproject64 (Bezier64.toHomogeneous final))) /\
  (Bezier64.weightOr1 first = Float64.ofZ 1 ->
   unproject64 (Bezier64.toHomogeneous first) = Bezier64.xyOf first) /\
  (Bezier64.weightOr1 final = Float64.ofZ 1 ->
   unproject64 (Bezier64.toHomogeneous final) = Bezier64.xyOf final).
Proof.
  intros Hp Hq HP HQ first final.
  destruct (@b64_simple_ends points d Hp HP) as [S0 S1].
  destruct (@c64_ends profile d2 Hq HQ) as [Q0 Q1].
  assert (In1 : In first points).
  { subst first. destruct points; [congruence | now left]. }
  assert (In2 : In final points).
  { subst final. destruct (exists_last Hp) as [l [a ->]].
    rewrite last_last. apply in_or_app. right. now left. }
  assert (Unit : forall p, In p points ->
                 Bezier64.weightOr1 p = Float64.ofZ 1 ->
                 unproject64 (Bezier64.toHomogeneous p) = Bezier64.xyOf p).
  { intros p Hin Hw. rewrite Forall_forall in HP.
    destruct (HP (Bezier64.xyOf p) (in_map _ _ _ Hin)) as [X Y].
    rewrite unit_homogeneous by (auto using regular_double).
    apply unproject64_lift; now apply regular_double. }
  split; [exact S0|]. split; [exact S1|].
  split; [exact Q0|]. split; [exact Q1|].
  split; [|split; [|split]].
  - intros H t. subst first.
    destruct points as [|p [|q r]]; try discriminate H. reflexivity.
  - intros Hlen HH. now apply b64_rational_ends.
  - now apply Unit.
  - now apply Unit.
Qed.

(** Scenario A of the specification with the weights 2, none and 3. *)
Lemma bezier_endpoint_interpolation_witness :
  let two := Float64.ofZ 2 in
  let three := Float64.ofZ 3 in
  let points := [wpt64 0 0 two; pt64 50 100; wpt64 100 0 three] in
  let profile := [profile64 0 0; profile64 50 100; profile64 100 0] in
  Bezier64.deCasteljauSimple points (Float64.ofZ 0)
  = Some (xy64 (Float64.ofZ 0) (Float64.ofZ 0)) /\
  Bezier64.deCasteljauSimple points (Float64.ofZ 1)
  = Some (xy64 (Float64.ofZ 100) (Float64.ofZ 0)) /\
  Curve2D64.deCasteljau profile (Float64.ofZ 0) = Some (profile64 0 0) /\
  Curve2D64.deCasteljau profile (Float64.ofZ 1) = Some (profile64 100 0) /\
  Bezier64.deCasteljau points (Float64.ofZ 0)
  = Some (unproject64 (Bezier64.toHomogeneous (wpt64 0 0 two))) /\
  Bezier64.deCasteljau points (Float64.ofZ 1)
  = Some (unproject64 (Bezier64.toHomogeneous (wpt64 100 0 three))).
Proof.
  intros two three points profile.
  destruct (@bezier_endpoint_interpolation points profile (pt64 0 0)
              (profile64 0 0))
    as [S0 [S1 [Q0 [Q1 [_ [R _]]]]]].
  - discriminate.
  - discriminate.
  - repeat constructor.
  - repeat constructor.
  - destruct R as [R0 R1]; [simpl; lia | repeat constructor |].
    repeat split; assumption.
Defined.

(** C2 fails on the rational evaluator in double precision: with the
    weight 0.1 on both control points, the point returned at [t = 0] for
    the first control point (3, 0) has x = 3.0000000000000004, and so
    has the point returned at [t = 1] when (3, 0) is the last one. *)
Lemma rational_endpoint_is_rounded :
  let tenth := Float64.fdiv (Float64.ofZ 1) (Float64.ofZ 10) in
  let points := [wpt64 3 0 tenth; wpt64 5 1 tenth] in
  Bezier64.deCasteljau points (Float64.ofZ 0)
  = Some (xy64 (Float64.scaled 6755399441055745 (-51)) (Float64.ofZ 0)) /\
  Bezier64.deCasteljau points (Float64.ofZ 0)
  <> Some (xy64 (Float64.ofZ 3) (Float64.ofZ 0)) /\
  Bezier64.deCasteljau (rev points) (Float64.ofZ 1)
  <> Some (xy64 (Float64.ofZ 3) (Float64.ofZ 0)).
Proof.
  cbv zeta. split; [vm_compute; reflexivity|].
  split; intros H; vm_compute in H; discriminate H.
Qed.

(** C5, as the code has it.  When every control point has weight 1, the
    rational evaluator returns, for every [t] from 0 to 1, the point of
    the non-rational evaluator; [generateBezierCurve] then picks the
    non-rational evaluator whatever [useWeights] is, and its samples are
    those the rational evaluator would give.  In double precision the
    two evaluators return the same doubles at every [t] at which the
    weight that the rational evaluator carries, [(1 - t) * 1 + t * 1],
    comes out as 1; it does at every [t = i / steps] for up to 100
    steps. *)
Theorem rational_agrees_on_unit_weights (points : list Bezier.Point)
  (points64 : list Bezier64.Point) :
  Forall (fun p => Bezier.weight p = Some 1) points ->
  Forall unitDouble points64 ->
  (forall t, 0 <= t <= 1 ->
             Bezier.deCasteljau points t
             = option_map Bezier.finiteXY (Bezier.deCasteljauSimple points t)) /\
  (forall useWeights,
      Bezier.algorithm points useWeights
      = fun ps t => option_map Bezier.finiteXY (Bezier.deCasteljauSimple ps t)) /\
  (forall steps useWeights,
      Bezier.generateBezierCurve points steps useWeights
      = if (length points <? 2)%nat then []
        else Bezier.sampleLoop Bezier.deCasteljau points steps) /\
  (forall t q,
      Float64.lerp t (Float64.ofZ 1) (Float64.ofZ 1) = Float64.ofZ 1 ->
      Bezier64.deCasteljauSimple points64 t = Some q ->
      double (Bezier64.rx q) = true -> double (Bezier64.ry q) = true ->
      Bezier64.deCasteljau points64 t = Some q) /\
  (forall steps i,
      (1 <= steps <= 100)%nat -> (i <= steps)%nat ->
      Float64.lerp (Float64.fdiv (Float64.ofNat i) (Float64.ofNat steps))
                   (Float64.ofZ 1) (Float64.ofZ 1)
      = Float64.ofZ 1).
Proof.
  intros Hw Hw64.
  assert (Hw1 : Forall (fun p => Bezier.weightOr1 p = 1) points).
  { eapply Forall_impl; [|exact Hw]. intros p. apply weight_1_weightOr1. }
  assert (Ha : forall useWeights,
             Bezier.algorithm points useWeights
             = fun ps t => option_map Bezier.finiteXY
                                      (Bezier.deCasteljauSimple ps t)).
  { intros uw. unfold Bezier.algorithm.
    rewrite (hasWeights_unit Hw). reflexivity. }
  split; [|split; [|split; [|split]]].
  - intros t _. now apply deCasteljau_unit_weights.
  - exact Ha.
  - intros steps uw. unfold Bezier.generateBezierCurve. rewrite Ha.
    destruct (length points <? 2)%nat; [reflexivity|].
    unfold Bezier.sampleLoop. apply flat_map_ext. intros i.
    destruct (ndiv (Some (ofNat i)) (Some (ofNat steps))) as [t|];
      [|reflexivity].
    now rewrite deCasteljau_unit_weights.
  - intros t q Ht Hq X Y. now apply b64_unit_weights.
  - intros steps i Hs Hi. now apply unit_weight_on_grid.
Qed.

(** Scenario B of the specification: the points (0,0), (10,0), (10,10),
    (0,10) with weights 1, at [t = 3/10]. *)
Lemma rational_agrees_on_unit_weights_witness :
  let points := [wpt 0 0 1; wpt 10 0 1; wpt 10 10 1; wpt 0 10 1] in
  let one := Float64.ofZ 1 in
  let points64 := [wpt64 0 0 one; wpt64 10 0 one; wpt64 10 10 one;
                   wpt64 0 10 one] in
  Bezier.deCasteljau points (ofZ 3 / ofZ 10)
  = option_map Bezier.finiteXY
               (Bezier.deCasteljauSimple points (ofZ 3 / ofZ 10)) /\
  Bezier.generateBezierCurve points 10 true
  = Bezier.sampleLoop Bezier.deCasteljau points 10 /\
  Float64.lerp (Float64.fdiv (Float64.ofNat 3) (Float64.ofNat 10))
               (Float64.ofZ 1) (Float64.ofZ 1)
  = Float64.ofZ 1.
Proof.
  intros points one points64.
  destruct (@rational_agrees_on_unit_weights points points64)
    as [E [_ [G [_ U]]]].
  - repeat constructor.
  - repeat constructor.
  - split; [|split].
    + apply E. split; vm_compute; discriminate.
    + apply (G 10%nat true).
    + apply U; lia.
Defined.

(** C5 fails outside the interval in double precision: on the points
    (3,0) and (5,0) with weights 1, at [t = -1.3], the rational
    evaluator returns x = 0.39999999999999958 and the non-rational one
    x = 0.39999999999999947. *)
Lemma unit_weights_differ_outside_interval :
  let points := [wpt64 3 0 (Float64.ofZ 1); wpt64 5 0 (Float64.ofZ 1)] in
  let t := Float64.fdiv (Float64.ofZ (-13)) (Float64.ofZ 10) in
  Bezier64.deCasteljau points t
  = Some (xy64 (Float64.scaled 7205759403792786 (-54)) (Float64.ofZ 0)) /\
  Bezier64.deCasteljauSimple points t
  = Some (xy64 (Float64.scaled 7205759403792784 (-54)) (Float64.ofZ 0)) /\
  Bezier64.deCasteljau points t <> Bezier64.deCasteljauSimple points t.
Proof.
  cbv zeta. split; [vm_compute; reflexivity|].
  split; [vm_compute; reflexivity|].
  intros H; vm_compute in H; discriminate H.
Qed.

(** Scenario B in double precision, at [t = 0.3]: the two evaluators
    return the same doubles; and at every [t = i / steps] for up to 100
    steps the weight that the rational evaluator carries stays 1. *)
Example scenario_B_in_doubles :
  let one := Float64.ofZ 1 in
  let points := [wpt64 0 0 one; wpt64 10 0 one; wpt64 10 10 one;
                 wpt64 0 10 one] in
  let t := Float64.fdiv (Float64.ofZ 3) (Float64.ofZ 10) in
  Bezier64.deCasteljau points t = Bezier64.deCasteljauSimple points t /\
  forallb unitWeightCheck (seq 1 100) = true.
Proof. cbv zeta. split; vm_compute; reflexivity. Qed.




(** The evaluator of C4 is the non-rational one.  [elevateBezierDegree]
    copies the weights instead of blending them, so with unequal weights
    the rational evaluator does not give the same curve: on (0,0) of
    weight 1 and (1,0) of weight 2, at [t = 0.5], the curve is at
    x = 2/3 and the elevated one at x = 4/7, each rounded to a double. *)
Example elevate_rational_unequal_weights :
  let points := [wpt64 0 0 (Float64.ofZ 1); wpt64 1 0 (Float64.ofZ 2)] in
  let t := Float64.fdiv (Float64.ofZ 1) (Float64.ofZ 2) in
  Bezier64.deCasteljau points t
  = Some (xy64 (Float64.fdiv (Float64.ofZ 2) (Float64.ofZ 3))
               (Float64.ofZ 0)) /\
  Bezier64.deCasteljau (Bezier64.elevateBezierDegree points) t
  = Some (xy64 (Float64.fdiv (Float64.ofZ 4) (Float64.ofZ 7))
               (Float64.ofZ 0)).
Proof. cbv zeta. split; vm_compute; reflexivity. Qed.

(** C10.  For every degree of 1 or more and every [n >= degree + 1], the
    knot-vector constructor of Questao 01 and that of Questao 02 return
    the same list, of [n + degree + 1] knots. *)
Theorem knot_vector_constructors_agree (n degree : nat) :
  (1 <= degree)%nat -> (degree + 1 <= n)%nat ->
  Spline.generateKnotVector n degree = Curve2D.generateKnotVector n degree /\
  length (Spline.generateKnotVector n degree) = (n + degree + 1)%nat.
Proof.
  intros _ Hn. split.
  - now apply knot_vectors_equal.
  - apply generateKnotVector_length.
Qed.

Lemma knot_vector_constructors_agree_witness :
  Spline.generateKnotVector 5 3 = Curve2D.generateKnotVector 5 3 /\
  length (Spline.generateKnotVector 5 3) = 9%nat.
Proof. apply (@knot_vector_constructors_agree 5 3); lia. Defined.

(** C1.  At the last knot of the domain, [t = knots[n]], the basis
    functions of the clamped-uniform knot vector sum to 0, not to 1, for
    every degree 1..5 and every [n] from [degree + 1] to 12, with either
    copy of [bSplineBasis]. *)
Theorem basis_sum_at_last_knot (degree n : nat) :
  (1 <= degree <= 5)%nat -> (degree + 1 <= n <= 12)%nat ->
  let knots := Spline.generateKnotVector n degree in
  let t := Spline.knot knots n in
  t = Some (ofZ (Z.of_nat n - Z.of_nat degree)) /\
  basisSum Spline.bSplineBasis n degree t knots = Some 0 /\
  basisSum Curve2D.bSplineBasis n degree t knots = Some 0 /\
  Some 0 <> Some 1.
Proof.
  intros Hd Hn knots t.
  pose proof (lastKnotCheck_range Hd Hn) as H.
  unfold lastKnotCheck in H. apply andb_true_iff in H as [H1 H2].
  apply num_eqb_eq in H1, H2. fold knots in H1, H2. fold t in H2.
  repeat split.
  - exact H1.
  - exact H2.
  - rewrite basisSum_copies. exact H2.
  - discriminate.
Qed.

Lemma basis_sum_at_last_knot_witness :
  let knots := Spline.generateKnotVector 2 1 in
  Spline.knot knots 2 = Some (ofZ 1) /\
  basisSum Spline.bSplineBasis 2 1 (Spline.knot knots 2) knots = Some 0 /\
  basisSum Curve2D.bSplineBasis 2 1 (Spline.knot knots 2) knots = Some 0 /\
  Some 0 <> Some 1.
Proof. apply (@basis_sum_at_last_knot 1 2); lia. Defined.

(** C3.  A degree-1 curve on three control points, its knot vector
    [0 0 1 2 2], and the knot 1/2 inside the domain: [insertKnot] returns
    three control points, not four, and at [t = 3/4] the refined curve is
    at (5/4, 1/4) while the curve is at (3/4, 3/4). *)
Theorem insertKnot_moves_curve :
  let controlPoints := [xy 0 0; xy 1 1; xy (ofZ 2) 0] in
  let knots := Spline.generateKnotVector 3 1 in
  let newKnot := 1 / ofZ 2 in
  let newPoints := [xy 0 0; xy (1 / ofZ 2) (1 / ofZ 2); xy (ofZ 2) 0] in
  let newKnots := [0; 0; 1 / ofZ 2; 1; ofZ 2; ofZ 2] in
  let t := Some (ofZ 3 / ofZ 4) in
  knots = [0; 0; 1; ofZ 2; ofZ 2] /\
  Spline.insertKnot controlPoints knots 1 newKnot = Some (newPoints, newKnots) /\
  Spline.evaluateBSpline controlPoints t 1 knots
  = Some (xy (ofZ 3 / ofZ 4) (ofZ 3 / ofZ 4)) /\
  Spline.evaluateBSpline newPoints t 1 newKnots
  = Some (xy (ofZ 5 / ofZ 4) (1 / ofZ 4)).
Proof.
  cbv zeta. split; [|split; [|split]].
  - apply (list_eqb_eq Qc_eqb (fun a b => proj1 (Qc_eqb_eq a b))).
    vm_compute. reflexivity.
  - apply refined_eqb_eq. vm_compute. reflexivity.
  - apply opt_xy_eqb_eq. vm_compute. reflexivity.
  - apply opt_xy_eqb_eq. vm_compute. reflexivity.
Qed.




(** C9, as the code has it.  [findPointNear] of controlPoints.js returns
    the highest index of a point within the threshold, and
    [findPointAt] of Questao 02 the lowest one; both return -1 when no
    point is within the threshold. *)
Theorem findNear_scan_orders (points : list Bezier.Point)
  (profile : list Curve2D.Point) (x0 y0 threshold : Qc) :
  let r := ControlPoints.findPointNear points x0 y0 threshold in
  let r2 := Curve2D.findPointAt profile x0 y0 threshold in
  ((r = (-1)%Z /\
    forall j q, nth_error points j = Some q ->
                ControlPoints.isNear q x0 y0 threshold = false)
   \/
   (exists i p, r = Z.of_nat i /\ nth_error points i = Some p /\
                ControlPoints.isNear p x0 y0 threshold = true /\
                forall j q, (i < j)%nat -> nth_error points j = Some q ->
                            ControlPoints.isNear q x0 y0 threshold = false))
  /\
  ((r2 = (-1)%Z /\
    forall j q, nth_error profile j = Some q ->
                Curve2D.isAt q x0 y0 threshold = false)
   \/
   (exists i p, r2 = Z.of_nat i /\ nth_error profile i = Some p /\
                Curve2D.isAt p x0 y0 threshold = true /\
                forall j q, (j < i)%nat -> nth_error profile j = Some q ->
                            Curve2D.isAt q x0 y0 threshold = false)).
Proof.
  intros r r2. split.
  - subst r. unfold ControlPoints.findPointNear.
    destruct (findPointNear_loop_spec points x0 y0 threshold (length points))
      as [[Hr Hall]|[i [p [Hr [Hi [Hp [Hn Hall]]]]]]].
    + left. split; [exact Hr|]. intros j q Hq. apply (Hall j); [|exact Hq].
      apply nth_error_Some. congruence.
    + right. exists i, p. repeat split; auto.
      intros j q Hj Hq. apply (Hall j); [|exact Hq].
      split; [exact Hj|]. apply nth_error_Some. congruence.
  - subst r2. unfold Curve2D.findPointAt.
    destruct (findPointAt_loop_spec x0 y0 threshold profile 0)
      as [[Hr Hall]|[k [p [Hr [Hp [Hn Hall]]]]]].
    + left. split; [exact Hr | exact Hall].
    + right. exists k, p. repeat split; auto.
Qed.

(** The example of the specification: on (0,0), (100,100), the query
    (1,1) with threshold 10 gives index 0 and the query (200,200)
    gives -1. *)
Lemma findNear_scan_orders_witness :
  ControlPoints.findPointNear [pt 0 0; pt 100 100] 1 1 (ofZ 10) = 0%Z /\
  Curve2D.findPointAt [pt2 0 0; pt2 100 100] (ofZ 200) (ofZ 200) (ofZ 10)
  = (-1)%Z.
Proof.
  split.
  - destruct (findNear_scan_orders [pt 0 0; pt 100 100] [] 1 1 (ofZ 10))
      as [[[Hr Hall]|[i [p [Hr [Hp [Hn Hall]]]]]] _].
    + specialize (Hall 0%nat (pt 0 0) eq_refl).
      vm_compute in Hall. discriminate Hall.
    + rewrite Hr. destruct i as [|[|i]].
      * reflexivity.
      * injection Hp as <-. vm_compute in Hn. discriminate Hn.
      * destruct i; discriminate Hp.
  - destruct (findNear_scan_orders [] [pt2 0 0; pt2 100 100]
                (ofZ 200) (ofZ 200) (ofZ 10))
      as [_ [[Hr Hall]|[i [p [Hr [Hp [Hn Hall]]]]]]].
    + exact Hr.
    + destruct i as [|[|i]].
      * injection Hp as <-. vm_compute in Hn. discriminate Hn.
      * injection Hp as <-. vm_compute in Hn. discriminate Hn.
      * destruct i; discriminate Hp.
Defined.

(** C9 fails on [findPointAt]: with two points within the threshold it
    returns index 0, not the highest index 1. *)
Lemma findPointAt_returns_lowest :
  Curve2D.isAt (pt2 1 1) 0 0 (ofZ 10) = true /\
  Curve2D.findPointAt [pt2 0 0; pt2 1 1] 0 0 (ofZ 10) = 0%Z /\
  ControlPoints.findPointNear [pt 0 0; pt 1 1] 0 0 (ofZ 10) = 1%Z.
Proof. split; [|split]; vm_compute; reflexivity. Qed.




(** The rounding of [calculateNormals] alone: the normal accumulated on
    the one face of the vertices (0,0,0), (1,2,1), (-5,-3,0) is
    (3,-5,7); after the division by its computed length the sum of the
    squares, computed the same way, has the root 0.9999999999999999. *)
Example normal_of_one_face_is_rounded :
  let v (a b c : Z) :=
    Revolution64.mkVec3 (Float64.ofZ a) (Float64.ofZ b) (Float64.ofZ c) in
  let vertices := [v 0 0 0; v 1 2 1; v (-5) (-3) 0]%Z in
  Revolution64.accumulatedNormals vertices [(0, 1, 2)%nat]
  = Some [v 3 (-5) 7; v 3 (-5) 7; v 3 (-5) 7]%Z /\
  Revolution64.computedLength (Revolution64.normalize (v 3 (-5) 7)%Z)
  = Float64.scaled 9007199254740991 (-53).
Proof. cbv zeta. split; vm_compute; reflexivity. Qed.

(** C7, as the code has it.  Called with a profile of fewer than 2
    points, [generate] writes the warning and returns with the surface
    as it was: on a new surface there are then no vertices, no faces and
    no normals. *)
Theorem generate_short_profile_keeps_surface
  (s : Revolution.RevolutionSurface) (profile : list Revolution.Vec2)
  (axis : Revolution.Axis) (angle : R) (subdivisions : nat) :
  (length profile < 2)%nat ->
  Revolution.generate s profile axis angle subdivisions
  = Some (s, [Console.warnProfile]) /\
  Revolution.createRevolutionSurface profile axis angle subdivisions
  = Some (Revolution.mkSurface [] [] [] None, [Console.warnProfile]).
Proof.
  intros H. split.
  - now apply generate_short_profile.
  - unfold Revolution.createRevolutionSurface.
    now rewrite generate_short_profile.
Qed.

Lemma generate_short_profile_keeps_surface_witness :
  let profile := [Revolution.mkVec2 10 0] in
  Revolution.generate Revolution.newSurface profile Revolution.AxisY 360%R 4
  = Some (Revolution.newSurface, [Console.warnProfile]) /\
  Revolution.createRevolutionSurface profile Revolution.AxisY 360%R 4
  = Some (Revolution.mkSurface [] [] [] None, [Console.warnProfile]).
Proof.
  intros profile.
  apply (@generate_short_profile_keeps_surface Revolution.newSurface profile
           Revolution.AxisY 360%R 4).
  simpl. lia.
Defined.

(** C7 fails on a surface that holds a mesh: after a mesh of 4 vertices
    is generated, a call with an empty profile leaves the 4 vertices. *)
Lemma generate_short_profile_keeps_old_mesh :
  let profile := [Revolution.mkVec2 1 0; Revolution.mkVec2 1 1] in
  exists mesh after,
    Revolution.generate Revolution.newSurface profile Revolution.AxisY 360%R 1
    = Some (mesh, []) /\
    Revolution.generate mesh [] Revolution.AxisY 360%R 1
    = Some (after, [Console.warnProfile]) /\
    length (Revolution.vertices after) = 4%nat /\
    Revolution.vertices after <> [].
Proof.
  intros profile.
  destruct (@generate_success Revolution.newSurface profile Revolution.AxisY
              360%R 1) as [mesh [acc [G [V _]]]]; [simpl; lia|].
  exists mesh, mesh. split; [exact G|].
  split; [apply generate_short_profile; simpl; lia|].
  assert (L : length (Revolution.vertices mesh) = 4%nat).
  { rewrite V, generateVertices_length. reflexivity. }
  split; [exact L|]. intros E. rewrite E in L. discriminate L.
Qed.

End Claims.

(* ================================================================== *)
(** * Further properties of the code *)
(* ================================================================== *)

(** ** Rational order *)

Section OrderFacts.
Import JSNum.
Local Open Scope Qc_scope.

Lemma this_plus (a b : Qc) : (this (a + b) == this a + this b)%Q.
Proof. unfold Qcplus. cbn [this Q2Qc]. apply Qred_correct. Qed.

Lemma this_mult (a b : Qc) : (this (a * b) == this a * this b)%Q.
Proof. unfold Qcmult. cbn [this Q2Qc]. apply Qred_correct. Qed.

Lemma this_opp (a : Qc) : (this (- a) == - this a)%Q.
Proof. unfold Qcopp. cbn [this Q2Qc]. apply Qred_correct. Qed.

Lemma this_minus (a b : Qc) : (this (a - b) == this a - this b)%Q.
Proof. unfold Qcminus. rewrite this_plus, this_opp. reflexivity. Qed.

Lemma Qc_leb_false (a b : Qc) : Qc_leb a b = false -> b < a.
Proof.
  unfold Qc_leb. intros H. destruct (a ?= b) eqn:E; try discriminate.
  apply Qcgt_alt in E. exact E.
Qed.


Lemma Qc_min_spec (a b : Qc) :
  Qc_min a b <= a /\ Qc_min a b <= b /\ (Qc_min a b = a \/ Qc_min a b = b).
Proof.
  unfold Qc_min. destruct (Qc_leb a b) eqn:E.
  - apply Qc_leb_le in E. repeat split; auto. apply Qcle_refl.
  - apply Qc_leb_false in E. repeat split; auto.
    + now apply Qclt_le_weak.
    + apply Qcle_refl.
Qed.

Lemma Qc_max_spec (a b : Qc) :
  a <= Qc_max a b /\ b <= Qc_max a b /\ (Qc_max a b = a \/ Qc_max a b = b).
Proof.
  unfold Qc_max. destruct (Qc_leb a b) eqn:E.
  - apply Qc_leb_le in E. repeat split; auto. apply Qcle_refl.
  - apply Qc_leb_false in E. repeat split; auto.
    + apply Qcle_refl.
    + now apply Qclt_le_weak.
Qed.

End OrderFacts.

(** Goals about the order of [Qc], sent to the order of [Q]. *)
Ltac qc_order :=
  unfold Qcle, Qclt in *;
  repeat match goal with
         | H : context [this (_ + _)%Qc] |- _ => rewrite this_plus in H
         | H : context [this (_ * _)%Qc] |- _ => rewrite this_mult in H
         | H : context [this (_ - _)%Qc] |- _ => rewrite this_minus in H
         | H : context [this (- _)%Qc] |- _ => rewrite this_opp in H
         | |- context [this (_ + _)%Qc] => rewrite this_plus
         | |- context [this (_ * _)%Qc] => rewrite this_mult
         | |- context [this (_ - _)%Qc] => rewrite this_minus
         | |- context [this (- _)%Qc] => rewrite this_opp
         end;
  change (this (Q2Qc 0)) with 0%Q in *; change (this (Q2Qc 1)) with 1%Q in *.

(** ** The control-points manager *)

Section ManagerFacts.
Import JSNum Manager.
Import Bezier (Point, mkPoint, x, y, weight, weightOr1).
Local Open Scope Qc_scope.

Lemma inRange_spec m index :
  inRange m index = true <-> (0 <= index < Z.of_nat (length (points m)))%Z.
Proof. unfold inRange. rewrite andb_true_iff. lia. Qed.

Lemma splice1_length {A} (l : list A) i :
  (i < length l)%nat -> length (splice1 i l) = pred (length l).
Proof.
  intros H. unfold splice1.
  rewrite length_app, length_firstn, length_skipn. lia.
Qed.

Lemma splice1_nth {A} (l : list A) i j :
  (i < length l)%nat ->
  nth_error (splice1 i l) j
  = nth_error l (if (j <? i)%nat then j else S j).
Proof.
  intros H. unfold splice1.
  destruct (Nat.ltb_spec j i) as [Hj|Hj].
  - rewrite nth_error_app1 by (rewrite length_firstn; lia).
    rewrite nth_error_firstn.
    destruct (Nat.ltb_spec j i); [reflexivity | lia].
  - rewrite nth_error_app2 by (rewrite length_firstn; lia).
    rewrite length_firstn, nth_error_skipn.
    f_equal. lia.
Qed.

Lemma updateAt_length {A} (f : A -> A) (l : list A) i :
  length (updateAt i f l) = length l.
Proof. revert i. induction l as [|a r IH]; intros [|i]; simpl; auto. Qed.

Lemma updateAt_nth {A} (f : A -> A) (l : list A) i j :
  nth_error (updateAt i f l) j
  = if (j =? i)%nat then option_map f (nth_error l j) else nth_error l j.
Proof.
  revert i j. induction l as [|a r IH]; intros i j.
  - destruct i, j; simpl; try reflexivity. now destruct (j =? i)%nat.
  - destruct i, j; simpl; try reflexivity. apply IH.
Qed.

Lemma getPoint_nth m j :
  getPoint m j
  = if (0 <=? j)%Z then nth_error (points m) (Z.to_nat j) else None.
Proof.
  unfold getPoint, inRange.
  destruct (Z.leb_spec 0 j); simpl; [|reflexivity].
  destruct (Z.ltb_spec j (Z.of_nat (length (points m)))); [reflexivity|].
  symmetry. apply nth_error_None. lia.
Qed.

(** X1.  The selection of a manager is never left on an index without a
    point: every operation keeps it at -1 or at the index of a point. *)
Theorem manager_selection_stays_valid (m : Manager) :
  selectedValid m ->
  (forall x0 y0 w, selectedValid (fst (addPoint m x0 y0 w))) /\
  (forall index, selectedValid (fst (removePoint m index))) /\
  selectedValid (fst (removeLastPoint m)) /\
  selectedValid (clearPoints m) /\
  (forall index x0 y0, selectedValid (fst (movePoint m index x0 y0))) /\
  (forall index w, selectedValid (fst (updateWeight m index w))) /\
  (forall newPoints, selectedValid (setAllPoints m newPoints)) /\
  (forall index, selectedValid (selectPoint m index)) /\
  (forall index, selectedValid (startDragging m index)) /\
  selectedValid (stopDragging m) /\
  (forall index, selectedValid (setHoverPoint m index)) /\
  (forall transform, selectedValid (transformAllPoints m transform)) /\
  (forall scale center, selectedValid (scalePoints m scale center)) /\
  (forall dx dy, selectedValid (translatePoints m dx dy)).
Proof.
  intros Hv.
  assert (Htr : forall transform, selectedValid (transformAllPoints m transform)).
  { intros f. unfold selectedValid, transformAllPoints in *. simpl.
    rewrite length_map. exact Hv. }
  repeat split.
  - intros x0 y0 w. unfold selectedValid, addPoint in *. simpl.
    rewrite length_app. simpl. lia.
  - intros index. unfold removePoint.
    destruct (inRange m index) eqn:E; [|exact Hv].
    apply inRange_spec in E.
    unfold selectedValid in *. simpl.
    rewrite splice1_length by lia.
    destruct (Z.eqb_spec (selectedPointIndex m) index); [now left|].
    destruct (Z.ltb_spec index (selectedPointIndex m)); lia.
  - unfold removeLastPoint.
    destruct (Nat.ltb_spec 0 (length (points m))); [|exact Hv].
    unfold selectedValid in *. simpl.
    destruct (Z.leb_spec (Z.of_nat (length (removelast (points m))))
                         (selectedPointIndex m)); [now left|].
    lia.
  - now left.
  - intros index x0 y0. unfold movePoint.
    destruct (inRange m index); [|exact Hv].
    unfold selectedValid in *. simpl. now rewrite updateAt_length.
  - intros index w. unfold updateWeight.
    destruct (inRange m index); [|exact Hv].
    unfold selectedValid in *. simpl. now rewrite updateAt_length.
  - intros newPoints. now left.
  - intros index. unfold selectPoint.
    destruct (Z.eqb_spec index (-1)); simpl.
    + left. simpl. assumption.
    + destruct (inRange m index) eqn:E; [|exact Hv].
      apply inRange_spec in E. right. simpl. exact E.
  - intros index. unfold startDragging.
    destruct (inRange m index) eqn:E; [|exact Hv].
    apply inRange_spec in E. right. simpl. exact E.
  - exact Hv.
  - intros index. exact Hv.
  - exact Htr.
  - intros scale center. unfold scalePoints.
    destruct center as [c|]; [apply Htr|].
    destruct (getCenter m); [apply Htr | exact Hv].
  - intros dx dy. apply Htr.
Qed.

Lemma manager_selection_stays_valid_witness :
  let m := fst (addPoint newManager 1 1 1) in
  selectedValid (fst (removePoint (startDragging m 0) 0)) /\
  selectedValid (fst (removeLastPoint (selectPoint m 0))).
Proof.
  intros m.
  assert (Hm : selectedValid m) by (left; reflexivity).
  assert (H1 : selectedValid (startDragging m 0)).
  { apply (manager_selection_stays_valid Hm). }
  assert (H2 : selectedValid (selectPoint m 0)).
  { apply (manager_selection_stays_valid Hm). }
  split.
  - apply (manager_selection_stays_valid H1).
  - apply (manager_selection_stays_valid H2).
Defined.

(** X2.  [removePoint] with an index out of range changes nothing and returns
    false.  With an index in range it returns true, there is one point
    less, every other point is found one index lower if it was above the
    removed one and at its index otherwise, and the selection follows
    its point, or becomes -1 if that was the point removed. *)
Theorem removePoint_shifts_points (m : Manager) (index : Z) :
  (inRange m index = false -> removePoint m index = (m, false)) /\
  (inRange m index = true ->
   let m' := fst (removePoint m index) in
   snd (removePoint m index) = true /\
   getPointCount m' = (getPointCount m - 1)%Z /\
   (forall j, (0 <= j)%Z -> j <> index ->
              getPoint m' (shiftedIndex index j) = getPoint m j) /\
   (selectedPointIndex m = index -> selectedPointIndex m' = (-1)%Z) /\
   (selectedPointIndex m <> index ->
    selectedPointIndex m' = shiftedIndex index (selectedPointIndex m))).
Proof.
  split.
  - intros E. unfold removePoint. now rewrite E.
  - intros E m'. subst m'. unfold removePoint. rewrite E. simpl.
    apply inRange_spec in E.
    split; [reflexivity|]. split; [|split; [|split]].
    + unfold getPointCount. simpl. rewrite splice1_length by lia. lia.
    + intros j Hj Hne. rewrite !getPoint_nth. simpl.
      unfold shiftedIndex.
      destruct (Z.ltb_spec index j) as [Hlt|Hge].
      * destruct (Z.leb_spec 0 (j - 1)); [|lia].
        destruct (Z.leb_spec 0 j); [|lia].
        rewrite splice1_nth by lia.
        destruct (Nat.ltb_spec (Z.to_nat (j - 1)) (Z.to_nat index)); [lia|].
        f_equal. lia.
      * destruct (Z.leb_spec 0 j); [|lia].
        rewrite splice1_nth by lia.
        destruct (Nat.ltb_spec (Z.to_nat j) (Z.to_nat index)); [reflexivity|lia].
    + intros Hs. destruct (Z.eqb_spec (selectedPointIndex m) index); [reflexivity|lia].
    + intros Hs. unfold shiftedIndex.
      destruct (Z.eqb_spec (selectedPointIndex m) index); [lia|].
      reflexivity.
Qed.

Lemma removePoint_shifts_points_witness :
  let m := selectPoint (fst (addPoint (fst (addPoint newManager 1 1 1))
                                      (ofZ 2) (ofZ 2) 1)) 1 in
  removePoint m 5 = (m, false) /\
  getPoint (fst (removePoint m 0)) 0 = getPoint m 1 /\
  selectedPointIndex (fst (removePoint m 0)) = 0%Z.
Proof.
  intros m.
  destruct (removePoint_shifts_points m 5) as [H5 _].
  destruct (removePoint_shifts_points m 0) as [_ H0].
  specialize (H0 eq_refl). destruct H0 as [_ [_ [Hj [_ Hs]]]].
  split; [apply H5; reflexivity|].
  split.
  - apply (Hj 1%Z); lia.
  - apply Hs. discriminate.
Defined.

Lemma isNear_self x0 y0 w threshold :
  0 <= threshold ->
  ControlPoints.isNear (mkPoint x0 y0 w) x0 y0 threshold = true.
Proof.
  intros Hth. unfold ControlPoints.isNear, ControlPoints.sqrt_le. simpl.
  apply andb_true_iff. split; apply Qc_leb_le; [exact Hth|].
  replace ((x0 - x0) * (x0 - x0) + (y0 - y0) * (y0 - y0)) with 0 by ring.
  qc_order. nra.
Qed.

(** X3.  A point added with [addPoint] gets the index the count had, is what
    [getPoint] returns there, and is what [findPointNear] finds at its
    own coordinates for every threshold that is not negative; the
    points that were there keep their indices. *)
Theorem addPoint_then_find (m : Manager) (x0 y0 w threshold : Qc) :
  0 <= threshold ->
  let m' := fst (addPoint m x0 y0 w) in
  let index := snd (addPoint m x0 y0 w) in
  index = getPointCount m /\
  getPoint m' index = Some (mkPoint x0 y0 (Some w)) /\
  findPointNear m' x0 y0 threshold = index /\
  forall j p, getPoint m j = Some p -> getPoint m' j = Some p.
Proof.
  intros Hth m' index. subst m' index. unfold addPoint. simpl.
  assert (Hi : (Z.of_nat (length (points m ++ [mkPoint x0 y0 (Some w)])) - 1
                = Z.of_nat (length (points m)))%Z).
  { rewrite length_app. simpl. lia. }
  rewrite Hi.
  split; [reflexivity|]. split; [|split].
  - rewrite getPoint_nth. simpl.
    destruct (Z.leb_spec 0 (Z.of_nat (length (points m)))); [|lia].
    rewrite Nat2Z.id, nth_error_app2 by lia.
    now rewrite Nat.sub_diag.
  - unfold findPointNear, ControlPoints.findPointNear. simpl.
    rewrite length_app. simpl. rewrite Nat.add_1_r.
    cbn [ControlPoints.findPointNear_loop].
    rewrite nth_error_app2 by lia. rewrite Nat.sub_diag. simpl.
    now rewrite isNear_self.
  - intros j p Hp. rewrite getPoint_nth in *. simpl.
    destruct (0 <=? j)%Z; [|discriminate].
    rewrite nth_error_app1; [exact Hp|].
    apply nth_error_Some. congruence.
Qed.

Lemma addPoint_then_find_witness :
  let m := fst (addPoint newManager 0 0 1) in
  snd (addPoint m 1 1 1) = 1%Z /\
  findPointNear (fst (addPoint m 1 1 1)) 1 1 (ofZ 10) = 1%Z.
Proof.
  intros m.
  destruct (@addPoint_then_find m 1 1 1 (ofZ 10)) as [H1 [_ [H3 _]]].
  - unfold Qcle. simpl. unfold Qle. simpl. lia.
  - split; [exact H1|]. rewrite H3. exact H1.
Defined.

(** X4.  [updateWeight] with an index in range gives the point the weight
    [max(0.1, weight)], which is at least 0.1, keeps its coordinates and
    leaves the other points as they were; with an index out of range it
    changes nothing and returns false. *)
Theorem updateWeight_clamps (m : Manager) (index : Z) (w : Qc) :
  (inRange m index = false -> updateWeight m index w = (m, false)) /\
  (forall p, getPoint m index = Some p ->
     let m' := fst (updateWeight m index w) in
     snd (updateWeight m index w) = true /\
     (exists w', getPoint m' index = Some (mkPoint (x p) (y p) (Some w')) /\
                 1 / ofZ 10 <= w' /\ w <= w' /\ (w' = w \/ w' = 1 / ofZ 10)) /\
     forall j, j <> index -> getPoint m' j = getPoint m j).
Proof.
  split.
  - intros E. unfold updateWeight. now rewrite E.
  - intros p Hp m'. subst m'.
    assert (E : inRange m index = true).
    { unfold getPoint in Hp. destruct (inRange m index); [reflexivity|discriminate]. }
    unfold updateWeight. rewrite E. simpl.
    pose proof E as E'. apply inRange_spec in E'.
    split; [reflexivity|]. split.
    + exists (Qc_max (1 / ofZ 10) w).
      destruct (Qc_max_spec (1 / ofZ 10) w) as [M1 [M2 M3]].
      split; [|split; [exact M1 | split; [exact M2 | tauto]]].
      rewrite getPoint_nth in *. simpl.
      destruct (0 <=? index)%Z; [|discriminate].
      rewrite updateAt_nth, Nat.eqb_refl, Hp. reflexivity.
    + intros j Hj. rewrite !getPoint_nth. simpl.
      destruct (Z.leb_spec 0 j); [|reflexivity].
      rewrite updateAt_nth.
      destruct (Nat.eqb_spec (Z.to_nat j) (Z.to_nat index)); [lia|reflexivity].
Qed.

Lemma updateWeight_clamps_witness :
  let m := fst (addPoint newManager 1 1 1) in
  updateWeight m 3 0 = (m, false) /\
  exists w', getPoint (fst (updateWeight m 0 0)) 0
             = Some (mkPoint 1 1 (Some w')) /\ 1 / ofZ 10 <= w'.
Proof.
  intros m.
  destruct (updateWeight_clamps m 3 0) as [H3 _].
  destruct (updateWeight_clamps m 0 0) as [_ H0].
  destruct (H0 (mkPoint 1 1 (Some 1)) eq_refl) as [_ [[w' [G [L _]]] _]].
  split; [apply H3; reflexivity|].
  exists w'. split; [exact G | exact L].
Defined.

(** X5.  [movePoint] with an index in range gives the point its new
    coordinates, keeps its weight and leaves the other points as they
    were; with an index out of range it changes nothing and returns
    false. *)
Theorem movePoint_moves_one_point (m : Manager) (index : Z) (x0 y0 : Qc) :
  (inRange m index = false -> movePoint m index x0 y0 = (m, false)) /\
  (forall p, getPoint m index = Some p ->
     let m' := fst (movePoint m index x0 y0) in
     snd (movePoint m index x0 y0) = true /\
     getPoint m' index = Some (mkPoint x0 y0 (weight p)) /\
     forall j, j <> index -> getPoint m' j = getPoint m j).
Proof.
  split.
  - intros E. unfold movePoint. now rewrite E.
  - intros p Hp m'. subst m'.
    assert (E : inRange m index = true).
    { unfold getPoint in Hp. destruct (inRange m index); [reflexivity|discriminate]. }
    unfold movePoint. rewrite E. simpl.
    pose proof E as E'. apply inRange_spec in E'.
    split; [reflexivity|]. split.
    + rewrite getPoint_nth in *. simpl.
      destruct (0 <=? index)%Z; [|discriminate].
      rewrite updateAt_nth, Nat.eqb_refl, Hp. reflexivity.
    + intros j Hj. rewrite !getPoint_nth. simpl.
      destruct (Z.leb_spec 0 j); [|reflexivity].
      rewrite updateAt_nth.
      destruct (Nat.eqb_spec (Z.to_nat j) (Z.to_nat index)); [lia|reflexivity].
Qed.

Lemma movePoint_moves_one_point_witness :
  let m := fst (addPoint newManager 1 1 (ofZ 2)) in
  movePoint m (-1) 0 0 = (m, false) /\
  getPoint (fst (movePoint m 0 (ofZ 5) (ofZ 7))) 0
  = Some (mkPoint (ofZ 5) (ofZ 7) (Some (ofZ 2))).
Proof.
  intros m.
  destruct (movePoint_moves_one_point m (-1) 0 0) as [H1 _].
  destruct (movePoint_moves_one_point m 0 (ofZ 5) (ofZ 7)) as [_ H0].
  destruct (H0 (mkPoint 1 1 (Some (ofZ 2))) eq_refl) as [_ [G _]].
  split; [apply H1; reflexivity | exact G].
Defined.

End ManagerFacts.

(** ** Scaling and the bounding box *)

Section GeometryFacts.
Import JSNum Manager.
Import Bezier (Point, mkPoint, x, y, weight).
Local Open Scope Qc_scope.

(** X7.  [scalePoints(scale, center)] moves every point [p] to
    [c + (p - c) * scale], coordinate by coordinate, and keeps its
    weight, the number of points and the selection; a point that is at
    [c] stays where it is.  When no centre is given, [c] is the centre
    that [getCenter] returns; on a manager without points there is
    none, and nothing changes. *)
Theorem scalePoints_scales_about_center (m : Manager) (scale : Qc) :
  (forall c,
      let m' := scalePoints m scale (Some c) in
      points m'
      = map (fun p => mkPoint (x c + (x p - x c) * scale)
                              (y c + (y p - y c) * scale) (weight p))
            (points m) /\
      selectedPointIndex m' = selectedPointIndex m /\
      isDragging m' = isDragging m /\
      hoverPointIndex m' = hoverPointIndex m /\
      forall i p, nth_error (points m) i = Some p ->
                  x p = x c -> y p = y c ->
                  nth_error (points m') i = Some p) /\
  (forall c, getCenter m = Some c ->
             scalePoints m scale None = scalePoints m scale (Some c)) /\
  (points m = [] -> scalePoints m scale None = m).
Proof.
  split; [|split].
  - intros c m'. subst m'. unfold scalePoints, transformAllPoints.
    cbn [points selectedPointIndex isDragging hoverPointIndex x y].
    repeat split.
    intros i p Hi Hx Hy. rewrite nth_error_map, Hi. cbn [option_map].
    destruct p as [px py pw]. cbn [x y weight] in *. subst px py.
    f_equal. f_equal; ring.
  - intros c Hc. unfold scalePoints. now rewrite Hc.
  - intros E. unfold scalePoints, getCenter. now rewrite E.
Qed.

Lemma scalePoints_scales_about_center_witness :
  let m := fst (addPoint (fst (addPoint newManager 0 0 1)) (ofZ 2) (ofZ 4) 1) in
  scalePoints m (ofZ 3) None
  = scalePoints m (ofZ 3)
      (Some (mkPoint ((0 + 0 + ofZ 2) / ofNat 2) ((0 + 0 + ofZ 4) / ofNat 2)
                     None)) /\
  scalePoints newManager (ofZ 3) None = newManager.
Proof.
  intros m.
  destruct (scalePoints_scales_about_center m (ofZ 3)) as [_ [H _]].
  destruct (scalePoints_scales_about_center newManager (ofZ 3))
    as [_ [_ H0]].
  split; [apply H; reflexivity | apply H0; reflexivity].
Defined.

(** *** The bounding box *)

Lemma box_fold l : forall b,
  fold_left
    (fun b p => mkBox (extMin (minX b) (x p)) (extMin (minY b) (y p))
                      (extMax (maxX b) (x p)) (extMax (maxY b) (y p)))
    l b
  = mkBox (minOf x l (minX b)) (minOf y l (minY b))
          (maxOf x l (maxX b)) (maxOf y l (maxY b)).
Proof.
  unfold minOf, maxOf. induction l as [|p r IH]; intros b.
  - now destruct b.
  - simpl. now rewrite IH.
Qed.

Lemma minOf_Fin f l : forall a0,
  exists a, minOf f l (Fin a0) = Fin a /\ a <= a0 /\
            (forall p, In p l -> a <= f p) /\
            (a = a0 \/ exists p, In p l /\ f p = a).
Proof.
  unfold minOf. induction l as [|p r IH]; intros a0.
  - exists a0. repeat split; auto. apply Qcle_refl. intros p [].
  - simpl. destruct (IH (Qc_min a0 (f p))) as [a [E [L [B W]]]].
    destruct (Qc_min_spec a0 (f p)) as [M1 [M2 M3]].
    exists a. split; [exact E|]. split; [eapply Qcle_trans; eauto|].
    split.
    + intros q [<-|Hq]; [eapply Qcle_trans; eauto | now apply B].
    + destruct W as [->|[q [Hq Eq]]].
      * destruct M3 as [->| ->]; [now left|].
        right. exists p. split; [now left | reflexivity].
      * right. exists q. split; [now right | exact Eq].
Qed.

Lemma maxOf_Fin f l : forall a0,
  exists a, maxOf f l (Fin a0) = Fin a /\ a0 <= a /\
            (forall p, In p l -> f p <= a) /\
            (a = a0 \/ exists p, In p l /\ f p = a).
Proof.
  unfold maxOf. induction l as [|p r IH]; intros a0.
  - exists a0. repeat split; auto. apply Qcle_refl. intros p [].
  - simpl. destruct (IH (Qc_max a0 (f p))) as [a [E [L [B W]]]].
    destruct (Qc_max_spec a0 (f p)) as [M1 [M2 M3]].
    exists a. split; [exact E|]. split; [eapply Qcle_trans; eauto|].
    split.
    + intros q [<-|Hq]; [eapply Qcle_trans; eauto | now apply B].
    + destruct W as [->|[q [Hq Eq]]].
      * destruct M3 as [->| ->]; [now left|].
        right. exists p. split; [now left | reflexivity].
      * right. exists q. split; [now right | exact Eq].
Qed.

Lemma minOf_PosInf f p l :
  exists a, minOf f (p :: l) PosInf = Fin a /\
            (forall q, In q (p :: l) -> a <= f q) /\
            (exists q, In q (p :: l) /\ f q = a).
Proof.
  destruct (minOf_Fin f l (f p)) as [a [E [L [B W]]]].
  exists a. split; [exact E|]. split.
  - intros q [<-|Hq]; [exact L | now apply B].
  - destruct W as [->|[q [Hq Eq]]].
    + exists p. split; [now left | reflexivity].
    + exists q. split; [now right | exact Eq].
Qed.

Lemma maxOf_NegInf f p l :
  exists a, maxOf f (p :: l) NegInf = Fin a /\
            (forall q, In q (p :: l) -> f q <= a) /\
            (exists q, In q (p :: l) /\ f q = a).
Proof.
  destruct (maxOf_Fin f l (f p)) as [a [E [L [B W]]]].
  exists a. split; [exact E|]. split.
  - intros q [<-|Hq]; [exact L | now apply B].
  - destruct W as [->|[q [Hq Eq]]].
    + exists p. split; [now left | reflexivity].
    + exists q. split; [now right | exact Eq].
Qed.

Lemma boundingBox_spec (m : Manager) :
  points m <> [] ->
  exists a b c d,
     getBoundingBox m = Some (mkBox (Fin a) (Fin b) (Fin c) (Fin d)) /\
     insideBox a b c d (points m) /\
     (exists p, In p (points m) /\ x p = a) /\
     (exists p, In p (points m) /\ y p = b) /\
     (exists p, In p (points m) /\ x p = c) /\
     (exists p, In p (points m) /\ y p = d).
Proof.
  intros Hne. unfold getBoundingBox.
  destruct (points m) as [|p r] eqn:E; [congruence|].
  rewrite box_fold. cbn [minX minY maxX maxY].
  destruct (minOf_PosInf x p r) as [a [Ea [Ba Wa]]].
  destruct (minOf_PosInf y p r) as [b [Eb [Bb Wb]]].
  destruct (maxOf_NegInf x p r) as [c [Ec [Bc Wc]]].
  destruct (maxOf_NegInf y p r) as [d [Ed [Bd Wd]]].
  exists a, b, c, d. rewrite Ea, Eb, Ec, Ed.
  split; [reflexivity|]. split; [|tauto].
  intros q Hq. repeat split; auto.
Qed.

(** X8.  [getBoundingBox] returns [null] exactly when there is no point.
    Otherwise its four bounds are finite, every point lies between
    them, and each bound is the coordinate of some point. *)
Theorem getBoundingBox_is_tight (m : Manager) :
  (getBoundingBox m = None <-> points m = []) /\
  (points m <> [] ->
   exists a b c d,
     getBoundingBox m = Some (mkBox (Fin a) (Fin b) (Fin c) (Fin d)) /\
     insideBox a b c d (points m) /\
     (exists p, In p (points m) /\ x p = a) /\
     (exists p, In p (points m) /\ y p = b) /\
     (exists p, In p (points m) /\ x p = c) /\
     (exists p, In p (points m) /\ y p = d)).
Proof.
  split.
  - unfold getBoundingBox. destruct (points m); split; intros; congruence.
  - apply boundingBox_spec.
Qed.

Lemma getBoundingBox_is_tight_witness :
  let m := fst (addPoint (fst (addPoint newManager 0 (ofZ 5) 1)) (ofZ 2) 1 1) in
  exists a b c d,
    getBoundingBox m = Some (mkBox (Fin a) (Fin b) (Fin c) (Fin d)) /\
    insideBox a b c d (points m).
Proof.
  intros m.
  destruct (getBoundingBox_is_tight m) as [_ H].
  destruct H as [a [b [c [d [E [I _]]]]]]; [discriminate|].
  exists a, b, c, d. split; [exact E | exact I].
Defined.

End GeometryFacts.

(** ** Derivative, subdivision and the Bernstein form *)

Section BezierToolsFacts.
Import JSNum Bezier BezierTools.
Local Open Scope Qc_scope.

(** *** The derivative *)

Lemma deCasteljauSimple_hd points t d :
  points <> [] ->
  deCasteljauSimple points t
  = Some (strip (hd d (deCasteljauSimple_loop t points))).
Proof.
  intros Hne. destruct points as [|p [|q r]]; [congruence| |].
  - rewrite simple_loop_short by (simpl; lia). reflexivity.
  - unfold deCasteljauSimple.
    pose proof (simple_loop_exit t (p :: q :: r)) as E.
    destruct (deCasteljauSimple_loop t (p :: q :: r)) as [|f fs];
      [simpl in E; lia | reflexivity].
Qed.

Lemma loop_nonempty t l : l <> [] -> deCasteljauSimple_loop t l <> [].
Proof.
  intros Hne E. pose proof (simple_loop_exit t l) as H. rewrite E in H.
  destruct l; [congruence | simpl in H; lia].
Qed.

(** X10.  In double precision: with fewer than two points
    [bezierDerivative] returns (0, 0).  With two points or more, of
    degree [n], whose derivative control points [n * (P(i+1) - P(i))]
    are finite doubles other than -0, it returns at [t = 0] the first of
    them, [n * (P1 - P0)], and at [t = 1] the last one. *)
Theorem bezierDerivative_at_ends (points : list Bezier64.Point) :
  ((length points < 2)%nat ->
   forall t, Bezier64.bezierDerivative points t
             = Some (xy64 (Float64.ofZ 0) (Float64.ofZ 0))) /\
  ((2 <= length points)%nat ->
   Forall regularXY (map Bezier64.xyOf (Bezier64.derivativePoints points)) ->
   forall d,
     let n := Float64.ofNat (length points - 1) in
     let p0 := nth 0 points d in
     let p1 := nth 1 points d in
     let q0 := last (removelast points) d in
     let q1 := last points d in
     Bezier64.bezierDerivative points (Float64.ofZ 0)
     = Some (xy64 (Float64.fmul n (Float64.fsub (Bezier64.x p1) (Bezier64.x p0)))
                  (Float64.fmul n (Float64.fsub (Bezier64.y p1) (Bezier64.y p0)))) /\
     Bezier64.bezierDerivative points (Float64.ofZ 1)
     = Some (xy64 (Float64.fmul n (Float64.fsub (Bezier64.x q1) (Bezier64.x q0)))
                  (Float64.fmul n (Float64.fsub (Bezier64.y q1) (Bezier64.y q0))))).
Proof.
  split.
  { intros H t. unfold Bezier64.bezierDerivative.
    destruct (Nat.ltb_spec (length points) 2); [reflexivity | lia]. }
  intros H HP d n p0 p1 q0 q1.
  unfold Bezier64.bezierDerivative.
  destruct (Nat.ltb_spec (length points) 2) as [L|_]; [lia|].
  remember (length points - 1)%nat as m eqn:Hm.
  destruct m as [|m]; [lia|].
  assert (Hne : Bezier64.derivativePoints points <> []).
  { unfold Bezier64.derivativePoints. rewrite <- Hm. discriminate. }
  destruct (@b64_simple_ends (Bezier64.derivativePoints points) d Hne HP)
    as [E0 E1].
  rewrite E0, E1. clear E0 E1 HP Hne.
  unfold Bezier64.derivativePoints. rewrite <- Hm.
  set (dflt := Bezier64.mkPoint Float64.nan Float64.nan None).
  rewrite last_map_seq. cbn [seq map hd]. unfold Bezier64.xyOf, xy64.
  cbn [Bezier64.x Bezier64.y].
  subst n p0 p1 q0 q1.
  assert (Hl : length points = S (S m)) by lia.
  rewrite !(nth_indep points dflt d) by lia.
  replace (m + 1)%nat with (length points - 1)%nat by lia.
  rewrite (@nth_pred_last _ points d d)
    by (destruct points; [simpl in H; lia | discriminate]).
  assert (Q0 : nth m points d = last (removelast points) d).
  { rewrite <- (@nth_pred_last _ (removelast points) d d).
    - rewrite removelast_length, Hl. cbn [pred Nat.sub].
      rewrite Nat.sub_0_r. symmetry. apply nth_removelast. lia.
    - destruct points as [|a [|b r]]; try (simpl in H; lia). discriminate. }
  rewrite Q0. split; reflexivity.
Qed.

Lemma bezierDerivative_at_ends_witness :
  Bezier64.bezierDerivative [pt64 0 0; pt64 1 2; pt64 3 0] (Float64.ofZ 0)
  = Some (xy64 (Float64.ofZ 2) (Float64.ofZ 4)) /\
  Bezier64.bezierDerivative [pt64 0 0; pt64 1 2; pt64 3 0] (Float64.ofZ 1)
  = Some (xy64 (Float64.ofZ 4) (Float64.ofZ (-4))) /\
  Bezier64.bezierDerivative [pt64 0 0] (Float64.ofZ 1)
  = Some (xy64 (Float64.ofZ 0) (Float64.ofZ 0)).
Proof.
  destruct (bezierDerivative_at_ends [pt64 0 0; pt64 1 2; pt64 3 0])
    as [_ H].
  destruct (H ltac:(simpl; lia) ltac:(repeat constructor) (pt64 0 0))
    as [H0 H1].
  destruct (bezierDerivative_at_ends [pt64 0 0]) as [H2 _].
  split; [exact H0|]. split; [exact H1|]. apply H2. simpl; lia.
Defined.

(** *** Subdivision *)

Lemma splitRound_length t l : length (splitRound t l) = pred (length l).
Proof. induction l as [|a [|b l'] IH]; simpl in *; auto. Qed.

Lemma splitRound_strip t l : map strip (splitRound t l) = lerpRound t l.
Proof.
  induction l as [|a [|b r] IH]; try reflexivity.
  change (splitRound t (a :: b :: r))
    with (mkPoint ((1 - t) * x a + t * x b) ((1 - t) * y a + t * y b) (weight a)
          :: splitRound t (b :: r)).
  rewrite lerpRound_cons. cbn [map]. now rewrite IH.
Qed.

Lemma lerpRound_strip t l : lerpRound t (map strip l) = lerpRound t l.
Proof.
  induction l as [|a [|b r] IH]; try reflexivity.
  change (map strip (a :: b :: r)) with (strip a :: strip b :: map strip r).
  rewrite !lerpRound_cons. f_equal. exact IH.
Qed.

Lemma split_loop_short t L R l :
  (length l <= 1)%nat -> splitBezier_loop t L R l = (L, R, l).
Proof.
  intros H. rewrite splitBezier_loop_equation_1.
  destruct (le_lt_dec (length l) 1); simpl; [reflexivity | lia].
Qed.

Lemma split_loop_long t L R l :
  (1 < length l)%nat ->
  splitBezier_loop t L R l
  = splitBezier_loop t (L ++ [hd (mkPoint 0 0 None) (splitRound t l)])
      (last (splitRound t l) (mkPoint 0 0 None) :: R) (splitRound t l).
Proof.
  intros H. rewrite splitBezier_loop_equation_1.
  destruct (le_lt_dec (length l) 1); simpl; [lia | reflexivity].
Qed.

Lemma split_rounds_ind t (P : list Point -> Prop) :
  (forall l, (length l <= 1)%nat -> P l) ->
  (forall l, (1 < length l)%nat -> P (splitRound t l) -> P l) ->
  forall l, P l.
Proof.
  intros Hs Hl l.
  remember (length l) as n eqn:Hn. revert l Hn.
  induction n as [n IH] using lt_wf_ind. intros l Hn.
  destruct (le_lt_dec (length l) 1) as [H|H].
  - now apply Hs.
  - apply Hl; [exact H|].
    apply (IH (length (splitRound t l))); [|reflexivity].
    rewrite splitRound_length. lia.
Qed.

Lemma strip_strip l : map strip (map strip l) = map strip l.
Proof. rewrite map_map. apply map_ext. reflexivity. Qed.

Lemma simple_loop_strip t l :
  map strip (deCasteljauSimple_loop t (map strip l))
  = map strip (deCasteljauSimple_loop t l).
Proof.
  destruct (le_lt_dec (length l) 1) as [H|H].
  - rewrite !simple_loop_short; [apply strip_strip | exact H |].
    now rewrite length_map.
  - rewrite (@simple_loop_long t l) by exact H.
    rewrite (@simple_loop_long t (map strip l)) by now rewrite length_map.
    now rewrite lerpRound_strip.
Qed.

Lemma split_loop_current t : forall l L R,
  map strip (snd (splitBezier_loop t L R l))
  = map strip (deCasteljauSimple_loop t l).
Proof.
  intros l. pattern l. revert l. apply (split_rounds_ind t).
  - intros l H L R. rewrite split_loop_short, simple_loop_short by exact H.
    reflexivity.
  - intros l H IH L R.
    rewrite split_loop_long, simple_loop_long by exact H.
    rewrite IH, <- (splitRound_strip t l). symmetry. apply simple_loop_strip.
Qed.

Lemma split_loop_last_left t d : forall l L R,
  last L d = hd d l ->
  last (fst (fst (splitBezier_loop t L R l))) d
  = hd d (snd (splitBezier_loop t L R l)).
Proof.
  intros l. pattern l. revert l. apply (split_rounds_ind t).
  - intros l H L R E. rewrite split_loop_short by exact H. exact E.
  - intros l H IH L R E. rewrite split_loop_long by exact H.
    apply IH. rewrite last_last.
    destruct (splitRound t l) eqn:E'; [|reflexivity].
    apply (f_equal (@length _)) in E'.
    rewrite splitRound_length in E'. simpl in E'. lia.
Qed.

Lemma split_loop_hd_left t d : forall l L R,
  L <> [] -> hd d (fst (fst (splitBezier_loop t L R l))) = hd d L.
Proof.
  intros l. pattern l. revert l. apply (split_rounds_ind t).
  - intros l H L R E. now rewrite split_loop_short by exact H.
  - intros l H IH L R E. rewrite split_loop_long by exact H.
    rewrite IH; [|now destruct L]. destruct L; [congruence | reflexivity].
Qed.

Lemma split_loop_lengths t : forall l L R,
  l <> [] ->
  length (fst (fst (splitBezier_loop t L R l))) = (length L + length l - 1)%nat /\
  length (snd (fst (splitBezier_loop t L R l))) = (length R + length l - 1)%nat /\
  length (snd (splitBezier_loop t L R l)) = 1%nat.
Proof.
  intros l. pattern l. revert l. apply (split_rounds_ind t).
  - intros l H L R Hne. rewrite split_loop_short by exact H.
    destruct l as [|p [|q r]]; [congruence| |simpl in H; lia].
    simpl. lia.
  - intros l H IH L R _. rewrite split_loop_long by exact H.
    assert (Hn : splitRound t l <> []).
    { intros E. apply (f_equal (@length _)) in E.
      rewrite splitRound_length in E. simpl in E. lia. }
    destruct (IH (L ++ [hd (mkPoint 0 0 None) (splitRound t l)])
                 (last (splitRound t l) (mkPoint 0 0 None) :: R) Hn)
      as [A [B C]].
    rewrite A, B, C, length_app, splitRound_length. simpl. lia.
Qed.

(** The right list: what was pushed first stays last, and the point
    pushed in the last round is the one the loop ends with. *)
Lemma split_loop_last_right t d : forall l L R,
  R <> [] -> last (snd (fst (splitBezier_loop t L R l))) d = last R d.
Proof.
  intros l. pattern l. revert l. apply (split_rounds_ind t).
  - intros l H L R E. now rewrite split_loop_short by exact H.
  - intros l H IH L R E. rewrite split_loop_long by exact H.
    rewrite IH by discriminate. destruct R; [congruence | reflexivity].
Qed.

Lemma split_loop_hd_right t d : forall l L R,
  (1 < length l)%nat ->
  hd d (snd (fst (splitBezier_loop t L R l)))
  = hd d (snd (splitBezier_loop t L R l)).
Proof.
  intros l. pattern l. revert l. apply (split_rounds_ind t).
  - intros l H L R E. lia.
  - intros l H IH L R _. rewrite split_loop_long by exact H.
    destruct (le_lt_dec (length (splitRound t l)) 1) as [Hs|Hl].
    + rewrite split_loop_short by exact Hs. cbn [fst snd hd].
      destruct (splitRound t l) as [|c [|c' m]] eqn:E'.
      * apply (f_equal (@length _)) in E'.
        rewrite splitRound_length in E'. simpl in E'. lia.
      * reflexivity.
      * simpl in Hs. lia.
    + apply IH. exact Hl.
Qed.

Lemma deCasteljauSimple_mapped points t d :
  points <> [] ->
  deCasteljauSimple points t
  = Some (hd d (map strip (deCasteljauSimple_loop t points))).
Proof.
  intros Hne. rewrite (@deCasteljauSimple_hd points t d Hne).
  pose proof (@loop_nonempty t points Hne) as N.
  destruct (deCasteljauSimple_loop t points); [congruence | reflexivity].
Qed.

(** *** Subdivision: where the two lists meet *)

(** X12.  Both lists of [splitBezier] have as many points as [points]; the
    left one starts at the first control point; it ends, and the right
    one starts, at the point of the curve at [t]. *)
Theorem splitBezier_meets_on_curve (points : list Point) (t : Qc) (d : Point) :
  points <> [] ->
  let (lefts, rights) := splitBezier points t in
  length lefts = length points /\
  length rights = length points /\
  hd d lefts = hd d points /\
  last lefts d = hd d rights /\
  deCasteljauSimple points t = Some (strip (hd d rights)).
Proof.
  intros Hne. destruct points as [|p r]; [congruence|].
  unfold splitBezier.
  destruct (@split_loop_lengths t (p :: r) [p] [] Hne) as [A [B C]].
  pose proof (@split_loop_hd_left t d (p :: r) [p] [] ltac:(discriminate)) as D.
  pose proof (@split_loop_last_left t d (p :: r) [p] [] eq_refl) as E.
  pose proof (split_loop_current t (p :: r) [p] []) as F.
  destruct (splitBezier_loop t [p] [] (p :: r)) as [[L R] c].
  cbn [fst snd] in *.
  destruct c as [|c0 [|c1 c']]; try discriminate.
  cbn [hd length]. repeat split.
  - rewrite A. simpl. lia.
  - rewrite B. simpl. lia.
  - exact D.
  - exact E.
  - rewrite (@deCasteljauSimple_mapped (p :: r) t d) by discriminate.
    rewrite <- F. reflexivity.
Qed.

Lemma splitRound_last t d : forall l,
  (2 <= length l)%nat ->
  last (splitRound t l) d
  = mkPoint ((1 - t) * x (last (removelast l) d) + t * x (last l d))
            ((1 - t) * y (last (removelast l) d) + t * y (last l d))
            (weight (last (removelast l) d)).
Proof.
  induction l as [|a [|b [|c r]] IH]; intros H; try (simpl in H; lia).
  - reflexivity.
  - assert (E1 : splitRound t (a :: b :: c :: r)
                 = mkPoint ((1 - t) * x a + t * x b) ((1 - t) * y a + t * y b)
                           (weight a) :: splitRound t (b :: c :: r))
      by reflexivity.
    assert (E2 : last (removelast (a :: b :: c :: r)) d
                 = last (removelast (b :: c :: r)) d) by reflexivity.
    assert (E3 : last (a :: b :: c :: r) d = last (b :: c :: r) d)
      by reflexivity.
    rewrite E1, E2, E3.
    rewrite <- IH by (simpl; lia).
    destruct (splitRound t (b :: c :: r)) eqn:E; [|reflexivity].
    apply (f_equal (@length _)) in E. rewrite splitRound_length in E.
    discriminate.
Qed.

Lemma splitBezier_meets_on_curve_witness :
  let (lefts, rights) := splitBezier [pt 0 0; pt 2 2] (1 / ofZ 2) in
  length lefts = length [pt 0 0; pt 2 2] /\
  length rights = length [pt 0 0; pt 2 2] /\
  hd (pt 0 0) lefts = hd (pt 0 0) [pt 0 0; pt 2 2] /\
  last lefts (pt 0 0) = hd (pt 0 0) rights /\
  deCasteljauSimple [pt 0 0; pt 2 2] (1 / ofZ 2)
  = Some (strip (hd (pt 0 0) rights)).
Proof.
  apply (@splitBezier_meets_on_curve [pt 0 0; pt 2 2] (1 / ofZ 2) (pt 0 0)).
  discriminate.
Defined.

(** X13.  With two points or more, the right list of [splitBezier] has the
    point of the curve twice at its start, and it ends at the point
    between the last two control points, with the weight of the first
    of them. *)
Theorem splitBezier_right_end (points : list Point) (t : Qc) (d : Point) :
  (2 <= length points)%nat ->
  let rights := snd (splitBezier points t) in
  nth 1 rights d = nth 0 rights d /\
  last rights d
  = mkPoint ((1 - t) * x (last (removelast points) d) + t * x (last points d))
            ((1 - t) * y (last (removelast points) d) + t * y (last points d))
            (weight (last (removelast points) d)).
Proof.
  intros H. destruct points as [|p r]; [simpl in H; lia|].
  unfold splitBezier.
  assert (Hl : (1 < length (p :: r))%nat) by lia.
  destruct (@split_loop_lengths t (p :: r) [p] [] ltac:(discriminate))
    as [_ [B _]].
  pose proof (@split_loop_hd_right t (mkPoint 0 0 None) (p :: r) [p] [] Hl) as A.
  pose proof (@split_loop_long t [p] [] (p :: r) Hl) as S.
  pose proof (@split_loop_last_right t d (splitRound t (p :: r))
                ([p] ++ [hd (mkPoint 0 0 None) (splitRound t (p :: r))])
                [last (splitRound t (p :: r)) (mkPoint 0 0 None)]
                ltac:(discriminate)) as C.
  rewrite <- S in C. clear S.
  destruct (splitBezier_loop t [p] [] (p :: r)) as [[L R] c].
  cbn [fst snd] in *.
  destruct R as [|r0 R']; [simpl in B, H; lia|].
  cbn [hd nth] in *. split; [exact A|].
  change (last (hd (mkPoint 0 0 None) c :: r0 :: R') d) with (last (r0 :: R') d).
  rewrite C. cbn [last].
  rewrite (@last_default _ (splitRound t (p :: r)) (mkPoint 0 0 None) d).
  - apply splitRound_last. exact H.
  - intros E. apply (f_equal (@length _)) in E.
    rewrite splitRound_length in E. simpl in *. lia.
Qed.

Lemma splitBezier_right_end_witness :
  last (snd (splitBezier [pt 0 0; pt 2 2; pt 4 0] (1 / ofZ 2))) (pt 0 0)
  = mkPoint ((1 - 1 / ofZ 2) * ofZ 2 + 1 / ofZ 2 * ofZ 4)
            ((1 - 1 / ofZ 2) * ofZ 2 + 1 / ofZ 2 * ofZ 0) None.
Proof.
  destruct (@splitBezier_right_end [pt 0 0; pt 2 2; pt 4 0] (1 / ofZ 2) (pt 0 0))
    as [_ H]; [simpl; lia|].
  exact H.
Defined.

(** *** Binomial coefficients *)

Lemma binom_0_r n : binom n 0 = 1%nat.
Proof. destruct n; reflexivity. Qed.

Lemma binom_S n k : binom (S n) (S k) = (binom n k + binom n (S k))%nat.
Proof. reflexivity. Qed.

Lemma binom_gt : forall n k, (n < k)%nat -> binom n k = 0%nat.
Proof.
  induction n as [|n IH]; intros [|k] H; try lia; try reflexivity.
  simpl. rewrite !IH by lia. reflexivity.
Qed.

Lemma binom_diag : forall n, binom n n = 1%nat.
Proof.
  induction n as [|n IH]; [reflexivity|].
  simpl. rewrite IH, binom_gt by lia. reflexivity.
Qed.

Lemma binom_absorb : forall n k,
  (S k * binom (S n) (S k) = S n * binom n k)%nat.
Proof.
  induction n as [|n IH]; intros k.
  - destruct k as [|k]; simpl; lia.
  - rewrite (binom_S (S n) k).
    destruct k as [|k].
    + pose proof (IH 0%nat) as H0. rewrite !binom_0_r in *. lia.
    + pose proof (IH k) as H1. pose proof (IH (S k)) as H2.
      rewrite (binom_S n k) in *.
      nia.
Qed.

Lemma ofNat_mul a b : ofNat (a * b) = ofNat a * ofNat b.
Proof.
  unfold ofNat, ofZ, Qcmult. apply Q2Qc_eq_iff.
  cbn [this Q2Qc]. rewrite !Qred_correct.
  rewrite Nat2Z.inj_mul. unfold Qeq, inject_Z. simpl. lia.
Qed.

Lemma binomial_loop (m : nat) : forall j,
  fold_left
    (fun coeff i => coeff * (ofZ (Z.of_nat m + Z.of_nat i) / ofNat i))
    (seq 1 j) 1
  = ofNat (binom (m + j) j).
Proof.
  induction j as [|j IH].
  - simpl. now rewrite Nat.add_0_r; destruct m.
  - rewrite seq_S, fold_left_app, IH. cbn [fold_left Nat.add].
    pose proof (binom_absorb (m + j) j) as A.
    apply (f_equal ofNat) in A. rewrite !ofNat_mul in A.
    replace (ofZ (Z.of_nat m + Z.of_nat (S j))) with (ofNat (S (m + j)))
      by (unfold ofNat; f_equal; lia).
    replace (m + S j)%nat with (S (m + j)) by lia.
    assert (N : ofNat (S j) <> 0) by (apply ofNat_nonzero; lia).
    transitivity (ofNat (S (m + j)) * ofNat (binom (m + j) j) / ofNat (S j)).
    + field. exact N.
    + rewrite <- A. field. exact N.
Qed.


Lemma binomialCoefficient_binom (n k : nat) :
  (k <= n)%nat ->
  binomialCoefficient (Z.of_nat n) (Z.of_nat k) = ofNat (binom n k).
Proof.
  intros Hk. unfold binomialCoefficient.
  destruct (Z.ltb_spec (Z.of_nat k) 0) as [H0|_]; [lia|]. cbn [orb].
  destruct (Z.ltb_spec (Z.of_nat n) (Z.of_nat k)) as [H1|H1]; [lia|].
  destruct (Z.eqb_spec (Z.of_nat k) 0) as [H2|H2].
  - replace k with 0%nat by lia. rewrite binom_0_r.
    apply Qc_is_canon. reflexivity.
  - cbn [orb]. destruct (Z.eqb_spec (Z.of_nat k) (Z.of_nat n)) as [H3|H3].
    + replace k with n by lia. rewrite binom_diag.
      apply Qc_is_canon. reflexivity.
    + rewrite Nat2Z.id.
      replace (Z.of_nat n - Z.of_nat k)%Z with (Z.of_nat (n - k)) by lia.
      rewrite binomial_loop. f_equal. f_equal. lia.
Qed.

(** *** The Bernstein form *)

Lemma bern_0 n t : bern (S n) 0 t = (1 - t) * bern n 0 t.
Proof.
  unfold bern. rewrite !binom_0_r, !Nat.sub_0_r. simpl. ring.
Qed.

Lemma bern_S n i t :
  bern (S n) (S i) t = t * bern n i t + (1 - t) * bern n (S i) t.
Proof.
  unfold bern. rewrite binom_S.
  replace (ofNat (binom n i + binom n (S i)))
    with (ofNat (binom n i) + ofNat (binom n (S i))).
  2:{ unfold ofNat, ofZ, Qcplus. apply Q2Qc_eq_iff.
      cbn [this Q2Qc]. rewrite !Qred_correct.
      rewrite Nat2Z.inj_add. unfold Qeq, inject_Z. simpl. lia. }
  change (S n - S i)%nat with (n - i)%nat.
  destruct (le_lt_dec n i) as [H|H].
  - rewrite (binom_gt (n := n) (k := S i)) by lia. rewrite ofNat_0.
    simpl. ring.
  - replace (n - i)%nat with (S (n - S i)) by lia. simpl. ring.
Qed.

Lemma bern_gt n i t : (n < i)%nat -> bern n i t = 0.
Proof.
  intros H. unfold bern. rewrite binom_gt by exact H. rewrite ofNat_0. ring.
Qed.

Lemma bern_0_0 t : bern 0 0 t = 1.
Proof. unfold bern. simpl. apply Qc_is_canon. reflexivity. Qed.

Section Coordinate.
Variable f : Point -> Qc.
Variable t : Qc.
Hypothesis f_lerp : forall p q, f (lerp t p q) = (1 - t) * f p + t * f q.

Lemma bernSum_round n : forall r p i,
  bernSum f n i t (lerpRound t (p :: r))
  = (1 - t) * bern n i t * f p + bernSum f (S n) (S i) t r
    - (1 - t) * bern n (i + length r) t * f (last (p :: r) p).
Proof.
  induction r as [|q r IH]; intros p i.
  - simpl. rewrite Nat.add_0_r. ring.
  - rewrite lerpRound_cons. cbn [bernSum]. rewrite IH, f_lerp, bern_S.
    change (last (p :: q :: r) p) with (last (q :: r) p).
    rewrite (@last_default _ (q :: r) p q) by discriminate.
    cbn [length]. rewrite <- plus_n_Sm. cbn [Nat.add]. ring.
Qed.

Lemma bernSum_lerpRound n l :
  length l = S (S n) ->
  bernSum f n 0 t (lerpRound t l) = bernSum f (S n) 0 t l.
Proof.
  intros H. destruct l as [|p r]; [discriminate|].
  rewrite bernSum_round. cbn [bernSum].
  rewrite bern_0, (@bern_gt n (0 + length r)).
  - ring.
  - simpl in *. lia.
Qed.

Lemma simple_loop_bernSum d : forall n l,
  length l = S n ->
  f (hd d (deCasteljauSimple_loop t l)) = bernSum f n 0 t l.
Proof.
  induction n as [|n IH]; intros l H.
  - destruct l as [|p [|q r]]; try discriminate.
    rewrite simple_loop_short by (simpl; lia).
    simpl. rewrite bern_0_0. ring.
  - rewrite simple_loop_long by lia.
    rewrite IH by (rewrite lerpRound_length, H; reflexivity).
    now apply bernSum_lerpRound.
Qed.

End Coordinate.

Lemma bernsteinPolynomial_bern n i t :
  (i <= n)%nat ->
  bernsteinPolynomial (Z.of_nat n) (Z.of_nat i) t = Some (bern n i t).
Proof.
  intros H. unfold bernsteinPolynomial, pow.
  rewrite binomialCoefficient_binom by exact H.
  destruct (Z.leb_spec 0 (Z.of_nat i)) as [_|H0]; [|lia].
  destruct (Z.leb_spec 0 (Z.of_nat n - Z.of_nat i)) as [_|H0]; [|lia].
  rewrite Nat2Z.id.
  replace (Z.to_nat (Z.of_nat n - Z.of_nat i)) with (n - i)%nat by lia.
  reflexivity.
Qed.


Lemma bezierBernstein_fold n t : forall l i ax ay,
  (i + length l <= S n)%nat ->
  fold_left
    (fun acc ip =>
       let b := bernsteinPolynomial (Z.of_nat n) (Z.of_nat (fst ip)) t in
       mkXY (nadd (rx acc) (nmul b (Some (x (snd ip)))))
            (nadd (ry acc) (nmul b (Some (y (snd ip))))))
    (combine (seq i (length l)) l) (mkXY (Some ax) (Some ay))
  = mkXY (Some (ax + bernSum x n i t l)) (Some (ay + bernSum y n i t l)).
Proof.
  induction l as [|p r IH]; intros i ax ay H.
  - simpl. f_equal; f_equal; ring.
  - cbn [length seq combine fold_left fst snd rx ry].
    rewrite bernsteinPolynomial_bern by (simpl in H; lia).
    cbn [nmul nadd lift2]. rewrite IH by (simpl in H; lia).
    cbn [bernSum]. f_equal; f_equal; ring.
Qed.

(** X14.  In double precision [binomialCoefficient(n, k)] is 0 for
    [k < 0] and for [k > n], and for [0 <= k <= n <= 10] it is exactly
    the binomial coefficient of the triangle of Pascal.  The running
    product of quotients is not exact beyond:
    [binomialCoefficient(11, 5)] is 462.00000000000006. *)
Theorem binomialCoefficient_exact_to_10 (n k : Z) :
  ((k < 0 \/ n < k)%Z ->
   Bezier64.binomialCoefficient n k = Float64.ofZ 0) /\
  ((0 <= k <= n)%Z -> (n <= 10)%Z ->
   Bezier64.binomialCoefficient n k
   = Float64.ofZ (Z.of_nat (binom (Z.to_nat n) (Z.to_nat k)))) /\
  Bezier64.binomialCoefficient 11 5 = Float64.scaled 8127589952520193 (-44) /\
  Float64.ofZ 462 = Float64.scaled 8127589952520192 (-44).
Proof.
  split; [|split; [|split; vm_compute; reflexivity]].
  - intros H. unfold Bezier64.binomialCoefficient.
    destruct (Z.ltb_spec k 0) as [_|H0]; [reflexivity|]. cbn [orb].
    destruct (Z.ltb_spec n k) as [_|H1]; [reflexivity | lia].
  - intros Hk Hn.
    assert (G : forallb binomialCheck (seq 0 11) = true)
      by (vm_compute; reflexivity).
    rewrite forallb_forall in G.
    specialize (G (Z.to_nat n)). unfold binomialCheck in G.
    rewrite forallb_forall in G.
    specialize (G ltac:(apply in_seq; lia) (Z.to_nat k)
                  ltac:(apply in_seq; lia)).
    apply same_eq in G. rewrite !Z2Nat.id in G by lia. exact G.
Qed.

Lemma binomialCoefficient_exact_to_10_witness :
  Bezier64.binomialCoefficient 3 5 = Float64.ofZ 0 /\
  Bezier64.binomialCoefficient 10 5 = Float64.ofZ 252.
Proof.
  split.
  - destruct (binomialCoefficient_exact_to_10 3 5) as [H _]. apply H. lia.
  - destruct (binomialCoefficient_exact_to_10 10 5) as [_ [H _]].
    apply H; lia.
Defined.

(** The Bernstein form and the algorithm of de Casteljau, over the
    rationals. *)
Lemma bezierBernstein_simple (points : list Point) (t : Qc) :
  bezierBernstein points t = option_map finiteXY (deCasteljauSimple points t).
Proof.
  destruct points as [|p r]; [reflexivity|].
  rewrite (@deCasteljauSimple_hd (p :: r) t p) by discriminate.
  unfold bezierBernstein.
  replace (Z.of_nat (length (p :: r)) - 1)%Z with (Z.of_nat (length r))
    by (cbn [length]; lia).
  rewrite bezierBernstein_fold by (simpl; lia).
  cbn [option_map]. unfold finiteXY, strip. cbn [x y].
  rewrite (@simple_loop_bernSum x t) with (n := length r);
    [|intros; reflexivity | reflexivity].
  rewrite (@simple_loop_bernSum y t) with (n := length r);
    [|intros; reflexivity | reflexivity].
  f_equal. f_equal; f_equal; ring.
Qed.

(** X15.  [bezierBernstein] returns [null] on the empty list; on a list
    of one point or more it returns at [t = 0] the first control point
    and at [t = 1] the last one.  The end points are stated for at most
    1000 control points: from about 1030 points on, the binomial
    coefficients of the code leave the range of doubles. *)
Theorem bezierBernstein_at_ends (points : list Point) (d : Point) :
  (points = [] -> forall t, bezierBernstein points t = None) /\
  (points <> [] -> (length points <= 1000)%nat ->
   bezierBernstein points 0 = Some (finiteXY (hd d points)) /\
   bezierBernstein points 1 = Some (finiteXY (last points d))).
Proof.
  split.
  - intros -> t. reflexivity.
  - intros H _. destruct points as [|p r]; [congruence|].
    rewrite !bezierBernstein_simple.
    rewrite deCasteljauSimple_at_0, deCasteljauSimple_at_1.
    rewrite (@last_default _ (p :: r) d p) by discriminate.
    split; reflexivity.
Qed.

Lemma bezierBernstein_at_ends_witness :
  bezierBernstein [pt 0 0; pt 1 2; pt 3 0] 0 = Some (finiteXY (pt 0 0)) /\
  bezierBernstein [pt 0 0; pt 1 2; pt 3 0] 1 = Some (finiteXY (pt 3 0)).
Proof.
  destruct (bezierBernstein_at_ends [pt 0 0; pt 1 2; pt 3 0] (pt 0 0))
    as [_ H].
  apply H; [discriminate | simpl; lia].
Defined.

End BezierToolsFacts.

(** ** Knot vectors, cubic segments and the ends of the domain *)

Section SplineToolsFacts.
Import JSNum Spline SplineTools.
Import Bezier (Point, mkPoint, x, y, weight, XY, mkXY, rx, ry, finiteXY).
Local Open Scope Qc_scope.

(** *** The knot vector is clamped and sorted *)

Lemma knot_generate n degree i :
  (i < n + degree + 1)%nat ->
  knot (generateKnotVector n degree) i = Some (ofZ (knotValue n degree i)).
Proof.
  intros H. unfold knot, generateKnotVector.
  rewrite nth_error_map, nth_error_seq.
  destruct (Nat.ltb_spec i (n + degree + 1)) as [_|H']; [|lia].
  cbn [option_map Nat.add]. unfold knotValue.
  destruct (i <=? degree)%nat; [reflexivity|].
  destruct (n <=? i)%nat; reflexivity.
Qed.

Lemma knot_generate_inv n degree i a :
  knot (generateKnotVector n degree) i = Some a ->
  (i < n + degree + 1)%nat /\ a = ofZ (knotValue n degree i).
Proof.
  intros H.
  assert (L : (i < n + degree + 1)%nat).
  { rewrite <- generateKnotVector_length. apply nth_error_Some.
    unfold knot in H. congruence. }
  split; [exact L|]. rewrite knot_generate in H by exact L. congruence.
Qed.

Lemma knotValue_mono n degree i j :
  (degree <= n)%nat -> (i <= j)%nat ->
  (knotValue n degree i <= knotValue n degree j)%Z.
Proof.
  intros Hn Hij. unfold knotValue.
  destruct (Nat.leb_spec i degree), (Nat.leb_spec j degree),
    (Nat.leb_spec n i), (Nat.leb_spec n j); lia.
Qed.

(** X16.  For [n >= degree], the knot vector has [n + degree + 1] knots; the
    first [degree + 1] are 0, the last [degree + 1] are [n - degree],
    and the knots never decrease. *)
Theorem generateKnotVector_clamped (n degree : nat) :
  (degree <= n)%nat ->
  let knots := generateKnotVector n degree in
  length knots = (n + degree + 1)%nat /\
  (forall i, (i <= degree)%nat -> knot knots i = Some 0) /\
  (forall i, (n <= i <= n + degree)%nat ->
             knot knots i = Some (ofZ (Z.of_nat n - Z.of_nat degree))) /\
  (forall i j a b, (i <= j)%nat ->
                   knot knots i = Some a -> knot knots j = Some b -> a <= b).
Proof.
  intros Hn knots. subst knots. split; [|split; [|split]].
  - apply generateKnotVector_length.
  - intros i Hi. rewrite knot_generate by lia. unfold knotValue.
    destruct (Nat.leb_spec i degree); [reflexivity | lia].
  - intros i Hi. rewrite knot_generate by lia. unfold knotValue.
    destruct (Nat.leb_spec i degree) as [H|H].
    + assert (n = degree) by lia. subst n. f_equal. f_equal. lia.
    + destruct (Nat.leb_spec n i); [reflexivity | lia].
  - intros i j a b Hij Ha Hb.
    apply knot_generate_inv in Ha as [_ ->].
    apply knot_generate_inv in Hb as [_ ->].
    apply (proj1 (ofZ_le _ _)). now apply knotValue_mono.
Qed.

Lemma generateKnotVector_clamped_witness :
  knot (generateKnotVector 4 2) 2 = Some 0 /\
  knot (generateKnotVector 4 2) 4 = Some (ofZ (Z.of_nat 4 - Z.of_nat 2)).
Proof.
  destruct (@generateKnotVector_clamped 4 2) as [_ [A [B _]]]; [lia|].
  split; [apply A; lia | apply B; lia].
Defined.

(** *** The knots of a Bezier curve seen as a B-spline *)

(** X17.  For one point or more, [bezierToBSpline] keeps the points, gives
    the degree [n - 1], and its knots, [n] zeros then [n] ones, are
    those of [generateKnotVector(n, n - 1)]. *)
Theorem bezierToBSpline_knots (bezierPoints : list Point) :
  bezierPoints <> [] ->
  let n := length bezierPoints in
  bezierToBSpline bezierPoints
  = (bezierPoints, (Z.of_nat n - 1)%Z, generateKnotVector n (n - 1)).
Proof.
  intros Hne n. unfold bezierToBSpline. fold n.
  assert (Hn : (1 <= n)%nat).
  { subst n. destruct bezierPoints; [congruence | simpl; lia]. }
  f_equal.
  rewrite generateKnotVector_split by lia.
  replace (Z.to_nat (Z.of_nat n - 1 + 1)) with n by lia.
  replace (n - 1 + 1)%nat with n by lia.
  replace (n - (n - 1) - 1)%nat with 0%nat by lia.
  replace (Z.of_nat n - Z.of_nat (n - 1))%Z with 1%Z by lia.
  cbn [seq map app].
  rewrite (@map_seq_const _ (fun _ => 0) 0 n 0) by reflexivity.
  rewrite (@map_seq_const _ (fun _ => 1) 1 n 0) by reflexivity.
  reflexivity.
Qed.

Lemma bezierToBSpline_knots_witness :
  bezierToBSpline [pt 0 0; pt 1 2; pt 3 0]
  = ([pt 0 0; pt 1 2; pt 3 0], 2%Z, generateKnotVector 3 2).
Proof.
  apply (@bezierToBSpline_knots [pt 0 0; pt 1 2; pt 3 0]). discriminate.
Defined.

(** *** The cubic segments *)

(** X18.  Two segments in a row meet: on five control points the first
    segment at [t = 1] and the second at [t = 0] give the same point,
    [1/6 * p1 + 4/6 * p2 + 1/6 * p3] coordinate by coordinate.  On
    fewer than four points [evaluateCubicSegment] throws. *)
Theorem cubic_segments_join (p0 p1 p2 p3 p4 : Point) :
  evaluateCubicSegment (cubicSegment [p0; p1; p2; p3; p4] 0) 1
  = evaluateCubicSegment (cubicSegment [p0; p1; p2; p3; p4] 1) 0 /\
  evaluateCubicSegment [p1; p2; p3; p4] 0
  = Some (mkPoint
            (1 / ofZ 6 * x p1 + ofZ 4 / ofZ 6 * x p2 + 1 / ofZ 6 * x p3)
            (1 / ofZ 6 * y p1 + ofZ 4 / ofZ 6 * y p2 + 1 / ofZ 6 * y p3)
            None) /\
  (forall segment t,
      (length segment < 4)%nat -> evaluateCubicSegment segment t = None).
Proof.
  assert (E3 : ofZ 3 = 1 + 1 + 1) by (apply Qc_is_canon; reflexivity).
  assert (E4 : ofZ 4 = 1 + 1 + 1 + 1) by (apply Qc_is_canon; reflexivity).
  assert (E6 : ofZ 6 = 1 + 1 + 1 + 1 + 1 + 1)
    by (apply Qc_is_canon; reflexivity).
  split; [|split].
  - unfold cubicSegment, evaluateCubicSegment.
    cbn [skipn firstn map option_map x y]. rewrite E3, E4, E6.
    f_equal; apply point_eq; cbn [x y weight];
      try reflexivity; field; discriminate.
  - unfold evaluateCubicSegment. rewrite E3, E4, E6.
    f_equal; apply point_eq; cbn [x y weight];
      try reflexivity; field; discriminate.
  - intros segment t H.
    destruct segment as [|a [|b [|c [|e r]]]]; try reflexivity.
    simpl in H. lia.
Qed.

Lemma cubic_segments_join_witness :
  evaluateCubicSegment [pt 0 0; pt 1 1; pt 2 0] 1 = None.
Proof.
  destruct (cubic_segments_join (pt 0 0) (pt 0 0) (pt 0 0) (pt 0 0) (pt 0 0))
    as [_ [_ H]].
  apply H. simpl. lia.
Defined.

(** *** The curve at the two ends of its domain *)

Lemma endsCheck_all :
  forallb (fun degree =>
             forallb (endsCheck degree) (seq (degree + 1) (12 - degree)))
          (seq 1 5) = true.
Proof. vm_compute. reflexivity. Qed.

Lemma endsCheck_range degree n i :
  (1 <= degree <= 5)%nat -> (degree + 1 <= n <= 12)%nat -> (i < n)%nat ->
  bSplineBasis i degree (Some 0) (generateKnotVector n degree)
  = Some (if (i =? 0)%nat then 1 else 0) /\
  bSplineBasis i degree (Some (ofZ (Z.of_nat n - Z.of_nat degree)))
               (generateKnotVector n degree)
  = Some 0.
Proof.
  intros Hd Hn Hi. pose proof endsCheck_all as H.
  rewrite forallb_forall in H.
  specialize (H degree). rewrite forallb_forall in H.
  assert (G : endsCheck degree n = true) by (apply H; apply in_seq; lia).
  unfold endsCheck in G. rewrite forallb_forall in G.
  specialize (G i). rewrite andb_true_iff in G.
  destruct G as [G1 G2]; [apply in_seq; lia|].
  split; now apply num_eqb_eq.
Qed.

Lemma evaluate_fold_zero degree tc knots : forall l s ax ay,
  (forall i, (s <= i < s + length l)%nat ->
             bSplineBasis i degree tc knots = Some 0) ->
  fold_left
    (fun acc ip =>
       let basis := bSplineBasis (fst ip) degree tc knots in
       mkXY (nadd (rx acc) (nmul basis (rx (snd ip))))
            (nadd (ry acc) (nmul basis (ry (snd ip)))))
    (combine (seq s (length l)) (map finiteXY l))
    (mkXY (Some ax) (Some ay))
  = mkXY (Some ax) (Some ay).
Proof.
  induction l as [|p r IH]; intros s ax ay H; [reflexivity|].
  cbn [length seq map combine fold_left fst snd].
  rewrite H by (simpl; lia).
  cbn [finiteXY rx ry nmul nadd lift2].
  replace (ax + 0 * x p) with ax by ring.
  replace (ay + 0 * y p) with ay by ring.
  apply IH. intros i Hi. apply H. simpl. lia.
Qed.

Lemma clamp_low (hi t : Qc) :
  0 <= hi -> t <= 0 -> nmax (Some 0) (nmin (Some hi) (Some t)) = Some 0.
Proof.
  intros Hh Ht. cbn [nmax nmin lift2]. f_equal.
  unfold Qc_max, Qc_min.
  destruct (Qc_leb hi t) eqn:E1.
  - apply Qc_leb_le in E1.
    assert (hi = 0) by (apply Qcle_antisym; [eapply Qcle_trans; eauto | exact Hh]).
    subst hi. now destruct (Qc_leb 0 0).
  - destruct (Qc_leb 0 t) eqn:E2; [|reflexivity].
    apply Qc_leb_le in E2. now apply Qcle_antisym.
Qed.

Lemma clamp_high (hi t : Qc) :
  0 <= hi -> hi <= t -> nmax (Some 0) (nmin (Some hi) (Some t)) = Some hi.
Proof.
  intros Hh Ht. cbn [nmax nmin lift2]. f_equal.
  unfold Qc_max, Qc_min.
  apply Qc_leb_le in Ht. rewrite Ht.
  apply Qc_leb_le in Hh. now rewrite Hh.
Qed.

Lemma evaluateBSpline_ends (degree : nat) (points : list Point)
  (t : Qc) (d : Point) :
  (1 <= degree <= 5)%nat -> (degree + 1 <= length points <= 12)%nat ->
  let n := length points in
  let knots := generateKnotVector n degree in
  (t <= 0 ->
   evaluateBSpline (map finiteXY points) (Some t) degree knots
   = Some (finiteXY (hd d points))) /\
  (ofZ (Z.of_nat n - Z.of_nat degree) <= t ->
   evaluateBSpline (map finiteXY points) (Some t) degree knots
   = Some (mkXY (Some 0) (Some 0))).
Proof.
  intros Hd Hn n knots.
  assert (En : n = length points) by reflexivity.
  assert (Ek : knots = generateKnotVector n degree) by reflexivity.
  clearbody knots. clearbody n.
  assert (Hhi : 0 <= ofZ (Z.of_nat n - Z.of_nat degree)).
  { apply (proj1 (ofZ_le 0 _)). lia. }
  assert (K1 : knot knots degree = Some 0).
  { subst knots. rewrite knot_generate by lia. unfold knotValue.
    now rewrite Nat.leb_refl. }
  assert (K2 : knot knots n = Some (ofZ (Z.of_nat n - Z.of_nat degree))).
  { subst knots. rewrite knot_generate by lia. unfold knotValue.
    destruct (Nat.leb_spec n degree); [lia|].
    now rewrite Nat.leb_refl. }
  assert (B : forall i, (i < n)%nat ->
            bSplineBasis i degree (Some 0) knots
            = Some (if (i =? 0)%nat then 1 else 0) /\
            bSplineBasis i degree (Some (ofZ (Z.of_nat n - Z.of_nat degree)))
                         knots = Some 0).
  { intros i Hi. subst knots. apply endsCheck_range; lia. }
  clear Ek.
  destruct points as [|p r]; [simpl in Hn; lia|].
  split; intros Ht; unfold evaluateBSpline;
    change (map finiteXY (p :: r)) with (finiteXY p :: map finiteXY r) at 1;
    cbv iota; rewrite length_map, <- En, K1, K2.
  - rewrite clamp_low by assumption.
    replace (seq 0 n) with (seq 0 (length (p :: r))) by now rewrite En.
    cbn [length seq map combine fold_left fst snd].
    destruct (B 0%nat) as [B0 _]; [lia|]. rewrite B0.
    cbn [Nat.eqb finiteXY rx ry nmul nadd lift2].
    rewrite evaluate_fold_zero.
    + cbn [hd]. unfold finiteXY. f_equal. f_equal; f_equal; ring.
    + intros i Hi. destruct (B i) as [B' _]; [simpl in En; lia|].
      rewrite B'. destruct i; [lia | reflexivity].
  - rewrite clamp_high by assumption.
    replace (seq 0 n) with (seq 0 (length (p :: r))) by now rewrite En.
    rewrite evaluate_fold_zero; [reflexivity|].
    intros i Hi. destruct (B i) as [_ B']; [lia | exact B'].
Qed.

(** X19.  For the degrees 1 to 5 and up to 12 control points, on the
    knot vector of [generateKnotVector], the domain starts at the knot
    0 and ends at the knot [n - degree]; at every parameter up to the
    start of the domain [evaluateBSpline] returns the first control
    point, and at every parameter from the end of the domain on it
    returns the origin, whatever the control points are. *)
Theorem evaluateBSpline_at_domain_ends (degree : nat) (points : list Point)
  (t : Qc) (d : Point) :
  (1 <= degree <= 5)%nat -> (degree + 1 <= length points <= 12)%nat ->
  let n := length points in
  let knots := generateKnotVector n degree in
  knot knots degree = Some 0 /\
  knot knots n = Some (ofZ (Z.of_nat n - Z.of_nat degree)) /\
  (t <= 0 ->
   evaluateBSpline (map finiteXY points) (Some t) degree knots
   = Some (finiteXY (hd d points))) /\
  (ofZ (Z.of_nat n - Z.of_nat degree) <= t ->
   evaluateBSpline (map finiteXY points) (Some t) degree knots
   = Some (mkXY (Some 0) (Some 0))).
Proof.
  intros Hd Hn n knots. split; [|split].
  - subst knots. rewrite knot_generate by (subst n; lia). unfold knotValue.
    now rewrite Nat.leb_refl.
  - subst knots. rewrite knot_generate by lia. unfold knotValue.
    destruct (Nat.leb_spec n degree); [subst n; lia|].
    now rewrite Nat.leb_refl.
  - now apply evaluateBSpline_ends.
Qed.

Lemma evaluateBSpline_at_domain_ends_witness :
  evaluateBSpline (map finiteXY [pt 1 1; pt 2 3; pt 4 0]) (Some (ofZ 5)) 2
                  (generateKnotVector 3 2)
  = Some (mkXY (Some 0) (Some 0)).
Proof.
  destruct (@evaluateBSpline_at_domain_ends 2 [pt 1 1; pt 2 3; pt 4 0]
              (ofZ 5) (pt 0 0)) as [_ [_ [_ H]]]; [lia | simpl; lia|].
  apply H. discriminate.
Defined.

End SplineToolsFacts.

(** ** Rings and face normals of the revolution surface *)

Section RevolutionToolsFacts.
Import Revolution RevolutionTools.
Local Open Scope R_scope.


(** *** The rings of the mesh *)

Lemma nth_error_rows {A B} (f : A -> list B) (m : nat) :
  (forall a, length (f a) = m) ->
  forall l i j, (j < m)%nat ->
  nth_error (flat_map f l) (i * m + j)
  = match nth_error l i with
    | Some a => nth_error (f a) j
    | None => None
    end.
Proof.
  intros Hm. induction l as [|a r IH]; intros i j Hj.
  - simpl. now destruct (i * m + j)%nat, i.
  - cbn [flat_map]. destruct i as [|i].
    + cbn [Nat.mul Nat.add nth_error]. apply nth_error_app1. now rewrite Hm.
    + rewrite nth_error_app2 by (rewrite Hm; simpl; lia).
      rewrite Hm. replace (S i * m + j - m)%nat with (i * m + j)%nat
        by (simpl; lia).
      cbn [nth_error]. now apply IH.
Qed.

Lemma generateVertices_nth profile axis angleStep subdivisions i j p :
  (i <= subdivisions)%nat -> nth_error profile j = Some p ->
  nth_error (generateVertices profile axis angleStep subdivisions)
            (i * length profile + j)
  = Some (rotatePoint p (INR i * angleStep) axis).
Proof.
  intros Hi Hj. unfold generateVertices.
  rewrite (@nth_error_rows _ _ _ (length profile)).
  - rewrite nth_error_seq.
    destruct (Nat.ltb_spec i (subdivisions + 1)) as [_|H]; [|lia].
    cbn [Nat.add]. rewrite nth_error_map, Hj. reflexivity.
  - intros a. apply length_map.
  - apply nth_error_Some. congruence.
Qed.

(** X21.  After [generate], the vertex of index [i * n + j], for a profile of
    [n] points, is the profile point [j] rotated by [i] angle steps. *)
Theorem generate_vertex_layout (s : RevolutionSurface) (profile : list Vec2)
  (axis : Axis) (angle : R) (subdivisions i j : nat) (p : Vec2) :
  (2 <= length profile)%nat -> (i <= subdivisions)%nat ->
  nth_error profile j = Some p ->
  exists mesh,
    generate s profile axis angle subdivisions = Some (mesh, []) /\
    nth_error (vertices mesh) (i * length profile + j)
    = Some (rotatePoint p (INR i * (angle * PI / 180 / INR subdivisions)) axis).
Proof.
  intros Hlen Hi Hj.
  destruct (@generate_success s profile axis angle subdivisions Hlen)
    as [mesh [acc [G [V _]]]].
  exists mesh. split; [exact G|]. rewrite V.
  now apply generateVertices_nth.
Qed.

Lemma generate_vertex_layout_witness :
  exists mesh,
    generate newSurface [mkVec2 1 0; mkVec2 1 1] AxisY 90 2 = Some (mesh, []) /\
    nth_error (vertices mesh) (1 * length [mkVec2 1 0; mkVec2 1 1] + 1)
    = Some (rotatePoint (mkVec2 1 1) (INR 1 * (90 * PI / 180 / INR 2)) AxisY).
Proof.
  apply (@generate_vertex_layout newSurface [mkVec2 1 0; mkVec2 1 1] AxisY 90
           2 1 1 (mkVec2 1 1)).
  - simpl. lia.
  - lia.
  - reflexivity.
Defined.

(** *** The normal of a face *)



End RevolutionToolsFacts.

(** ** The profile given to the revolution *)

Section ProfileToolsFacts.
Import JSNum Curve2D ProfileTools.
Import Revolution (Axis, AxisX, AxisY, AxisZ, AxisOther).
Local Open Scope Qc_scope.





End ProfileToolsFacts.

(** ** The degree of the results *)

Section DegreeFacts.
Import JSNum Bezier BezierTools.
Local Open Scope Qc_scope.

(** X28.  [getBezierDegree] is the number of points less one, and 0 on the
    empty list.  For two points or more, elevation raises the degree by
    1, the derivative lowers it by 1, and both lists of a subdivision
    have the degree of the curve. *)
Theorem getBezierDegree_of_results (points : list Point) (t : Qc) :
  (2 <= length points)%nat ->
  getBezierDegree points = (Z.of_nat (length points) - 1)%Z /\
  getBezierDegree (elevateBezierDegree points) = (getBezierDegree points + 1)%Z /\
  getBezierDegree (derivativePoints points) = (getBezierDegree points - 1)%Z /\
  getBezierDegree (fst (splitBezier points t)) = getBezierDegree points /\
  getBezierDegree (snd (splitBezier points t)) = getBezierDegree points.
Proof.
  intros H. unfold getBezierDegree.
  rewrite elevateBezierDegree_length by exact H.
  assert (D : length (derivativePoints points) = (length points - 1)%nat).
  { unfold derivativePoints. now rewrite length_map, length_seq. }
  rewrite D.
  destruct points as [|p r]; [simpl in H; lia|].
  destruct (@split_loop_lengths t (p :: r) [p] [] ltac:(discriminate))
    as [A [B _]].
  unfold splitBezier.
  destruct (splitBezier_loop t [p] [] (p :: r)) as [[L R] c].
  cbn [fst snd] in *. cbn [length] in *. rewrite A, B. lia.
Qed.

Lemma getBezierDegree_of_results_witness :
  getBezierDegree (elevateBezierDegree [pt 0 0; pt 1 2; pt 3 0])
  = (getBezierDegree [pt 0 0; pt 1 2; pt 3 0] + 1)%Z.
Proof.
  destruct (@getBezierDegree_of_results [pt 0 0; pt 1 2; pt 3 0] 0)
    as [_ [H _]]; [simpl; lia | exact H].
Defined.

End DegreeFacts.

(** ** The sizes of a knot insertion *)

Section KnotInsertionFacts.
Import JSNum Spline.
Import Bezier (XY, mkXY, rx, ry).
Local Open Scope Qc_scope.

Lemma findSpan_bounds knots newKnot : forall k,
  (k <= findSpan knots newKnot k)%nat /\
  (findSpan knots newKnot k <= Nat.max k (length knots - 1))%nat.
Proof.
  intros k. remember (length knots - k)%nat as m eqn:Hm. revert k Hm.
  induction m as [m IH] using lt_wf_ind. intros k Hm.
  rewrite findSpan_equation_1.
  destruct (lt_dec (S k) (length knots)) as [H|H]; simpl; [|lia].
  destruct (nlt (knot knots k) (Some newKnot)); simpl; [|lia].
  destruct (IH (length knots - S k)%nat ltac:(lia) (S k) eq_refl). lia.
Qed.

(** X29.  Whenever [insertKnot] returns, it returns as many control points as
    it was given and one knot more; the new knot is among the knots
    returned, at an index from [degree] on. *)
Theorem insertKnot_keeps_point_count (controlPoints : list XY)
  (knots : list Qc) (degree : nat) (newKnot : Qc)
  (newPoints : list XY) (newKnots : list Qc) :
  (degree < length knots)%nat ->
  insertKnot controlPoints knots degree newKnot = Some (newPoints, newKnots) ->
  length newPoints = length controlPoints /\
  length newKnots = S (length knots) /\
  exists k, (degree <= k)%nat /\ nth_error newKnots k = Some newKnot.
Proof.
  intros Hd H. destruct (insertKnot_sizes _ _ _ _ H) as [A B].
  split; [exact A|]. split; [exact B|].
  unfold insertKnot in H.
  destruct (collect _) as [r|]; [|discriminate].
  injection H as _ <-.
  exists (findSpan knots newKnot degree).
  destruct (findSpan_bounds knots newKnot degree) as [L U].
  split; [exact L|].
  rewrite nth_error_app2 by (rewrite length_firstn; lia).
  rewrite length_firstn.
  replace (findSpan knots newKnot degree
           - Nat.min (findSpan knots newKnot degree) (length knots))%nat
    with 0%nat by lia.
  reflexivity.
Qed.

Lemma insertKnot_keeps_point_count_witness :
  match insertKnot [xy 0 0; xy 1 1; xy (ofZ 2) 0] (generateKnotVector 3 1) 1
                   (1 / ofZ 2) with
  | Some (newPoints, newKnots) =>
      length newPoints = 3%nat /\ length newKnots = 6%nat
  | None => False
  end.
Proof.
  destruct (insertKnot [xy 0 0; xy 1 1; xy (ofZ 2) 0] (generateKnotVector 3 1) 1
                       (1 / ofZ 2)) as [[newPoints newKnots]|] eqn:E.
  - assert (Hd : (1 < length (generateKnotVector 3 1))%nat)
      by (vm_compute; lia).
    destruct (@insertKnot_keeps_point_count _ _ _ _ _ _ Hd E) as [A [B _]].
    split; [exact A | exact B].
  - vm_compute in E. discriminate.
Defined.

End KnotInsertionFacts.

(** ** The B-spline profile *)

Section ProfileSplineFacts.
Import JSNum ProfileSpline.
Import Bezier (XY, mkXY, rx, ry, finiteXY).
Local Open Scope Qc_scope.

Lemma profile_fold_copy degree tc knots : forall cps s acc,
  fold_left
    (fun acc ip =>
       let basis := Curve2D.bSplineBasis (fst ip) degree tc knots in
       mkXY (nadd (rx acc) (nmul basis (Some (Curve2D.x (snd ip)))))
            (nadd (ry acc) (nmul basis (Some (Curve2D.y (snd ip))))))
    (combine (seq s (length cps)) cps) acc
  = fold_left
      (fun acc ip =>
         let basis := Spline.bSplineBasis (fst ip) degree tc knots in
         mkXY (nadd (rx acc) (nmul basis (rx (snd ip))))
              (nadd (ry acc) (nmul basis (ry (snd ip)))))
      (combine (seq s (length cps)) (map toXY cps)) acc.
Proof.
  induction cps as [|p r IH]; intros s acc; [reflexivity|].
  cbn [length seq map combine fold_left fst snd].
  rewrite bSplineBasis_copies. apply IH.
Qed.

Lemma evaluateBSpline_copy cps t degree knots :
  evaluateBSpline cps t degree knots
  = Spline.evaluateBSpline (map toXY cps) t degree knots.
Proof.
  destruct cps as [|p r]; [reflexivity|].
  unfold evaluateBSpline, Spline.evaluateBSpline.
  change (map toXY (p :: r)) with (toXY p :: map toXY r) at 1. cbv iota.
  change (toXY p :: map toXY r) with (map toXY (p :: r)).
  rewrite length_map. f_equal. apply profile_fold_copy.
Qed.

Lemma step_le_max (D : Qc) res i :
  0 < D -> (1 <= res)%nat ->
  Qc_leb (ofNat i * (D / ofNat res)) D = true <-> (i <= res)%nat.
Proof.
  intros HD Hres. rewrite Qc_leb_le, ofNat_le.
  pose proof (ofNat_pos Hres) as Hpos.
  assert (Hnz : ofNat res <> 0) by now apply ofNat_nonzero.
  assert (HDnz : D <> 0).
  { intros E. rewrite E in HD. discriminate HD. }
  assert (E : ofNat i * (D / ofNat res) * (ofNat res / D) = ofNat i)
    by (field; auto).
  assert (E' : D * (ofNat res / D) = ofNat res) by (field; auto).
  assert (Hq : 0 < ofNat res / D).
  { apply Qcnot_le_lt. intros Hle.
    assert (G : ofNat res / D * D <= 0 * D)
      by (apply Qcmult_le_compat_r; [exact Hle | now apply Qclt_le_weak]).
    replace (ofNat res / D * D) with (ofNat res) in G by (field; auto).
    replace (0 * D) with 0 in G by ring.
    apply Qcle_not_lt in G. contradiction. }
  split; intros H.
  - assert (G : ofNat i * (D / ofNat res) * (ofNat res / D)
                <= D * (ofNat res / D)).
    { apply Qcmult_le_compat_r; [exact H | now apply Qclt_le_weak]. }
    now rewrite E, E' in G.
  - apply (Qcmult_lt_0_le_reg_r _ _ (ofNat res / D) Hq).
    now rewrite E, E'.
Qed.

Lemma spline_sampleFrom_spec cps degree knots (D : Qc) res :
  0 < D -> (1 <= res)%nat ->
  forall k i fuel,
    (i + k = res + 1)%nat -> (k <= fuel)%nat ->
    sampleFrom cps degree knots D (D / ofNat res) fuel
               (ofNat i * (D / ofNat res))
    = (flat_map (fun j => optList (evaluateBSpline cps
                                     (Some (ofNat j * (D / ofNat res)))
                                     degree knots))
                (seq i k), true).
Proof.
  intros HD Hres. induction k as [|k IH]; intros i fuel Hi Hf.
  - assert (C : Qc_leb (ofNat i * (D / ofNat res)) D = false).
    { destruct (Qc_leb _ D) eqn:E; [|reflexivity].
      apply step_le_max in E; [lia | exact HD | exact Hres]. }
    destruct fuel; simpl; now rewrite C.
  - assert (C : Qc_leb (ofNat i * (D / ofNat res)) D = true).
    { apply step_le_max; [exact HD | exact Hres | lia]. }
    destruct fuel as [|fuel]; [lia|].
    cbn [sampleFrom]. rewrite C.
    replace (ofNat i * (D / ofNat res) + D / ofNat res)
      with (ofNat (S i) * (D / ofNat res)) by (rewrite ofNat_S; ring).
    rewrite IH by lia. cbn [seq flat_map].
    destruct (evaluateBSpline cps _ degree knots); reflexivity.
Qed.


Lemma generateBSplineCurve_unfold cps degree res :
  (degree + 1 <= length cps)%nat -> (1 <= res)%nat ->
  let n := length cps in
  let knots := Curve2D.generateKnotVector n degree in
  let tMax := ofZ (Z.of_nat n - Z.of_nat degree) in
  generateBSplineCurve cps degree res
  = (flat_map (fun j => optList (evaluateBSpline cps
                                   (Some (ofNat j * (tMax / ofNat res)))
                                   degree knots))
              (seq 0 (res + 1))
     ++ optList (evaluateBSpline cps (Some tMax) degree knots), false).
Proof.
  intros Hn Hres n knots tMax. unfold generateBSplineCurve.
  destruct (Nat.ltb_spec (length cps) (degree + 1)) as [H|_]; [lia|].
  fold n. fold knots.
  assert (Ek : knots = Spline.generateKnotVector n degree).
  { subst knots. symmetry. apply knot_vectors_equal. exact Hn. }
  assert (K1 : Spline.knot knots degree = Some 0).
  { rewrite Ek, knot_generate by lia. unfold knotValue.
    now rewrite Nat.leb_refl. }
  assert (K2 : Spline.knot knots n = Some tMax).
  { rewrite Ek, knot_generate by lia. unfold knotValue.
    destruct (Nat.leb_spec n degree); [subst n; lia|].
    now rewrite Nat.leb_refl. }
  rewrite K1, K2.
  destruct res as [|res']; [lia|]. set (res := S res') in *.
  assert (HD : 0 < tMax).
  { assert (L : (1 <= Z.of_nat n - Z.of_nat degree)%Z) by (subst n; lia).
    apply (proj1 (ofZ_le _ _)) in L.
    eapply Qclt_le_trans; [|exact L]. reflexivity. }
  replace (tMax - 0) with tMax by ring.
  replace 0 with (ofNat 0 * (tMax / ofNat res)) at 1
    by (rewrite ofNat_0; ring).
  rewrite (@spline_sampleFrom_spec cps degree knots tMax res HD Hres
             (res + 1) 0 (res + 2)) by lia.
  reflexivity.
Qed.

(** X30.  With fewer control points than [degree + 1] the B-spline profile is
    empty and a warning is written.  Otherwise, for the degrees 1 to 5,
    up to 12 control points and a resolution of 1 or more, no warning
    is written, the first point of the profile is the first control
    point, and its last point, pushed after the loop for the end of the
    domain, is at the origin. *)
Theorem generateBSplineCurve_ends (cps : list Curve2D.Point)
  (degree resolution : nat) (d : Curve2D.Point) (dxy : XY) :
  let n := length cps in
  let samples := fst (generateBSplineCurve cps degree resolution) in
  ((n < degree + 1)%nat ->
   generateBSplineCurve cps degree resolution = ([], true)) /\
  ((1 <= degree <= 5)%nat -> (degree + 1 <= n <= 12)%nat ->
   (1 <= resolution)%nat ->
   snd (generateBSplineCurve cps degree resolution) = false /\
   nth_error samples 0 = Some (toXY (hd d cps)) /\
   last samples dxy = mkXY (Some 0) (Some 0)).
Proof.
  intros n samples. split.
  - intros Hn. unfold generateBSplineCurve.
    destruct (Nat.ltb_spec (length cps) (degree + 1)) as [_|H];
      [reflexivity | subst n; lia].
  - intros Hd Hn Hres.
    assert (Hn' : (degree + 1 <= length cps)%nat) by (subst n; lia).
    pose proof (@generateBSplineCurve_unfold cps degree resolution Hn' Hres)
      as U. cbv zeta in U. fold n in U.
    set (knots := Curve2D.generateKnotVector n degree) in *.
    set (tMax := ofZ (Z.of_nat n - Z.of_nat degree)) in *.
    assert (Ek : knots = Spline.generateKnotVector n degree).
    { subst knots. symmetry. apply knot_vectors_equal. lia. }
    assert (Em : map toXY cps = map finiteXY (map toPoint cps)).
    { rewrite map_map. reflexivity. }
    assert (Hl : (degree + 1 <= length (map toPoint cps) <= 12)%nat)
      by (rewrite length_map; exact Hn).
    assert (Ends : forall t,
      (t <= 0 -> evaluateBSpline cps (Some t) degree knots
                 = Some (toXY (hd d cps))) /\
      (tMax <= t -> evaluateBSpline cps (Some t) degree knots
                    = Some (mkXY (Some 0) (Some 0)))).
    { intros t. rewrite evaluateBSpline_copy, Em, Ek.
      pose proof (@evaluateBSpline_ends degree (map toPoint cps) t (toPoint d)
                    Hd Hl) as E.
      cbv zeta in E. rewrite !length_map in E. fold n in E. fold tMax in E.
      destruct E as [E1 E2].
      split; [|exact E2].
      intros Ht. rewrite (E1 Ht). f_equal.
      destruct cps; reflexivity. }
    subst samples. rewrite U. cbn [fst snd].
    rewrite (proj2 (Ends tMax) (Qcle_refl _)). cbn [optList].
    split; [reflexivity|]. split; [|apply last_last].
    replace (resolution + 1)%nat with (S resolution) by lia.
    cbn [seq flat_map].
    rewrite ofNat_0.
    replace (0 * (tMax / ofNat resolution)) with 0 by ring.
    rewrite (proj1 (Ends 0) (Qcle_refl _)). reflexivity.
Qed.

Lemma generateBSplineCurve_ends_witness :
  let samples :=
    fst (generateBSplineCurve [pt2 10 0; pt2 10 5; pt2 5 10] 2 4) in
  nth_error samples 0 = Some (toXY (pt2 10 0)) /\
  last samples (mkXY None None) = mkXY (Some 0) (Some 0).
Proof.
  destruct (generateBSplineCurve_ends [pt2 10 0; pt2 10 5; pt2 5 10] 2 4
              (pt2 0 0) (mkXY None None)) as [_ H].
  destruct H as [_ H]; [simpl; lia | simpl; lia | lia |].
  exact H.
Defined.

End ProfileSplineFacts.
